(** * memory-mcp: a shallow embedding of the vault, search and tool runtime

    The development follows the packages of the repository:
    - [Utils]     packages/common/src/utils.ts            (generateUid)
    - [Para]      packages/storage-md/src/para-manager.ts (category routing)
    - [LinkGraph] index-search link-graph                 (link queries, BFS)
    - [Search]    index-search search-engine              (hybrid ranking)
    - [Backlink]  packages/storage-md/src/backlink-manager.ts
    - [Tools]     mcp-server tools registry               (executeTool)
    - [Text]      packages/common/src/utils.ts            (paths, links, snippets, sizes)
    - [ParaNames] packages/storage-md/src/para-manager.ts (directory and file names)
    - [Reachability], [LinkStore]  index-search link-graph (soundness of the
                  traversal; writing and deleting links; orphans)
    - [Indexing]  index-search search-engine              (indexNote, removeNote, indexNotes)
    - [GitSnapshot] packages/storage-md/src/git-snapshot.ts
    [Js], [JsString], [JsArray], [Double] and [Batches] hold the JavaScript
    primitives that the sources use.

    Conventions.  JavaScript numbers that only ever hold integers are [Z].
    The scores of the search engine are binary64 numbers ([Double], the
    IEEE 754 operations of the standard library's [SpecFloat]); the scores
    of the link-graph traversal are exact rationals [Q], and so are the
    indices and sizes that the text functions compute.  A string is the
    sequence of the bytes of its UTF-8 encoding, except where a function
    counts or cuts characters: there it is the sequence of its UTF-16 code
    units ([JsString.code_units]).  A call that may throw returns an
    [option] or a sum; state that the code mutates is passed explicitly. *)

From Stdlib Require Import ZArith Zpower QArith Qminmax Qpower Qround Lia Lqa Bool Ascii String List.
From Stdlib Require Floats.SpecFloat.
From stdpp Require Import base option list sorting gmap sets strings.

Local Open Scope string_scope.
Local Open Scope Z_scope.

(** ** JavaScript string and number primitives used by the sources *)

Module Js.

(** One decimal digit as a character. *)
Definition digit_char (d : Z) : ascii :=
  ascii_of_nat (48 + Z.to_nat d).

(** Decimal digits of a non-negative integer, most significant first;
    [fuel] bounds the number of digits produced. *)
Fixpoint digits (fuel : nat) (n : Z) (acc : string) : string :=
  match fuel with
  | O => acc
  | S fuel' =>
      let acc' := String (digit_char (n mod 10)) acc in
      if n <? 10 then acc' else digits fuel' (n / 10) acc'
  end.

(** [Number.prototype.toString()] on an integer. *)
Definition toString (n : Z) : string :=
  if n <? 0
  then String "-" (digits (S (Z.to_nat (Z.log2 (- n)))) (- n) "")
  else digits (S (Z.to_nat (Z.log2 n))) n "".

Fixpoint repeat_char (c : ascii) (n : nat) : string :=
  match n with
  | O => ""
  | S n' => String c (repeat_char c n')
  end.

(** [String.prototype.padStart(targetLength, pad)] for a one-character pad. *)
Definition padStart (s : string) (targetLength : nat) (pad : ascii) : string :=
  repeat_char pad (targetLength - String.length s) ++ s.

Definition is_digit (c : ascii) : bool :=
  let n := nat_of_ascii c in (48 <=? n)%nat && (n <=? 57)%nat.

Fixpoint all_digits (s : string) : bool :=
  match s with
  | "" => true
  | String c s' => is_digit c && all_digits s'
  end.

(** A string from the numbers of its bytes. *)
Definition bytes (l : list nat) : string :=
  foldr (fun n s => String (ascii_of_nat n) s) "" l.

(** ECMAScript white space and line terminators in the ASCII range:
    TAB, LF, VT, FF, CR and SPACE. *)
Definition is_white_space (c : ascii) : bool :=
  let n := nat_of_ascii c in
  ((9 <=? n)%nat && (n <=? 13)%nat) || (n =? 32)%nat.

(** The white space of two bytes: U+00A0. *)
Definition is_white_space_2 (a b : ascii) : bool :=
  (nat_of_ascii a =? 194)%nat && (nat_of_ascii b =? 160)%nat.

(** The white space and the line terminators of three bytes: U+1680,
    U+2000 to U+200A, U+2028, U+2029, U+202F, U+205F, U+3000 and U+FEFF. *)
Definition is_white_space_3 (a b c : ascii) : bool :=
  let x := nat_of_ascii a in
  let y := nat_of_ascii b in
  let z := nat_of_ascii c in
  ((x =? 225) && (y =? 154) && (z =? 128))%nat
  || ((x =? 226) && (y =? 128)
      && (((128 <=? z) && (z <=? 138)) || (z =? 168) || (z =? 169) || (z =? 175)))%nat
  || ((x =? 226) && (y =? 129) && (z =? 159))%nat
  || ((x =? 227) && (y =? 128) && (z =? 128))%nat
  || ((x =? 239) && (y =? 187) && (z =? 191))%nat.

(** [String.prototype.trimStart()] on the UTF-8 bytes of a string. *)
Fixpoint trimStart (s : string) : string :=
  match s with
  | "" => ""
  | String a s1 =>
      if is_white_space a then trimStart s1
      else
        match s1 with
        | "" => s
        | String b s2 =>
            if is_white_space_2 a b then trimStart s2
            else
              match s2 with
              | "" => s
              | String c s3 => if is_white_space_3 a b c then trimStart s3 else s
              end
        end
  end.

(** The string is a sequence of white-space characters. *)
Fixpoint all_white_space (s : string) : bool :=
  match s with
  | "" => true
  | String a s1 =>
      if is_white_space a then all_white_space s1
      else
        match s1 with
        | "" => false
        | String b s2 =>
            if is_white_space_2 a b then all_white_space s2
            else
              match s2 with
              | "" => false
              | String c s3 => is_white_space_3 a b c && all_white_space s3
              end
        end
  end.

(** [String.prototype.trimEnd()]: the string is cut where its trailing
    white space begins. *)
Fixpoint trimEnd (s : string) : string :=
  match s with
  | "" => ""
  | String c s' => if all_white_space s then "" else String c (trimEnd s')
  end.

(** [String.prototype.trim()]. *)
Definition trim (s : string) : string := trimEnd (trimStart s).

(** The UTF-8 encodings of the characters that ECMAScript counts as
    white space or as line terminators. *)
Definition white_space_characters : list string :=
  map bytes
    [[9]; [10]; [11]; [12]; [13]; [32]; [194; 160]; [225; 154; 128];
     [226; 128; 128]; [226; 128; 129]; [226; 128; 130]; [226; 128; 131];
     [226; 128; 132]; [226; 128; 133]; [226; 128; 134]; [226; 128; 135];
     [226; 128; 136]; [226; 128; 137]; [226; 128; 138];
     [226; 128; 168]; [226; 128; 169]; [226; 128; 175];
     [226; 129; 159]; [227; 128; 128]; [239; 187; 191]]%nat.

(** A string of white-space characters only. *)
Inductive blank : string -> Prop :=
| blank_empty : blank ""
| blank_more w s : w ∈ white_space_characters -> blank s -> blank (w ++ s).

(** No white-space character stands at the head of the string. *)
Definition head_free (s : string) : Prop :=
  forall w r, w ∈ white_space_characters -> s <> w ++ r.

(** No white-space character stands at the end of the string. *)
Definition tail_free (s : string) : Prop :=
  forall w r, w ∈ white_space_characters -> s <> r ++ w.

#[global] Arguments digit_char : simpl never.
#[global] Arguments is_digit : simpl never.
#[global] Arguments is_white_space : simpl never.
#[global] Arguments is_white_space_2 : simpl never.
#[global] Arguments is_white_space_3 : simpl never.

(* ---------- facts ---------- *)

Lemma append_cons c (a b : string) : String c a ++ b = String c (a ++ b).
Proof. reflexivity. Qed.

Lemma append_nil (b : string) : "" ++ b = b.
Proof. reflexivity. Qed.

Lemma nat_of_ascii_eqb c n :
  (nat_of_ascii c =? n)%nat = true -> c = ascii_of_nat n.
Proof. intros H%Nat.eqb_eq. by rewrite <- H, ascii_nat_embedding. Qed.

Lemma is_white_space_char c :
  is_white_space c = true <-> String c "" ∈ white_space_characters.
Proof.
  split.
  - unfold is_white_space. intros H.
    assert (nat_of_ascii c ∈ [9; 10; 11; 12; 13; 32]%nat) as Hn.
    { apply orb_true_iff in H as [[H1 H2]%andb_true_iff | H].
      - apply Nat.leb_le in H1, H2.
        assert (nat_of_ascii c = 9 \/ nat_of_ascii c = 10 \/ nat_of_ascii c = 11 \/
                nat_of_ascii c = 12 \/ nat_of_ascii c = 13)%nat as Hc by lia.
        destruct Hc as [-> | [-> | [-> | [-> | ->]]]];
          apply (bool_decide_unpack _); vm_compute; exact I.
      - apply Nat.eqb_eq in H as ->. apply (bool_decide_unpack _). vm_compute. exact I. }
    rewrite <- (ascii_nat_embedding c).
    repeat (apply elem_of_cons in Hn as [-> | Hn];
            [apply (bool_decide_unpack _); vm_compute; exact I|]).
    by apply elem_of_nil in Hn.
  - intros H. unfold white_space_characters in H. cbn [map] in H.
    repeat (apply elem_of_cons in H as [H | H];
            [first [ injection H as -> ; reflexivity | discriminate H ]|]).
    by apply elem_of_nil in H.
Qed.


Lemma in_white_space_characters (l : list nat) :
  bool_decide (bytes l ∈ white_space_characters) = true ->
  bytes l ∈ white_space_characters.
Proof. apply bool_decide_eq_true_1. Qed.

Lemma white_space_2_char a b :
  is_white_space_2 a b = true ->
  String a (String b "") ∈ white_space_characters.
Proof.
  unfold is_white_space_2. intros [Ha Hb]%andb_true_iff.
  apply nat_of_ascii_eqb in Ha as ->, Hb as ->.
  apply (in_white_space_characters [194; 160]%nat). vm_compute. reflexivity.
Qed.

Lemma white_space_3_char a b c :
  is_white_space_3 a b c = true ->
  String a (String b (String c "")) ∈ white_space_characters.
Proof.
  unfold is_white_space_3. cbv zeta.
  rewrite <- (ascii_nat_embedding a), <- (ascii_nat_embedding b),
    <- (ascii_nat_embedding c).
  rewrite !nat_ascii_embedding by apply nat_ascii_bounded.
  generalize (nat_of_ascii a) (nat_of_ascii b) (nat_of_ascii c).
  intros x y z H.
  repeat (rewrite orb_true_iff in H || rewrite andb_true_iff in H).
  rewrite !Nat.eqb_eq, !Nat.leb_le in H.
  assert ((x = 225 /\ y = 154 /\ z = 128) \/
          (x = 226 /\ y = 128 /\
           (z = 128 \/ z = 129 \/ z = 130 \/ z = 131 \/ z = 132 \/ z = 133 \/
            z = 134 \/ z = 135 \/ z = 136 \/ z = 137 \/ z = 138 \/
            z = 168 \/ z = 169 \/ z = 175)) \/
          (x = 226 /\ y = 129 /\ z = 159) \/
          (x = 227 /\ y = 128 /\ z = 128) \/
          (x = 239 /\ y = 187 /\ z = 191))%nat as Hc by lia.
  clear H.
  repeat match goal with
         | H : _ \/ _ |- _ => destruct H as [H | H]
         | H : _ /\ _ |- _ => destruct H as [? H]
         end; subst;
    match goal with
    | |- String (ascii_of_nat ?x) (String (ascii_of_nat ?y) (String (ascii_of_nat ?z) ""))
         ∈ _ =>
        apply (in_white_space_characters [x; y; z]); vm_compute; reflexivity
    end.
Qed.

(** The three shapes of a white-space character. *)
Lemma white_space_character_cases w :
  w ∈ white_space_characters <->
  (exists a, w = String a "" /\ is_white_space a = true) \/
  (exists a b, w = String a (String b "") /\
     is_white_space a = false /\ is_white_space_2 a b = true) \/
  (exists a b c, w = String a (String b (String c "")) /\
     is_white_space a = false /\ is_white_space_2 a b = false /\
     is_white_space_3 a b c = true).
Proof.
  split.
  - intros H. unfold white_space_characters in H. cbn [map] in H.
    repeat (apply elem_of_cons in H as [-> | H];
            [first
               [ left; eexists; split; [reflexivity | vm_compute; reflexivity]
               | right; left; eexists _, _; split; [reflexivity|];
                 split; vm_compute; reflexivity
               | right; right; eexists _, _, _; split; [reflexivity|];
                 split; [|split]; vm_compute; reflexivity ]|]).
    by apply elem_of_nil in H.
  - intros [(a & -> & H) | [(a & b & -> & _ & H) | (a & b & c & -> & _ & _ & H)]].
    + by apply is_white_space_char.
    + by apply white_space_2_char.
    + by apply white_space_3_char.
Qed.

Lemma white_space_character_length w :
  w ∈ white_space_characters -> (0 < String.length w)%nat.
Proof.
  intros [(a & -> & _) | [(a & b & -> & _) | (a & b & c & -> & _)]]%white_space_character_cases;
    cbn; lia.
Qed.

Lemma trimStart_white w r :
  w ∈ white_space_characters -> trimStart (w ++ r) = trimStart r.
Proof.
  intros [(a & -> & H) | [(a & b & -> & H1 & H2) | (a & b & c & -> & H1 & H2 & H3)]]%white_space_character_cases;
    rewrite !append_cons, append_nil; cbn [trimStart].
  - by rewrite H.
  - by rewrite H1, H2.
  - by rewrite H1, H2, H3.
Qed.

Lemma all_white_space_white w r :
  w ∈ white_space_characters -> all_white_space (w ++ r) = all_white_space r.
Proof.
  intros [(a & -> & H) | [(a & b & -> & H1 & H2) | (a & b & c & -> & H1 & H2 & H3)]]%white_space_character_cases;
    rewrite !append_cons, append_nil; cbn [all_white_space].
  - by rewrite H.
  - by rewrite H1, H2.
  - by rewrite H1, H2, H3.
Qed.

(** A string begins with a white-space character or it does not; in the
    second case [trimStart] leaves it alone. *)
Lemma white_space_head s :
  (exists w r, w ∈ white_space_characters /\ s = w ++ r) \/
  (head_free s /\ trimStart s = s /\ (all_white_space s = true -> s = "")).
Proof.
  assert (Hfree : forall s,
    match s with
    | "" => True
    | String a s1 =>
        is_white_space a = false /\
        match s1 with
        | "" => True
        | String b s2 =>
            is_white_space_2 a b = false /\
            match s2 with
            | "" => True
            | String c _ => is_white_space_3 a b c = false
            end
        end
    end -> head_free s).
  { intros t Ht w r Hw ->.
    apply white_space_character_cases in Hw
      as [(a & -> & H) | [(a & b & -> & H1 & H2) | (a & b & c & -> & H1 & H2 & H3)]];
      rewrite ?append_cons, ?append_nil in Ht; cbn beta iota in Ht.
    - destruct Ht as [Ht _]. congruence.
    - destruct Ht as [_ [Ht _]]. congruence.
    - destruct Ht as [_ [_ Ht]]. congruence. }
  destruct s as [|a s1].
  { right. split; [by apply Hfree|]. done. }
  destruct (is_white_space a) eqn:Ha.
  { left. exists (String a ""), s1. split; [by apply is_white_space_char | done]. }
  destruct s1 as [|b s2].
  { right. split; [by apply Hfree|]. cbn [trimStart all_white_space]. rewrite Ha. done. }
  destruct (is_white_space_2 a b) eqn:Hb.
  { left. exists (String a (String b "")), s2. split; [by apply white_space_2_char | done]. }
  destruct s2 as [|c s3].
  { right. split; [by apply Hfree|]. cbn [trimStart all_white_space]. rewrite Ha, Hb. done. }
  destruct (is_white_space_3 a b c) eqn:Hc.
  { left. exists (String a (String b (String c ""))), s3.
    split; [by apply white_space_3_char | done]. }
  right. split; [by apply Hfree|]. cbn [trimStart all_white_space]. rewrite Ha, Hb, Hc. done.
Qed.

Lemma length_append (a b : string) :
  String.length (a ++ b) = (String.length a + String.length b)%nat.
Proof. induction a as [|c a IH]; [done|]. rewrite append_cons. cbn. by rewrite IH. Qed.

(** Induction on a string, one white-space character at a time. *)
Lemma white_space_ind (P : string -> Prop) :
  (forall s, head_free s -> trimStart s = s ->
             (all_white_space s = true -> s = "") -> P s) ->
  (forall w r, w ∈ white_space_characters -> P r -> P (w ++ r)) ->
  forall s, P s.
Proof.
  intros Hfree Hwhite s.
  remember (String.length s) as n eqn:Hn. revert s Hn.
  induction n as [n IH] using lt_wf_ind. intros s ->.
  destruct (white_space_head s) as [(w & r & Hw & ->) | (H1 & H2 & H3)].
  - apply Hwhite; [done|]. apply (IH (String.length r)); [|done].
    rewrite length_append. pose proof (white_space_character_length w Hw). lia.
  - by apply Hfree.
Qed.

Lemma all_white_space_blank s : all_white_space s = true <-> blank s.
Proof.
  split.
  - induction s as [s _ _ H | w r Hw IH] using white_space_ind.
    + intros ->%H. constructor.
    + rewrite all_white_space_white by done. intros Hr. constructor; auto.
  - induction 1 as [|w s Hw _ IH]; [done|]. by rewrite all_white_space_white.
Qed.




End Js.

(** ** packages/common/src/utils.ts *)

Module Utils.

(** The fields of [new Date()] that [generateUid] reads (local time). *)
Record DateFields := mkDate {
  getFullYear : Z;
  getMonth : Z;          (* 0 .. 11 *)
  getDate : Z;           (* 1 .. 31 *)
  getHours : Z;
  getMinutes : Z;
  getSeconds : Z;
  getMilliseconds : Z
}.

(** A clock reading whose year has four digits. *)
Definition valid_clock (now : DateFields) : Prop :=
  1000 <= getFullYear now <= 9999 /\
  0 <= getMonth now <= 11 /\
  1 <= getDate now <= 31 /\
  0 <= getHours now <= 23 /\
  0 <= getMinutes now <= 59 /\
  0 <= getSeconds now <= 59 /\
  0 <= getMilliseconds now <= 999.

Definition pad2 (n : Z) : string := Js.padStart (Js.toString n) 2 "0".

(** The date part, [`${year}${month}${day}`]. *)
Definition uid_date (now : DateFields) : string :=
  Js.toString (getFullYear now) ++ pad2 (getMonth now + 1) ++ pad2 (getDate now).

(** The time part, [`${hours}${minutes}${seconds}`]. *)
Definition uid_time (now : DateFields) : string :=
  pad2 (getHours now) ++ pad2 (getMinutes now) ++ pad2 (getSeconds now).

(** [uniqueId]: milliseconds and the module counter, six digits. *)
Definition uid_unique (now : DateFields) (counter : Z) : string :=
  Js.padStart (Js.toString (getMilliseconds now * 1000 + counter)) 6 "0".

(** [generateUid()]: the module variable [uidCounter] is threaded through;
    the result is the UID and the new counter. *)
Definition generateUid (now : DateFields) (uidCounter : Z) : string * Z :=
  let uidCounter' := Z.rem (uidCounter + 1) 1000 in
  (uid_date now ++ "T" ++ uid_time now ++ uid_unique now uidCounter' ++ "Z",
   uidCounter').

(** Consecutive calls within one process: the clock readings seen by the
    calls, in order, and the counter before the first of them. *)
Fixpoint generateUids (clock : list DateFields) (uidCounter : Z) : list string :=
  match clock with
  | [] => []
  | now :: rest =>
      let '(uid, c) := generateUid now uidCounter in
      uid :: generateUids rest c
  end.

(** The counter of a fresh process. *)
Definition initial_uidCounter : Z := 0.

(** JavaScript's [<] on two strings (code-unit order). *)
Definition uid_lt (a b : string) : bool := String.ltb a b.

(** A clock reading used in the examples: 2025-09-27 10:30:00.123. *)
Definition sample_clock : DateFields := mkDate 2025 8 27 10 30 0 123.

(* ---------- lemmas on the primitives ---------- *)

Lemma length_app (s t : string) :
  String.length (s ++ t) = (String.length s + String.length t)%nat.
Proof. induction s as [|c s IH]; simpl; [reflexivity | now rewrite IH]. Qed.

Lemma length_repeat_char c n : String.length (Js.repeat_char c n) = n.
Proof. induction n; simpl; congruence. Qed.

Lemma all_digits_app s t :
  Js.all_digits (s ++ t) = Js.all_digits s && Js.all_digits t.
Proof.
  induction s as [|c s IH]; simpl; [reflexivity|].
  rewrite IH. now rewrite andb_assoc.
Qed.

Lemma all_digits_repeat_zero n : Js.all_digits (Js.repeat_char "0" n) = true.
Proof. induction n; simpl; auto. Qed.

Lemma is_digit_digit_char d : 0 <= d < 10 -> Js.is_digit (Js.digit_char d) = true.
Proof.
  intros Hd. unfold Js.is_digit, Js.digit_char.
  rewrite nat_ascii_embedding by lia.
  apply andb_true_iff; split; apply Nat.leb_le; lia.
Qed.

Lemma digits_all_digits fuel : forall n acc,
  0 <= n -> Js.all_digits acc = true -> Js.all_digits (Js.digits fuel n acc) = true.
Proof.
  induction fuel as [|fuel IH]; intros n acc Hn Hacc; cbn [Js.digits];
    [assumption|].
  assert (Hd : Js.all_digits (String (Js.digit_char (n mod 10)) acc) = true).
  { cbn [Js.all_digits]. rewrite Hacc, is_digit_digit_char; [reflexivity|].
    apply Z.mod_pos_bound; lia. }
  destruct (n <? 10); [assumption|].
  apply IH; [apply Z.div_pos; lia | assumption].
Qed.

Lemma pow10_succ k : 10 ^ Z.of_nat (S k) = 10 * 10 ^ Z.of_nat k.
Proof. rewrite Nat2Z.inj_succ, Z.pow_succ_r; lia. Qed.

Lemma digits_grows fuel : forall n acc,
  (String.length acc <= String.length (Js.digits fuel n acc))%nat.
Proof.
  induction fuel as [|fuel IH]; intros n acc; cbn [Js.digits]; [lia|].
  destruct (n <? 10); cbn [String.length]; [lia|].
  specialize (IH (n / 10) (String (Js.digit_char (n mod 10)) acc)).
  cbn [String.length] in IH. lia.
Qed.

(** A number below [10^(k+1)] prints with at most [k+1] digits. *)
Lemma digits_length_le fuel : forall k n acc,
  0 <= n < 10 ^ Z.of_nat (S k) ->
  (String.length (Js.digits fuel n acc) <= S k + String.length acc)%nat.
Proof.
  induction fuel as [|fuel IH]; intros k n acc Hn; cbn [Js.digits]; [lia|].
  destruct (Z.ltb_spec n 10) as [Hlt|Hge]; cbn [String.length]; [lia|].
  destruct k as [|k].
  { rewrite pow10_succ in Hn. change (10 ^ Z.of_nat 0) with 1 in Hn. lia. }
  specialize (IH k (n / 10) (String (Js.digit_char (n mod 10)) acc)).
  cbn [String.length] in IH.
  assert (0 <= n / 10 < 10 ^ Z.of_nat (S k)).
  { split; [apply Z.div_pos; lia|].
    apply Z.div_lt_upper_bound; [lia|].
    rewrite <- pow10_succ. lia. }
  specialize (IH ltac:(assumption)). lia.
Qed.

(** A number of at least [10^k] prints with more than [k] digits, given
    enough fuel. *)
Lemma digits_length_ge fuel : forall k n acc,
  10 ^ Z.of_nat k <= n -> (k < fuel)%nat ->
  (S k + String.length acc <= String.length (Js.digits fuel n acc))%nat.
Proof.
  induction fuel as [|fuel IH]; intros k n acc Hn Hf; [lia|].
  cbn [Js.digits].
  destruct k as [|k].
  { destruct (n <? 10); cbn [String.length]; [lia|].
    assert (H := digits_grows fuel (n / 10)
                  (String (Js.digit_char (n mod 10)) acc)).
    cbn [String.length] in H. lia. }
  assert (Hk : 0 < 10 ^ Z.of_nat k) by (apply Z.pow_pos_nonneg; lia).
  rewrite pow10_succ in Hn.
  destruct (Z.ltb_spec n 10) as [Hlt|Hge]; [lia|].
  specialize (IH k (n / 10) (String (Js.digit_char (n mod 10)) acc)).
  cbn [String.length] in IH.
  assert (10 ^ Z.of_nat k <= n / 10).
  { apply Z.div_le_lower_bound; lia. }
  specialize (IH ltac:(assumption) ltac:(lia)). lia.
Qed.

Lemma toString_all_digits n : 0 <= n -> Js.all_digits (Js.toString n) = true.
Proof.
  intros Hn. unfold Js.toString.
  destruct (Z.ltb_spec n 0); [lia|].
  now apply digits_all_digits.
Qed.

Lemma toString_length_le k n :
  0 <= n < 10 ^ Z.of_nat (S k) -> (String.length (Js.toString n) <= S k)%nat.
Proof.
  intros Hn. unfold Js.toString.
  destruct (Z.ltb_spec n 0); [lia|].
  pose proof (digits_length_le (S (Z.to_nat (Z.log2 n))) k n "" Hn) as Hl.
  cbn [String.length] in Hl. lia.
Qed.

Lemma toString_length_ge k n :
  10 ^ Z.of_nat k <= n -> (S k <= String.length (Js.toString n))%nat.
Proof.
  intros Hn.
  assert (Hpos : 0 < 10 ^ Z.of_nat k) by (apply Z.pow_pos_nonneg; lia).
  unfold Js.toString.
  destruct (Z.ltb_spec n 0); [lia|].
  assert (Hlog : Z.of_nat k <= Z.log2 n).
  { apply Z.log2_le_pow2; [lia|].
    transitivity (10 ^ Z.of_nat k); [|assumption].
    apply Z.pow_le_mono_l; lia. }
  pose proof (digits_length_ge (S (Z.to_nat (Z.log2 n))) k n "" Hn) as Hl.
  cbn [String.length] in Hl. lia.
Qed.

Lemma padStart_length s t c :
  (String.length s <= t)%nat -> String.length (Js.padStart s t c) = t.
Proof.
  intros H. unfold Js.padStart. rewrite length_app, length_repeat_char. lia.
Qed.

Lemma padStart_zero_digits s t :
  Js.all_digits s = true -> Js.all_digits (Js.padStart s t "0") = true.
Proof.
  intros H. unfold Js.padStart.
  now rewrite all_digits_app, all_digits_repeat_zero, H.
Qed.

Lemma pad2_shape n :
  0 <= n <= 99 -> String.length (pad2 n) = 2%nat /\ Js.all_digits (pad2 n) = true.
Proof.
  intros Hn. unfold pad2. split.
  - apply padStart_length, (toString_length_le 1). change (10 ^ Z.of_nat 2) with 100. lia.
  - apply padStart_zero_digits, toString_all_digits. lia.
Qed.

Lemma year_shape y :
  1000 <= y <= 9999 ->
  String.length (Js.toString y) = 4%nat /\ Js.all_digits (Js.toString y) = true.
Proof.
  intros Hy. split; [|apply toString_all_digits; lia].
  assert (String.length (Js.toString y) <= 4)%nat.
  { apply (toString_length_le 3). change (10 ^ Z.of_nat 4) with 10000. lia. }
  assert (4 <= String.length (Js.toString y))%nat.
  { apply (toString_length_ge 3). change (10 ^ Z.of_nat 3) with 1000. lia. }
  lia.
Qed.

Lemma uid_unique_shape now c :
  0 <= getMilliseconds now <= 999 -> 0 <= c <= 999 ->
  String.length (uid_unique now c) = 6%nat /\ Js.all_digits (uid_unique now c) = true.
Proof.
  intros Hms Hc. unfold uid_unique. split.
  - apply padStart_length, (toString_length_le 5).
    change (10 ^ Z.of_nat 6) with 1000000. lia.
  - apply padStart_zero_digits, toString_all_digits. lia.
Qed.

(** The counter stays within [0, 999] once it is non-negative. *)
Lemma uidCounter_range c : 0 <= c -> 0 <= Z.rem (c + 1) 1000 <= 999.
Proof.
  intros Hc. pose proof (Z.rem_bound_pos (c + 1) 1000 ltac:(lia) ltac:(lia)). lia.
Qed.

Lemma sample_clock_valid : valid_clock sample_clock.
Proof. unfold valid_clock, sample_clock; cbn; lia. Qed.

(** C9 (as amended).  For a clock whose year has four digits, every value
    returned by [generateUid] is exactly 22 characters long (not 24): eight
    digits YYYYMMDD, a literal T, six digits HHMMSS, a six-digit
    micro-counter and a literal Z. *)
Theorem generateUid_format (now : DateFields) (uidCounter : Z) :
  valid_clock now -> 0 <= uidCounter ->
  let uid := fst (generateUid now uidCounter) in
  String.length uid = 22%nat /\
  exists date time micro,
    uid = date ++ "T" ++ time ++ micro ++ "Z" /\
    String.length date = 8%nat /\ Js.all_digits date = true /\
    String.length time = 6%nat /\ Js.all_digits time = true /\
    String.length micro = 6%nat /\ Js.all_digits micro = true.
Proof.
  intros (Hy & Hmo & Hd & Hh & Hmi & Hs & Hms) Hc.
  pose proof (uidCounter_range uidCounter Hc) as Hc'.
  destruct (year_shape _ Hy) as [Ly Dy].
  destruct (pad2_shape (getMonth now + 1) ltac:(lia)) as [Lmo Dmo].
  destruct (pad2_shape (getDate now) ltac:(lia)) as [Ld Dd].
  destruct (pad2_shape (getHours now) ltac:(lia)) as [Lh Dh].
  destruct (pad2_shape (getMinutes now) ltac:(lia)) as [Lmi Dmi].
  destruct (pad2_shape (getSeconds now) ltac:(lia)) as [Ls Ds].
  destruct (uid_unique_shape now _ Hms Hc') as [Lu Du].
  assert (Ldate : String.length (uid_date now) = 8%nat).
  { unfold uid_date. rewrite !length_app. lia. }
  assert (Ltime : String.length (uid_time now) = 6%nat).
  { unfold uid_time. rewrite !length_app. lia. }
  cbv zeta. unfold generateUid. cbn [fst]. split.
  - rewrite !length_app. cbn [String.length]. lia.
  - exists (uid_date now), (uid_time now),
      (uid_unique now (Z.rem (uidCounter + 1) 1000)).
    repeat split; try assumption.
    + unfold uid_date. now rewrite !all_digits_app, Dy, Dmo, Dd.
    + unfold uid_time. now rewrite !all_digits_app, Dh, Dmi, Ds.
Qed.

(** The first UID of a process started at the sample clock reading. *)
Lemma generateUid_format_witness :
  String.length (fst (generateUid sample_clock initial_uidCounter)) = 22%nat.
Proof.
  apply (generateUid_format sample_clock initial_uidCounter sample_clock_valid).
  unfold initial_uidCounter. lia.
Defined.

(** C9, counterexample: the UID printed for 2025-09-27 10:30:00.123 by a
    fresh process is ["20250927T103000123001Z"], which is not 24
    characters long. *)
Lemma generateUid_length_not_24 :
  fst (generateUid sample_clock initial_uidCounter) = "20250927T103000123001Z" /\
  String.length (fst (generateUid sample_clock initial_uidCounter)) <> 24%nat.
Proof. split; [vm_compute; reflexivity | vm_compute; discriminate]. Qed.

(** C3, the code at the failing input: 1001 consecutive calls of a fresh
    process that all read the same clock millisecond.  The 1000th call
    wraps the counter and returns a value smaller than the 999th, and the
    1001st call returns the value of the first again. *)
Theorem generateUid_counter_wrap :
  let uids := generateUids (replicate 1001 sample_clock) initial_uidCounter in
  uids !! 998%nat = Some "20250927T103000123999Z" /\
  uids !! 999%nat = Some "20250927T103000123000Z" /\
  uid_lt "20250927T103000123999Z" "20250927T103000123000Z" = false /\
  uids !! 0%nat = Some "20250927T103000123001Z" /\
  uids !! 1000%nat = Some "20250927T103000123001Z".
Proof. vm_compute. repeat split; reflexivity. Qed.

End Utils.

(** ** Notes as the storage layer sees them *)

Module Note.

(** Header metadata ([FrontMatter]).  [project] is optional; [updated] is
    a string in the type but is tested for absence before use, so it is
    optional here. *)
Record FrontMatter := mkFrontMatter {
  id : string;
  title : string;
  category : string;
  tags : list string;
  project : option string;
  created : string;
  updated : option string;
  links : list string
}.

Record MarkdownNote := mkNote {
  filePath : string;
  frontMatter : FrontMatter;
  content : string
}.

(** JavaScript truthiness of an optional string: defined and non-empty. *)
Definition truthy (o : option string) : bool :=
  match o with
  | Some s => negb (String.eqb s "")
  | None => false
  end.

End Note.

(** ** packages/storage-md/src/para-manager.ts *)

Module Para.
Import Note.

(** A numeric option of a config object: the key is missing, or it holds
    [undefined], or it holds a number. *)
Inductive NumberOption :=
| Missing
| Undefined
| Number (n : Q).

(** The part of [ParaStructureConfig] that category routing reads. *)
Record ParaStructureConfig := mkConfig {
  rootPath : string;
  autoMove : option bool;
  createProjectSubdirs : option bool;
  archiveThresholdDays : NumberOption
}.

(** [DEFAULT_PARA_CONFIG.archiveThresholdDays]. *)
Definition DEFAULT_archiveThresholdDays : Q := 90.

(** The constructor's merge [{...DEFAULT_PARA_CONFIG, ...config}] for the
    threshold: a key of [config] replaces the default, also when it holds
    [undefined] ([None]). *)
Definition config_archiveThresholdDays (config : ParaStructureConfig) : option Q :=
  match archiveThresholdDays config with
  | Missing => Some DEFAULT_archiveThresholdDays
  | Undefined => None
  | Number n => Some n
  end.

(** [1000 * 60 * 60 * 24] *)
Definition msPerDay : Z := 1000 * 60 * 60 * 24.

Definition validCategories : list string :=
  ["Projects"; "Areas"; "Resources"; "Archives"].

(** [Array.prototype.includes] on strings. *)
Definition includes (l : list string) (s : string) : bool :=
  existsb (String.eqb s) l.

(** A parser that knows one timestamp: 2025-01-01T00:00:00.000Z. *)
Definition sample_Date_parse (s : string) : option Z :=
  if String.eqb s "2025-01-01T00:00:00.000Z" then Some 1735689600000 else None.


Definition default_config : ParaStructureConfig := mkConfig "/vault" None None Missing.

(** Notes for the routing examples (timestamps in the sample parser). *)
Definition note_with (proj : option string) (cat : string) : MarkdownNote :=
  mkNote "/vault/n.md"
    (mkFrontMatter "20250101T000000000001Z" "N" cat [] proj
       "2025-01-01T00:00:00.000Z" (Some "2025-01-01T00:00:00.000Z") [])
    "body".

(** The no-break space U+00A0 in UTF-8. *)
Definition nbsp : string := Js.bytes [194; 160]%nat.

Section Routing.

(** [new Date(s).getTime()]: the epoch milliseconds of a timestamp string,
    [None] for an invalid date (NaN). *)
Variable Date_parse : string -> option Z.

(** [shouldArchive]; [now] is [new Date().getTime()].  A comparison with
    NaN or with [undefined] is false.  [daysDiff] is the floor of the exact
    quotient.  The quotient that the code computes in double precision has
    the same floor whenever the difference of the two times is a safe
    integer (below [2 ^ 53] milliseconds, some 285 000 years): the
    difference is then exact, and a quotient that is not a whole number of
    days lies at least 1/86400000 below the next one, more than half the
    distance between neighbouring doubles of that size.  Every time that a
    [Date] holds is that near to the present. *)
Definition shouldArchive (config : ParaStructureConfig) (now : Z)
    (note : MarkdownNote) : bool :=
  match updated (frontMatter note) with
  | None => false
  | Some u =>
      if String.eqb u "" then false
      else
        match Date_parse u with
        | None => false
        | Some lastUpdated =>
            let daysDiff := (now - lastUpdated) / msPerDay in
            match config_archiveThresholdDays config with
            | Some threshold => negb (Qle_bool (inject_Z daysDiff) threshold)
            | None => false
            end
        end
  end.

(** [determineTargetCategory]. *)
Definition determineTargetCategory (config : ParaStructureConfig) (now : Z)
    (note : MarkdownNote) : string :=
  let fm := frontMatter note in
  if truthy (project fm) && truthy (Js.trim <$> project fm) then "Projects"
  else if shouldArchive config now note then "Archives"
  else if includes validCategories (category fm) then category fm
  else "Resources".

(** The claim's conditions, in the spec's words. *)





(** The JavaScript [Date] constructor rejects the empty string. *)
Hypothesis Date_parse_empty : Date_parse "" = None.







End Routing.


Example route_project :
  determineTargetCategory sample_Date_parse default_config
    (1735689600000 + 200 * msPerDay) (note_with (Some " alpha ") "Areas") = "Projects".
Proof. vm_compute. reflexivity. Qed.

Example route_blank_project_recent :
  determineTargetCategory sample_Date_parse default_config
    (1735689600000 + 3 * msPerDay) (note_with (Some "   ") "Areas") = "Areas".
Proof. vm_compute. reflexivity. Qed.

(** A project of no-break spaces is blank as well. *)
Example route_nbsp_project :
  determineTargetCategory sample_Date_parse default_config
    (1735689600000 + 3 * msPerDay) (note_with (Some (nbsp ++ " " ++ nbsp)) "Areas")
  = "Areas".
Proof. vm_compute. reflexivity. Qed.

Example route_ninety_days_is_not_old :
  determineTargetCategory sample_Date_parse default_config
    (1735689600000 + 91 * msPerDay - 1) (note_with None "Areas") = "Areas".
Proof. vm_compute. reflexivity. Qed.

Example route_ninety_one_days :
  determineTargetCategory sample_Date_parse default_config
    (1735689600000 + 91 * msPerDay) (note_with None "Areas") = "Archives".
Proof. vm_compute. reflexivity. Qed.

(** A configured threshold replaces the default, and a threshold of
    [undefined] archives nothing. *)
Example route_configured_threshold :
  determineTargetCategory sample_Date_parse (mkConfig "/vault" None None (Number 7))
    (1735689600000 + 8 * msPerDay) (note_with None "Areas") = "Archives" /\
  determineTargetCategory sample_Date_parse (mkConfig "/vault" None None Undefined)
    (1735689600000 + 4000 * msPerDay) (note_with None "Areas") = "Areas".
Proof. vm_compute. by split. Qed.

Example route_unknown_category :
  determineTargetCategory sample_Date_parse default_config
    (1735689600000 + 3 * msPerDay) (note_with None "Inbox") = "Resources".
Proof. vm_compute. reflexivity. Qed.

End Para.

(** ** mcp-server tools registry (executeTool) *)

Module Tools.

Inductive ErrorCode :=
| MCP_INVALID_REQUEST
| MCP_TOOL_ERROR
| SCHEMA_VALIDATION_ERROR
| TIMEOUT_ERROR.

(** The metadata object attached to a schema-validation failure. *)
Record ErrorMetadata := mkMetadata {
  validationErrors : string;
  tool : string
}.

Record MemoryMcpError := mkError {
  code : ErrorCode;
  message : string;
  metadata : option ErrorMetadata
}.

(** What a promise can reject with: a [MemoryMcpError], another [Error]
    (with its message), or a value that is not an [Error]. *)
Inductive Thrown :=
| ThrownMcp (e : MemoryMcpError)
| ThrownError (msg : string)
| ThrownValue (v : string).

(** [error instanceof Error ? error.message : error] *)
Definition diagnostic_of (t : Thrown) : string :=
  match t with
  | ThrownMcp e => message e
  | ThrownError msg => msg
  | ThrownValue v => v
  end.

(** The registered names: the keys of [toolMap], whose type
    [Record<ToolName, RegisteredTool>] makes them the whole of [ToolName]. *)
Inductive ToolName := search_memory | create_note.

Definition tool_name_string (n : ToolName) : string :=
  match n with
  | search_memory => "search_memory"
  | create_note => "create_note"
  end.

(** Modelled from the spec: [ToolNameSchema] is declared in schemas.js,
    which is not among the sources; it is the enumeration of the tool
    names, so parsing succeeds exactly on them. *)
Definition ToolNameSchema_safeParse (name : string) : option ToolName :=
  if String.eqb name "search_memory" then Some search_memory
  else if String.eqb name "create_note" then Some create_note
  else None.

Record ExecutionPolicy := mkPolicy {
  timeoutMs : Z;
  maxRetries : Z
}.

(** [Partial<ExecutionPolicy>], as [context.policy] and [overrides]. *)
Record PartialPolicy := mkPartial {
  p_timeoutMs : option Z;
  p_maxRetries : option Z
}.

(** Modelled from the spec: [DEFAULT_EXECUTION_POLICY] (execution-policy.js
    is not among the sources): timeout 5000 ms, two retries. *)
Definition DEFAULT_EXECUTION_POLICY : ExecutionPolicy := mkPolicy 5000 2.

(** Object spread of a partial policy over a full one. *)
Definition spread (base : ExecutionPolicy) (over : option PartialPolicy)
    : ExecutionPolicy :=
  match over with
  | None => base
  | Some o =>
      mkPolicy (default (timeoutMs base) (p_timeoutMs o))
               (default (maxRetries base) (p_maxRetries o))
  end.

Inductive LogLevel := debug | info | warn | error.

(** What a call of [executeTool] does besides returning: the log entries
    it writes (level, operation, tool) and the handler invocations. *)
Inductive Event :=
| Log (level : LogLevel) (operation : string) (tool : string)
| HandlerInvoked (tool : string) (attempt : nat).

Section Registry.

Variables RawInput ParsedInput ToolResult : Type.

(** One run of a handler: how long it takes to settle, and how. *)
Record HandlerRun := mkRun {
  duration : Z;
  outcome : Thrown + ToolResult
}.

Record ToolExecutionContext := mkContext {
  vaultPath : string;
  mode : string;
  policy : option PartialPolicy
}.

(** A tool definition.  [schema] is [schema.parseAsync]; [handler] gives
    the run of each invocation, numbered from 1, so that a handler may
    fail on some attempts and succeed on others. *)
Record ToolDefinition := mkTool {
  name : string;
  description : string;
  schema : RawInput -> Thrown + ParsedInput;
  handler : ParsedInput -> ToolExecutionContext -> nat -> HandlerRun
}.

Variables searchMemoryDefinition createNoteDefinition : ToolDefinition.

Definition toolMap (n : ToolName) : option ToolDefinition :=
  match n with
  | search_memory => Some searchMemoryDefinition
  | create_note => Some createNoteDefinition
  end.

(** Which failures the policy retries. *)
Variable retryable : Thrown -> bool.

Definition timeout_error : Thrown :=
  ThrownMcp (mkError TIMEOUT_ERROR "timeout" None).

(** Modelled from the spec: [withExecutionPolicy] (execution-policy.js is
    not among the sources).  It attempts the operation up to
    [maxRetries + 1] times, each attempt bounded by [timeoutMs]; a timeout
    is wrapped as a timeout error; after a retry-able failure with
    attempts left it calls [onRetry] and tries again; the final failure
    propagates.  [retries] is the number of retries left. *)
Fixpoint withExecutionPolicy (toolName : string)
    (operation : nat -> HandlerRun) (timeout : Z) (retries : nat)
    (attempt : nat) : list Event * (Thrown + ToolResult) :=
  let run := operation attempt in
  let settled :=
    if timeout <=? duration run then inl timeout_error else outcome run in
  match settled with
  | inr r => ([HandlerInvoked toolName attempt], inr r)
  | inl e =>
      match retries with
      | S retries' =>
          if retryable e then
            let '(evs, res) :=
              withExecutionPolicy toolName operation timeout retries' (S attempt) in
            (HandlerInvoked toolName attempt :: Log warn "tool.retry" toolName :: evs,
             res)
          else ([HandlerInvoked toolName attempt], inl e)
      | O => ([HandlerInvoked toolName attempt], inl e)
      end
  end.

(** [executeTool(name, rawInput, context, overrides)]: the events of the
    call and its settlement ([inl] for a rejection). *)
Definition executeTool (toolName : string) (rawInput : RawInput)
    (context : ToolExecutionContext) (overrides : option PartialPolicy)
    : list Event * (Thrown + ToolResult) :=
  match ToolNameSchema_safeParse toolName with
  | None =>
      ([], inl (ThrownMcp (mkError MCP_INVALID_REQUEST
                             ("알 수 없는 MCP 툴입니다: " ++ toolName) None)))
  | Some parsed =>
      match toolMap parsed with
      | None =>
          ([], inl (ThrownMcp (mkError MCP_TOOL_ERROR
                                 ("등록되지 않은 MCP 툴입니다: " ++ toolName) None)))
      | Some definition =>
          match schema definition rawInput with
          | inl err =>
              ([], inl (ThrownMcp
                          (mkError SCHEMA_VALIDATION_ERROR "툴 입력이 유효하지 않습니다."
                             (Some (mkMetadata (diagnostic_of err)
                                               (name definition))))))
          | inr parsedInput =>
              let policy :=
                spread (spread DEFAULT_EXECUTION_POLICY (policy context))
                       overrides in
              let start := Log debug "tool.start" (name definition) in
              let '(evs, res) :=
                withExecutionPolicy (name definition)
                  (handler definition parsedInput context)
                  (timeoutMs policy) (Z.to_nat (maxRetries policy)) 1 in
              match res with
              | inr r =>
                  (start :: evs ++ [Log info "tool.success" (name definition)],
                   inr r)
              | inl e =>
                  (start :: evs ++ [Log error "tool.failure" (name definition)],
                   inl e)
              end
          end
      end
  end.

(** A name is registered when the registry has a definition under it. *)
Definition registered (toolName : string) (definition : ToolDefinition) : Prop :=
  exists parsed,
    ToolNameSchema_safeParse toolName = Some parsed /\
    toolMap parsed = Some definition.

(** The call fails with the given code, without having invoked a handler,
    retried or logged anything. *)
Definition fails_immediately (r : list Event * (Thrown + ToolResult))
    (c : ErrorCode) (m : option ErrorMetadata) : Prop :=
  exists msg, r = ([], inl (ThrownMcp (mkError c msg m))).

End Registry.

(** A registry over string inputs whose schemas accept only non-empty
    input and whose handlers echo it at once. *)
Definition sample_tool (n : string) : ToolDefinition string string string :=
  mkTool string string string n "sample"
    (fun raw => if String.eqb raw "" then inl (ThrownError "Required") else inr raw)
    (fun input _ _ => mkRun string 0 (inr input)).

Definition sample_context : ToolExecutionContext := mkContext "/vault" "dev" None.

Definition sample_executeTool :=
  executeTool string string string
    (sample_tool "search_memory") (sample_tool "create_note") (fun _ => true).

(** A handler that fails on its first two invocations and then succeeds
    (the spec's retry scenario). *)
Definition flaky_tool (n : string) : ToolDefinition string string string :=
  mkTool string string string n "flaky"
    (fun raw => inr raw)
    (fun input _ attempt =>
       if (attempt <? 3)%nat then mkRun string 0 (inl (ThrownError "transient"))
       else mkRun string 0 (inr input)).

Definition flaky_executeTool :=
  executeTool string string string
    (flaky_tool "search_memory") (flaky_tool "create_note") (fun _ => true).

(* ---------- facts ---------- *)

Section RegistryFacts.

Variables RawInput ParsedInput ToolResult : Type.
Variables searchMemoryDefinition createNoteDefinition :
  ToolDefinition RawInput ParsedInput ToolResult.
Variable retryable : Thrown -> bool.

Local Abbreviation toolMap :=
  (toolMap RawInput ParsedInput ToolResult
     searchMemoryDefinition createNoteDefinition).
Local Abbreviation executeTool :=
  (executeTool RawInput ParsedInput ToolResult
     searchMemoryDefinition createNoteDefinition retryable).
Local Abbreviation registered :=
  (registered RawInput ParsedInput ToolResult
     searchMemoryDefinition createNoteDefinition).
Local Abbreviation fails_immediately := (fails_immediately ToolResult).
Local Abbreviation schema := (schema RawInput ParsedInput ToolResult).
Local Abbreviation name := (name RawInput ParsedInput ToolResult).

Lemma toolMap_total parsed : exists definition, toolMap parsed = Some definition.
Proof. destruct parsed; cbn; eauto. Qed.

(** Handler invocations happen only after the input has passed the
    tool's schema. *)
Lemma handler_invoked_only_when_valid toolName rawInput context overrides t k :
  In (HandlerInvoked t k) (fst (executeTool toolName rawInput context overrides)) ->
  exists definition parsedInput,
    registered toolName definition /\ schema definition rawInput = inr parsedInput.
Proof.
  unfold executeTool, registered.
  destruct (ToolNameSchema_safeParse toolName) as [parsed|] eqn:Hn; [|intros []].
  destruct (toolMap parsed) as [definition|] eqn:Hm; [|intros []].
  destruct (schema definition rawInput) as [err|parsedInput] eqn:Hs; [intros []|].
  intros _. exists definition, parsedInput. eauto.
Qed.

(** C7.  A name that is not a registered tool fails with InvalidRequest; a
    registered name whose raw input the tool's schema rejects fails with
    SchemaValidationError carrying the validator's diagnostic (and the
    tool name); in both cases the error is surfaced at once: no handler
    invocation, no retry, no log entry. *)
Theorem executeTool_rejects_before_handler :
  (forall toolName rawInput context overrides,
     (forall definition, ~ registered toolName definition) ->
     fails_immediately (executeTool toolName rawInput context overrides)
       MCP_INVALID_REQUEST None) /\
  (forall toolName rawInput context overrides definition err,
     registered toolName definition ->
     schema definition rawInput = inl err ->
     fails_immediately (executeTool toolName rawInput context overrides)
       SCHEMA_VALIDATION_ERROR
       (Some (mkMetadata (diagnostic_of err) (name definition)))).
Proof.
  split.
  - intros toolName rawInput context overrides Hnot.
    unfold fails_immediately, executeTool.
    destruct (ToolNameSchema_safeParse toolName) as [parsed|] eqn:Hn; [|eauto].
    destruct (toolMap_total parsed) as [definition Hm].
    exfalso. apply (Hnot definition). exists parsed. auto.
  - intros toolName rawInput context overrides definition err
      (parsed & Hn & Hm) Hs.
    unfold fails_immediately, executeTool. rewrite Hn, Hm, Hs. eauto.
Qed.

End RegistryFacts.

(** An unknown name, and an empty input for [search_memory]. *)
Lemma executeTool_rejects_before_handler_witness :
  fails_immediately string (sample_executeTool "invalid_tool" "q" sample_context None)
    MCP_INVALID_REQUEST None /\
  fails_immediately string (sample_executeTool "search_memory" "" sample_context None)
    SCHEMA_VALIDATION_ERROR (Some (mkMetadata "Required" "search_memory")).
Proof.
  split.
  - apply (proj1 (executeTool_rejects_before_handler string string string
             (sample_tool "search_memory") (sample_tool "create_note")
             (fun _ => true))).
    intros definition (parsed & Hn & _). discriminate Hn.
  - apply (proj2 (executeTool_rejects_before_handler string string string
             (sample_tool "search_memory") (sample_tool "create_note")
             (fun _ => true))
             "search_memory" "" sample_context None
             (sample_tool "search_memory") (ThrownError "Required")).
    + exists search_memory. split; reflexivity.
    + reflexivity.
Defined.

(** The flaky handler ran, so its input had been accepted. *)
Lemma handler_invoked_only_when_valid_witness :
  exists definition parsedInput,
    registered string string string
      (flaky_tool "search_memory") (flaky_tool "create_note")
      "search_memory" definition /\
    schema string string string definition "q" = inr parsedInput.
Proof.
  apply (handler_invoked_only_when_valid string string string
           (flaky_tool "search_memory") (flaky_tool "create_note") (fun _ => true)
           "search_memory" "q"
           (mkContext "/vault" "dev" (Some (mkPartial (Some 1000) (Some 2)))) None
           "search_memory" 1).
  vm_compute. auto.
Defined.

Example retry_twice_then_success :
  flaky_executeTool "search_memory" "q"
    (mkContext "/vault" "dev" (Some (mkPartial (Some 1000) (Some 2)))) None
  = ([Log debug "tool.start" "search_memory";
      HandlerInvoked "search_memory" 1; Log warn "tool.retry" "search_memory";
      HandlerInvoked "search_memory" 2; Log warn "tool.retry" "search_memory";
      HandlerInvoked "search_memory" 3;
      Log info "tool.success" "search_memory"],
     inr "q").
Proof. vm_compute. reflexivity. Qed.

Example one_retry_is_not_enough :
  flaky_executeTool "search_memory" "q"
    (mkContext "/vault" "dev" (Some (mkPartial (Some 1000) (Some 1)))) None
  = ([Log debug "tool.start" "search_memory";
      HandlerInvoked "search_memory" 1; Log warn "tool.retry" "search_memory";
      HandlerInvoked "search_memory" 2;
      Log error "tool.failure" "search_memory"],
     inl (ThrownError "transient")).
Proof. vm_compute. reflexivity. Qed.

End Tools.

(** ** Numbers: IEEE 754 double precision (binary64) *)

Module Double.

Import SpecFloat.

(** IEEE 754 binary64, the numbers of JavaScript. *)
Definition prec : Z := 53.
Definition emax : Z := 1024.

Definition double : Type := spec_float.

Definition NaN : double := S754_nan.

Definition add : double -> double -> double := SFadd prec emax.
Definition sub : double -> double -> double := SFsub prec emax.
Definition mul : double -> double -> double := SFmul prec emax.
Definition div : double -> double -> double := SFdiv prec emax.

(** The double nearest to an integer. *)
Definition of_Z (z : Z) : double := binary_normalize prec emax z 0 false.

(** The decimal literal with the value [a / b]: the double nearest to
    the quotient. *)
Definition ratio (a b : Z) : double := div (of_Z a) (of_Z b).

(** [x === y] on numbers. *)
Definition strict_eq (x y : double) : bool := SFeqb x y.

(** [x < y] *)
Definition ltb (x y : double) : bool := SFltb x y.

(** [x > 0] *)
Definition is_positive (x : double) : bool := SFltb (S754_zero false) x.

(** [Math.min(x, y)]: NaN when an argument is NaN, and -0 is below +0. *)
Definition min (x y : double) : double :=
  match SFcompare x y with
  | None => NaN
  | Some Lt => x
  | Some Gt => y
  | Some Eq =>
      match x, y with
      | S754_zero sx, S754_zero sy => S754_zero (sx || sy)
      | _, _ => x
      end
  end.

(** A double in the canonical representation of binary64 (a mantissa of
    53 binary digits, or fewer at the smallest exponent), which is the one
    that the operations return and that the comparisons read. *)
Definition canonical (x : double) : Prop := valid_binary prec emax x = true.

(** A number: a double that is not NaN. *)
Definition is_number (x : double) : Prop := x <> NaN /\ canonical x.

(** A mantissa and an exponent that rounding can take: the exponent is
    not above the one of the format for that many digits. *)
Definition roundable (m e : Z) : Prop :=
  0 <= m /\ e <= fexp prec emax (Zdigits2 m + e).

(** The exponent is the one of the format, unless the mantissa is 0. *)
Definition settled (m e : Z) : Prop :=
  roundable m e /\ (0 < m -> fexp prec emax (Zdigits2 m + e) = e).

(** The place of a number on the line: the infinities at the ends, the
    zeros in the middle, and the others by sign, exponent and mantissa. *)
Definition rank (x : double) : Z :=
  match x with
  | S754_nan | S754_zero _ => 0
  | S754_infinity s => if s then -2 else 2
  | S754_finite s _ _ => if s then -1 else 1
  end.

Definition exponent (x : double) : Z :=
  match x with
  | S754_finite s _ e => if s then - e else e
  | _ => 0
  end.

Definition mantissa (x : double) : Z :=
  match x with
  | S754_finite s m _ => if s then Zneg m else Zpos m
  | _ => 0
  end.

(** [x] lies below [y] on the line. *)
Definition below (x y : double) : Prop :=
  rank x < rank y \/
  (rank x = rank y /\
   (exponent x < exponent y \/ (exponent x = exponent y /\ mantissa x < mantissa y))).

(** [x] and [y] are the same point of the line. *)
Definition level (x y : double) : Prop :=
  rank x = rank y /\ exponent x = exponent y /\ mantissa x = mantissa y.

(* ---------- facts ---------- *)

Lemma emin_value : emin prec emax = -1074.
Proof. reflexivity. Qed.

Lemma fexp_value k : fexp prec emax k = Z.max (k - 53) (-1074).
Proof. reflexivity. Qed.

Lemma digits2_pos_bounds m :
  2 ^ (Zpos (digits2_pos m) - 1) <= Zpos m < 2 ^ Zpos (digits2_pos m).
Proof.
  induction m as [p IH|p IH|]; cbn [digits2_pos]; [| |by vm_compute].
  - rewrite Pos2Z.inj_succ. change (Zpos p~1) with (2 * Zpos p + 1).
    pose proof (Z.pow_succ_r 2 (Zpos (digits2_pos p) - 1) ltac:(lia)) as H1.
    pose proof (Z.pow_succ_r 2 (Zpos (digits2_pos p)) ltac:(lia)) as H2.
    replace (Z.succ (Zpos (digits2_pos p) - 1))
      with (Z.succ (Zpos (digits2_pos p)) - 1) in H1 by lia.
    lia.
  - rewrite Pos2Z.inj_succ. change (Zpos p~0) with (2 * Zpos p).
    pose proof (Z.pow_succ_r 2 (Zpos (digits2_pos p) - 1) ltac:(lia)) as H1.
    pose proof (Z.pow_succ_r 2 (Zpos (digits2_pos p)) ltac:(lia)) as H2.
    replace (Z.succ (Zpos (digits2_pos p) - 1))
      with (Z.succ (Zpos (digits2_pos p)) - 1) in H1 by lia.
    lia.
Qed.

Lemma shr_1_m mrs : 0 <= shr_m mrs -> shr_m (shr_1 mrs) = shr_m mrs / 2.
Proof.
  destruct mrs as [m r s]. cbn [shr_m shr_1]. intros Hm.
  destruct m as [|[p|p|]|p]; cbn [shr_m]; try reflexivity; try lia.
  - change (Zpos p~1) with (2 * Zpos p + 1).
    apply (Z.div_unique _ 2 _ 1); lia.
  - change (Zpos p~0) with (2 * Zpos p).
    apply (Z.div_unique _ 2 _ 0); lia.
Qed.

Lemma iter_shr_1_m p : forall mrs,
  0 <= shr_m mrs ->
  shr_m (SpecFloat.iter_pos shr_1 p mrs) = shr_m mrs / 2 ^ Zpos p.
Proof.
  induction p as [p IH|p IH|]; intros mrs Hm; cbn [SpecFloat.iter_pos].
  - assert (0 <= shr_m (shr_1 mrs)) as H1.
    { rewrite shr_1_m by done. apply Z.div_pos; lia. }
    assert (0 <= shr_m (SpecFloat.iter_pos shr_1 p (shr_1 mrs))) as H2.
    { rewrite IH by done. apply Z.div_pos; [done|]. apply Z.pow_pos_nonneg; lia. }
    rewrite IH, IH, shr_1_m by done.
    rewrite !Z.div_div by (try apply Z.pow_pos_nonneg; lia).
    f_equal. replace (Zpos p~1) with (Zpos p + Zpos p + 1) by lia.
    rewrite !Z.pow_add_r, Z.pow_1_r by lia. lia.
  - assert (0 <= shr_m (SpecFloat.iter_pos shr_1 p mrs)) as H2.
    { rewrite IH by done. apply Z.div_pos; [done|]. apply Z.pow_pos_nonneg; lia. }
    rewrite IH, IH by done.
    rewrite !Z.div_div by (try apply Z.pow_pos_nonneg; lia).
    f_equal. replace (Zpos p~0) with (Zpos p + Zpos p) by lia.
    rewrite Z.pow_add_r by lia. lia.
  - rewrite shr_1_m by done. reflexivity.
Qed.

Lemma shr_record_of_loc_m m l : shr_m (shr_record_of_loc m l) = m.
Proof. by destruct l as [|[]]. Qed.

(** Rounding does not lose a number whose exponent is in range: the
    mantissa stays positive. *)
Lemma shr_fexp_positive m e l :
  0 < m -> -1074 <= e ->
  0 < shr_m (shr_fexp prec emax m e l).1 /\ -1074 <= (shr_fexp prec emax m e l).2.
Proof.
  intros Hm He. unfold shr_fexp, shr. rewrite fexp_value.
  destruct m as [|p|p]; [lia| |lia]. cbn [Zdigits2].
  pose proof (digits2_pos_bounds p) as [Hlo _].
  assert (1 <= Zpos (digits2_pos p)) as Hd by lia.
  set (d := Zpos (digits2_pos p)) in *.
  destruct (Z.max (d + e - 53) (-1074) - e) as [|n|n] eqn:En; cbn [fst snd];
    rewrite ?shr_record_of_loc_m; try (split; lia).
  rewrite iter_shr_1_m by (rewrite shr_record_of_loc_m; lia).
  rewrite shr_record_of_loc_m. split; [|lia].
  apply Z.div_str_pos. split; [apply Z.pow_pos_nonneg; lia|].
  etrans; [|exact Hlo]. apply Z.pow_le_mono_r; lia.
Qed.

Lemma round_nearest_even_ge m l : m <= round_nearest_even m l.
Proof. destruct l as [|[]]; cbn; try lia. destruct (Z.even m); lia. Qed.

Lemma binary_round_aux_sign sx m e l :
  0 < m -> -1074 <= e ->
  match binary_round_aux prec emax sx m e l with
  | S754_finite s _ _ | S754_infinity s => s = sx
  | _ => False
  end.
Proof.
  intros Hm He. unfold binary_round_aux.
  pose proof (shr_fexp_positive m e l Hm He) as [H1 H2].
  destruct (shr_fexp prec emax m e l) as [mrs' e']. cbn [fst snd] in H1, H2.
  pose proof (round_nearest_even_ge (shr_m mrs') (loc_of_shr_record mrs')) as Hr.
  pose proof (shr_fexp_positive
                (round_nearest_even (shr_m mrs') (loc_of_shr_record mrs')) e' loc_Exact
                ltac:(lia) H2) as [H3 _].
  destruct (shr_fexp prec emax _ e' loc_Exact) as [mrs'' e'']. cbn [fst] in H3.
  destruct (shr_m mrs''); [lia| |lia].
  by destruct (e'' <=? emax - prec).
Qed.

Lemma binary_round_sign sx mx ex :
  -1074 <= ex ->
  match binary_round prec emax sx mx ex with
  | S754_finite s _ _ | S754_infinity s => s = sx
  | _ => False
  end.
Proof.
  intros He. unfold binary_round, shl_align. rewrite fexp_value.
  destruct (Z.max (Zpos (digits2_pos mx) + ex - 53) (-1074) - ex) eqn:E;
    apply binary_round_aux_sign; lia.
Qed.

(** The double nearest to [z * 2 ^ e], for an integer that is not 0 and
    an exponent in range, has the sign of [z]: it is not rounded to 0. *)
Lemma binary_normalize_sign z e :
  z <> 0 -> -1074 <= e ->
  match binary_normalize prec emax z e false with
  | S754_finite s _ _ | S754_infinity s => s = (z <? 0)
  | _ => False
  end.
Proof.
  intros Hz He. destruct z as [|p|p]; [done|..]; cbn [binary_normalize];
    by apply binary_round_sign.
Qed.

Lemma shl_align_value mx ex ez :
  ez <= ex -> Zpos (shl_align mx ex ez).1 = Zpos mx * 2 ^ (ex - ez).
Proof.
  intros He. unfold shl_align.
  destruct (ez - ex) as [|d|d] eqn:E; cbn [fst].
  - replace (ex - ez) with 0 by lia. lia.
  - lia.
  - replace (ex - ez) with (Zpos d) by lia.
    change (Pos.iter xO mx d) with (shift_pos d mx).
    rewrite shift_pos_correct, Z.mul_comm. reflexivity.
Qed.

Lemma valid_finite s m e :
  valid_binary prec emax (S754_finite s m e) = true ->
  -1074 <= e <= 971 /\ Zpos (digits2_pos m) <= 53 /\
  (Zpos (digits2_pos m) = 53 \/ e = -1074).
Proof.
  cbn [valid_binary]. unfold bounded, canonical_mantissa. rewrite fexp_value.
  intros [H1 H2]%andb_true_iff. apply Z.eqb_eq in H1. apply Z.leb_le in H2.
  change (emax - prec) with 971 in H2. lia.
Qed.

(** Two valid mantissas brought to the smaller exponent compare as the
    exponents do, and as the mantissas for equal exponents. *)
Lemma aligned_compare (s s' : bool) mx ex my ey :
  valid_binary prec emax (S754_finite s mx ex) = true ->
  valid_binary prec emax (S754_finite s' my ey) = true ->
  match ex ?= ey with
  | Lt => Zpos (shl_align mx ex (Z.min ex ey)).1 < Zpos (shl_align my ey (Z.min ex ey)).1
  | Gt => Zpos (shl_align my ey (Z.min ex ey)).1 < Zpos (shl_align mx ex (Z.min ex ey)).1
  | Eq => Zpos (shl_align mx ex (Z.min ex ey)).1 = Zpos mx /\
          Zpos (shl_align my ey (Z.min ex ey)).1 = Zpos my
  end.
Proof.
  intros (Hex & Hdx & Hnx)%valid_finite (Hey & Hdy & Hny)%valid_finite.
  rewrite !shl_align_value by lia.
  pose proof (digits2_pos_bounds mx) as [Hx1 Hx2].
  pose proof (digits2_pos_bounds my) as [Hy1 Hy2].
  assert (forall m, Zpos (digits2_pos m) <= 53 -> 2 ^ Zpos (digits2_pos m) <= 2 ^ 53)
    as Hup by (intros; apply Z.pow_le_mono_r; lia).
  assert (forall m, Zpos (digits2_pos m) = 53 -> 2 ^ (Zpos (digits2_pos m) - 1) = 2 ^ 52)
    as Hnorm by (by intros m ->).
  assert (forall k, 0 < k -> 2 <= 2 ^ k) as Hpow.
  { intros k Hk. change 2 with (2 ^ 1) at 1. apply Z.pow_le_mono_r; lia. }
  change (2 ^ 53) with 9007199254740992 in Hup.
  change (2 ^ 52) with 4503599627370496 in Hnorm.
  specialize (Hup mx Hdx) as Hux. specialize (Hup my Hdy) as Huy.
  destruct (Z.compare_spec ex ey) as [->|Hlt|Hgt].
  - rewrite Z.min_id, Z.sub_diag, !Z.mul_1_r. done.
  - rewrite Z.min_l, Z.sub_diag, Z.mul_1_r by lia.
    destruct Hny as [Hny|]; [|lia]. specialize (Hnorm my Hny).
    specialize (Hpow (ey - ex) ltac:(lia)). nia.
  - rewrite Z.min_r, Z.sub_diag, Z.mul_1_r by lia.
    destruct Hnx as [Hnx|]; [|lia]. specialize (Hnorm mx Hnx).
    specialize (Hpow (ex - ey) ltac:(lia)). nia.
Qed.

Lemma is_positive_sign x :
  match x with
  | S754_finite s _ _ | S754_infinity s => is_positive x = negb s
  | _ => is_positive x = false
  end.
Proof. by destruct x as [[]|[]| |[] ? ?]. Qed.

(** The comparisons of numbers read on the line. *)
Lemma compare_line x y :
  x <> NaN -> y <> NaN ->
  match SFcompare x y with
  | Some Lt => below x y
  | Some Gt => below y x
  | Some Eq => level x y
  | None => False
  end.
Proof.
  intros Hx Hy. unfold below, level.
  destruct x as [sx|sx| |sx mx ex], y as [sy|sy| |sy my ey]; try done;
    try (destruct sx; cbn; lia); try (destruct sy; cbn; lia);
    try (destruct sx, sy; cbn; lia).
  destruct sx, sy; cbn [SFcompare rank exponent mantissa]; try lia;
    change (Pos.compare_cont Eq mx my) with (mx ?= my)%positive;
    destruct (Z.compare_spec ex ey); try lia;
    destruct (Pos.compare_spec mx my); cbn [CompOpp]; lia.
Qed.

Lemma line_total x y : below x y \/ level x y \/ below y x.
Proof. unfold below, level. lia. Qed.

Lemma level_sym x y : level x y -> level y x.
Proof. unfold level. lia. Qed.

Lemma below_irrefl x : ~ below x x.
Proof. unfold below. lia. Qed.

Lemma below_level x y : below x y -> level x y -> False.
Proof. unfold below, level. lia. Qed.

Lemma below_asym x y : below x y -> below y x -> False.
Proof. unfold below. lia. Qed.

Lemma ltb_below x y : x <> NaN -> y <> NaN -> ltb x y = true <-> below x y.
Proof.
  intros Hx Hy. pose proof (compare_line x y Hx Hy) as H. unfold ltb, SFltb.
  pose proof (below_asym x y). pose proof (below_level x y).
  destruct (SFcompare x y) as [[]|]; split; (done || tauto).
Qed.

Lemma strict_eq_level x y :
  x <> NaN -> y <> NaN -> strict_eq x y = true <-> level x y.
Proof.
  intros Hx Hy. pose proof (compare_line x y Hx Hy) as H. unfold strict_eq, SFeqb.
  pose proof (below_level x y).
  assert (below y x -> level x y -> False) by (unfold below, level; lia).
  destruct (SFcompare x y) as [[]|]; split; (done || tauto).
Qed.

(** The sign of a difference of two numbers that differ: [y - x] is
    positive exactly when [x] is below [y]; it is neither rounded to 0
    nor NaN. *)
Lemma sub_positive x y :
  is_number x -> is_number y -> strict_eq y x = false ->
  is_positive (sub y x) = true <-> below x y.
Proof.
  intros [Hx Vx] [Hy Vy] Hne.
  pose proof (compare_line y x Hy Hx) as Hc.
  pose proof (below_asym x y) as Hasym.
  unfold strict_eq, SFeqb in Hne.
  assert (Hgoal : (SFcompare y x = Some Gt -> is_positive (sub y x) = true) /\
                  (SFcompare y x = Some Lt -> is_positive (sub y x) = false)).
  2:{ destruct Hgoal as [G1 G2].
      destruct (SFcompare y x) as [[]|]; try done.
      - rewrite G2 by done. split; [done | tauto].
      - rewrite G1 by done. tauto. }
  clear Hc Hasym Hne.
  destruct y as [sy|sy| |sy my ey], x as [sx|sx| |sx mx ex]; try done;
    try (destruct sy, sx; done); try (destruct sx; done); try (destruct sy; done).
  unfold sub. cbn [SFsub].
  pose proof (aligned_compare sy sx my ey mx ex Vy Vx) as Ha.
  apply valid_finite in Vy as (Hey & _), Vx as (Hex & _).
  set (Y := Zpos (shl_align my ey (Z.min ey ex)).1) in *.
  set (X := Zpos (shl_align mx ex (Z.min ey ex)).1) in *.
  assert (0 < X /\ 0 < Y) as [HX HY] by (unfold X, Y; lia).
  assert (Hsign : forall d, d <> 0 ->
            is_positive (binary_normalize prec emax d (Z.min ey ex) false)
            = (0 <? d)).
  { intros d Hd. pose proof (binary_normalize_sign d (Z.min ey ex) Hd ltac:(lia)) as Hs.
    pose proof (is_positive_sign (binary_normalize prec emax d (Z.min ey ex) false)) as Hp.
    destruct (binary_normalize prec emax d (Z.min ey ex) false); try done;
      rewrite Hp, Hs; destruct (Z.ltb_spec d 0), (Z.ltb_spec 0 d); (done || lia). }
  destruct sy, sx; cbn [SFcompare cond_Zopp];
    change (Pos.compare_cont Eq my mx) with (my ?= mx)%positive;
    destruct (Z.compare_spec ey ex) as [E|E|E]; cbn [CompOpp];
    try (destruct (Pos.compare_spec my mx) as [E'|E'|E']; cbn [CompOpp]);
    (split; intros Hcmp; [try discriminate | try discriminate]);
    try (rewrite Hsign by lia; destruct (Z.ltb_spec 0 (- Y - - X));
         destruct (Z.ltb_spec 0 (- Y - X)); destruct (Z.ltb_spec 0 (Y - - X));
         destruct (Z.ltb_spec 0 (Y - X)); (done || lia)).
Qed.

Lemma is_positive_of_Z k : is_positive (of_Z k) = (0 <? k).
Proof.
  unfold of_Z. destruct (decide (k = 0)) as [->|Hk]; [reflexivity|].
  pose proof (binary_normalize_sign k 0 Hk ltac:(lia)) as Hs.
  pose proof (is_positive_sign (binary_normalize prec emax k 0 false)) as Hp.
  destruct (binary_normalize prec emax k 0 false); try done;
    rewrite Hp, Hs; destruct (Z.ltb_spec k 0), (Z.ltb_spec 0 k); (done || lia).
Qed.

Lemma mul_comm x y : mul x y = mul y x.
Proof.
  unfold mul. destruct x as [sx|sx| |sx mx ex], y as [sy|sy| |sy my ey];
    cbn [SFmul]; try reflexivity; try (by rewrite xorb_comm).
  by rewrite xorb_comm, Pos.mul_comm, Z.add_comm.
Qed.

(* ---------- facts: the operations return canonical doubles ---------- *)

Lemma Zdigits2_bounds m :
  0 < m -> 2 ^ (Zdigits2 m - 1) <= m < 2 ^ Zdigits2 m.
Proof. destruct m as [|p|p]; [lia| |lia]. intros _. apply digits2_pos_bounds. Qed.

Lemma Zdigits2_nonneg m : 0 <= Zdigits2 m.
Proof. destruct m; cbn; lia. Qed.

Lemma Zdigits2_positive m : 0 < m -> 0 < Zdigits2 m.
Proof. destruct m; cbn; lia. Qed.

(** The number of binary digits is the one exponent [d] with
    [2 ^ (d - 1) <= m < 2 ^ d]. *)
Lemma Zdigits2_unique m d :
  0 < m -> 2 ^ (d - 1) <= m < 2 ^ d -> Zdigits2 m = d.
Proof.
  intros Hm [Hlo Hhi]. pose proof (Zdigits2_bounds m Hm) as [Blo Bhi].
  pose proof (Zdigits2_positive m Hm) as Hpos.
  assert (0 < d) as Hd.
  { destruct (Z.lt_ge_cases 0 d) as [|Hle]; [done|].
    rewrite (Z.pow_neg_r 2 d) in Hhi by
      (destruct (Z.eq_dec d 0) as [->|]; [cbn in Hhi; lia | lia]). lia. }
  destruct (Z.lt_trichotomy (Zdigits2 m) d) as [Hlt|[Heq|Hgt]]; [|done|].
  - assert (2 ^ Zdigits2 m <= 2 ^ (d - 1)) by (apply Z.pow_le_mono_r; lia). lia.
  - assert (2 ^ d <= 2 ^ (Zdigits2 m - 1)) by (apply Z.pow_le_mono_r; lia). lia.
Qed.

Lemma Zdigits2_mono a b : 0 <= a <= b -> Zdigits2 a <= Zdigits2 b.
Proof.
  intros [Ha Hab]. destruct (Z.eq_dec a 0) as [->|Hne]; [apply Zdigits2_nonneg|].
  pose proof (Zdigits2_bounds a ltac:(lia)) as [Alo _].
  pose proof (Zdigits2_bounds b ltac:(lia)) as [_ Bhi].
  destruct (Z.le_gt_cases (Zdigits2 a) (Zdigits2 b)) as [|Hgt]; [done|].
  assert (2 ^ Zdigits2 b <= 2 ^ (Zdigits2 a - 1)) by (apply Z.pow_le_mono_r;
    pose proof (Zdigits2_nonneg b); lia).
  lia.
Qed.

(** At least [k + 1] digits from [2 ^ k] on. *)
Lemma Zdigits2_lower m k : 0 <= k -> 2 ^ k <= m -> k + 1 <= Zdigits2 m.
Proof.
  intros Hk Hm. assert (0 < m) as Hpos.
  { pose proof (Z.pow_pos_nonneg 2 k ltac:(lia) Hk). lia. }
  pose proof (Zdigits2_bounds m Hpos) as [_ Bhi].
  destruct (Z.le_gt_cases (k + 1) (Zdigits2 m)) as [|Hgt]; [done|].
  assert (2 ^ Zdigits2 m <= 2 ^ k) by (apply Z.pow_le_mono_r; lia). lia.
Qed.

Lemma Zdigits2_shift m k : 0 < m -> 0 <= k -> Zdigits2 (m * 2 ^ k) = Zdigits2 m + k.
Proof.
  intros Hm Hk. pose proof (Zdigits2_bounds m Hm) as [Blo Bhi].
  pose proof (Zdigits2_positive m Hm) as Hd.
  pose proof (Z.pow_pos_nonneg 2 k ltac:(lia) Hk) as Hp.
  apply Zdigits2_unique; [nia|].
  replace (Zdigits2 m + k - 1) with (Zdigits2 m - 1 + k) by lia.
  rewrite !Z.pow_add_r by lia. nia.
Qed.

Lemma Zdigits2_div m p :
  0 < m / 2 ^ Zpos p -> Zdigits2 (m / 2 ^ Zpos p) = Zdigits2 m - Zpos p.
Proof.
  intros Hq. pose proof (Z.pow_pos_nonneg 2 (Zpos p) ltac:(lia) ltac:(lia)) as Hp.
  assert (0 < m) as Hm.
  { destruct (Z.lt_ge_cases 0 m) as [|Hle]; [done|].
    destruct (Z.eq_dec m 0) as [->|]; [by rewrite Z.div_0_l in Hq by lia|].
    pose proof (Z.div_lt_upper_bound m (2 ^ Zpos p) 0 Hp ltac:(lia)). lia. }
  pose proof (Zdigits2_bounds m Hm) as [Blo Bhi].
  assert (Zpos p < Zdigits2 m) as Hlt.
  { destruct (Z.lt_ge_cases (Zpos p) (Zdigits2 m)) as [|Hge]; [done|].
    assert (2 ^ Zdigits2 m <= 2 ^ Zpos p)
      by (apply Z.pow_le_mono_r; pose proof (Zdigits2_nonneg m); lia).
    rewrite Z.div_small in Hq by lia. lia. }
  apply Zdigits2_unique; [done|]. split.
  - apply Z.div_le_lower_bound; [done|].
    rewrite <- Z.pow_add_r by lia.
    by replace (Zpos p + (Zdigits2 m - Zpos p - 1)) with (Zdigits2 m - 1) by lia.
  - apply Z.div_lt_upper_bound; [done|].
    rewrite <- Z.pow_add_r by lia.
    by replace (Zpos p + (Zdigits2 m - Zpos p)) with (Zdigits2 m) by lia.
Qed.

Lemma shr_fexp_settled m e l :
  roundable m e ->
  settled (shr_m (shr_fexp prec emax m e l).1) (shr_fexp prec emax m e l).2.
Proof.
  intros [Hm He]. unfold settled, roundable, shr_fexp, shr in *.
  rewrite !fexp_value in *.
  destruct (Z.max (Zdigits2 m + e - 53) (-1074) - e) as [|p|p] eqn:En;
    cbn [fst snd]; rewrite ?shr_record_of_loc_m; [|..|lia].
  - split; [split; [done | lia]|]. intros _. lia.
  - rewrite iter_shr_1_m, shr_record_of_loc_m by (by rewrite shr_record_of_loc_m).
    pose proof (Z.pow_pos_nonneg 2 (Zpos p) ltac:(lia) ltac:(lia)) as Hp.
    assert (0 <= m / 2 ^ Zpos p) as Hq by (by apply Z.div_pos).
    destruct (Z.eq_dec (m / 2 ^ Zpos p) 0) as [E0|Hne].
    + rewrite E0. cbn [Zdigits2].
      assert (Zdigits2 m <= Zpos p) as Hd.
      { destruct (Z.eq_dec m 0) as [->|]; [cbn; lia|].
        destruct (Z.le_gt_cases (Zdigits2 m) (Zpos p)) as [|Hgt]; [done|].
        pose proof (Zdigits2_bounds m ltac:(lia)) as [Blo _].
        assert (2 ^ Zpos p <= 2 ^ (Zdigits2 m - 1)) by (apply Z.pow_le_mono_r; lia).
        pose proof (Z.div_str_pos m (2 ^ Zpos p) ltac:(lia)). lia. }
      split; [split; [lia | lia]|]. lia.
    + rewrite Zdigits2_div by lia.
      split; [split; [done|]|intros _]; rewrite ?fexp_value; lia.
Qed.

Lemma round_nearest_even_le m l : round_nearest_even m l <= m + 1.
Proof. destruct l as [|[]]; cbn; try lia. destruct (Z.even m); lia. Qed.

Lemma fexp_mono a b : a <= b -> fexp prec emax a <= fexp prec emax b.
Proof. rewrite !fexp_value. lia. Qed.

(** Rounding returns a canonical double. *)
Lemma binary_round_aux_canonical sx m e l :
  roundable m e -> canonical (binary_round_aux prec emax sx m e l).
Proof.
  intros Hr. unfold binary_round_aux.
  pose proof (shr_fexp_settled m e l Hr) as [[H1 H2] H3].
  destruct (shr_fexp prec emax m e l) as [mrs' e']. cbn [fst snd] in *.
  set (m2 := round_nearest_even (shr_m mrs') (loc_of_shr_record mrs')).
  assert (shr_m mrs' <= m2) as Hge by apply round_nearest_even_ge.
  assert (roundable m2 e') as Hr2.
  { split; [lia|]. etrans; [exact H2|]. apply fexp_mono.
    pose proof (Zdigits2_mono (shr_m mrs') m2 ltac:(lia)). lia. }
  pose proof (shr_fexp_settled m2 e' loc_Exact Hr2) as [[H4 H5] H6].
  destruct (shr_fexp prec emax m2 e' loc_Exact) as [mrs'' e'']. cbn [fst snd] in *.
  destruct (shr_m mrs'') as [|p|p] eqn:Em; [done| |lia].
  destruct (Z.leb_spec e'' (emax - prec)) as [Hle|Hgt]; [|done].
  unfold canonical. cbn [valid_binary]. unfold bounded, canonical_mantissa.
  cbn [Zdigits2] in H6. rewrite (H6 ltac:(lia)), Z.eqb_refl. cbn [andb].
  by apply Z.leb_le.
Qed.

Lemma binary_round_canonical sx m e : canonical (binary_round prec emax sx m e).
Proof.
  unfold binary_round, shl_align.
  destruct (fexp prec emax (Zpos (digits2_pos m) + e) - e) as [|d|d] eqn:E;
    apply binary_round_aux_canonical; split; try lia;
    change (Zpos (digits2_pos m)) with (Zdigits2 (Zpos m)) in *; try lia.
  change (Pos.iter xO m d) with (shift_pos d m).
  rewrite shift_pos_correct, Z.mul_comm.
  change (Zpower_pos 2 d) with (2 ^ Zpos d).
  rewrite Zdigits2_shift by lia.
  cbn [Zdigits2] in *. rewrite !fexp_value in *. lia.
Qed.

Lemma binary_normalize_canonical z e : canonical (binary_normalize prec emax z e false).
Proof. destruct z; [done|..]; apply binary_round_canonical. Qed.

Lemma of_Z_canonical z : canonical (of_Z z).
Proof. apply binary_normalize_canonical. Qed.

Lemma add_canonical x y : canonical x -> canonical y -> canonical (add x y).
Proof.
  intros Hx Hy. unfold add.
  destruct x as [[]|[]| |sx mx ex], y as [[]|[]| |sy my ey]; try done.
  apply binary_normalize_canonical.
Qed.

Lemma mul_canonical x y : canonical x -> canonical y -> canonical (mul x y).
Proof.
  intros Hx Hy. unfold mul.
  destruct x as [sx|sx| |sx mx ex], y as [sy|sy| |sy my ey]; try done.
  cbn [SFmul]. apply binary_round_aux_canonical. split; [lia|].
  apply valid_finite in Hx as (Hex & Hdx & Hnx), Hy as (Hey & Hdy & Hny).
  pose proof (digits2_pos_bounds mx) as [Xlo _].
  pose proof (digits2_pos_bounds my) as [Ylo _].
  assert (Zpos (digits2_pos mx) + Zpos (digits2_pos my) - 1
          <= Zdigits2 (Zpos (mx * my))) as Hd.
  { replace (Zpos (digits2_pos mx) + Zpos (digits2_pos my) - 1)
      with ((Zpos (digits2_pos mx) - 1 + (Zpos (digits2_pos my) - 1)) + 1) by lia.
    apply Zdigits2_lower; [lia|].
    rewrite Z.pow_add_r by lia. rewrite Pos2Z.inj_mul.
    pose proof (Z.pow_pos_nonneg 2 (Zpos (digits2_pos mx) - 1) ltac:(lia) ltac:(lia)).
    pose proof (Z.pow_pos_nonneg 2 (Zpos (digits2_pos my) - 1) ltac:(lia) ltac:(lia)).
    nia. }
  rewrite fexp_value. lia.
Qed.

Lemma div_eucl_div a b : (Z.div_eucl a b).1 = a / b.
Proof. reflexivity. Qed.

Lemma div_canonical x y : canonical x -> canonical y -> canonical (div x y).
Proof.
  intros Hx Hy. unfold div.
  destruct x as [sx|sx| |sx mx ex], y as [sy|sy| |sy my ey]; try done.
  cbn [SFdiv]. unfold SFdiv_core_binary. cbn [Zdigits2].
  set (d1 := Zpos (digits2_pos mx)). set (d2 := Zpos (digits2_pos my)).
  set (e' := Z.min (fexp prec emax (d1 + ex - (d2 + ey))) (ex - ey)).
  set (s := ex - ey - e').
  set (m' := match s with Z0 => Zpos mx | Zpos _ => Z.shiftl (Zpos mx) s | Zneg _ => 0 end).
  assert (0 <= s) as Hs by (unfold s, e'; lia).
  assert (m' = Zpos mx * 2 ^ s) as Hm'.
  { unfold m'. destruct s as [|p|p] eqn:Es; [lia| |lia].
    by rewrite Z.shiftl_mul_pow2 by lia. }
  pose proof (div_eucl_div m' (Zpos my)) as Hq.
  destruct (Z.div_eucl m' (Zpos my)) as [q r]. cbn [fst] in Hq. subst q.
  apply binary_round_aux_canonical.
  pose proof (Z.pow_pos_nonneg 2 s ltac:(lia) Hs) as Hp.
  assert (0 <= m' / Zpos my) as Hq by (apply Z.div_pos; lia).
  split; [done|].
  assert (d1 + s - d2 <= Zdigits2 (m' / Zpos my)) as Hd.
  { pose proof (digits2_pos_bounds mx) as [Xlo _].
    pose proof (digits2_pos_bounds my) as [_ Yhi].
    fold d1 in Xlo. fold d2 in Yhi.
    destruct (Z.le_gt_cases d2 (d1 - 1 + s)) as [Hle|Hgt].
    - replace (d1 + s - d2) with ((d1 - 1 + s - d2) + 1) by lia.
      apply Zdigits2_lower; [lia|].
      apply Z.div_le_lower_bound; [lia|].
      assert (2 ^ (d1 - 1 + s) <= m').
      { rewrite Hm', Z.pow_add_r by lia. nia. }
      assert (Zpos my * 2 ^ (d1 - 1 + s - d2) <= 2 ^ d2 * 2 ^ (d1 - 1 + s - d2)).
      { apply Z.mul_le_mono_nonneg_r; [|lia]. apply Z.pow_nonneg. lia. }
      rewrite <- Z.pow_add_r in H0 by lia.
      replace (d2 + (d1 - 1 + s - d2)) with (d1 - 1 + s) in H0 by lia. lia.
    - pose proof (Zdigits2_nonneg (m' / Zpos my)). lia. }
  etrans; [apply Z.le_min_l|]. fold e'. apply fexp_mono. unfold s in Hd. lia.
Qed.

Lemma min_canonical x y : canonical x -> canonical y -> canonical (min x y).
Proof.
  intros Hx Hy. unfold min.
  destruct (SFcompare x y) as [[]|]; try done.
  by destruct x, y.
Qed.

Lemma ratio_canonical a b : canonical (ratio a b).
Proof. apply div_canonical; apply of_Z_canonical. Qed.

End Double.

(** ** Arrays: JavaScript's stable sort *)

Module JsArray.

Section Sort.
Context {A : Type}.

(** [before x y]: [x] may stay in front of [y]. *)
Variable before : A -> A -> bool.

Fixpoint insert_sorted (x : A) (l : list A) : list A :=
  match l with
  | [] => [x]
  | y :: t => if before x y then x :: y :: t else y :: insert_sorted x t
  end.

(** A stable sort: an element moves behind exactly those later elements
    that must strictly precede it. *)
Definition stable_sort (l : list A) : list A := foldr insert_sorted [] l.

End Sort.

(** [Array.prototype.sort(compare)]: [a] stays in front of [b] unless
    [compare(a, b) > 0].  The engine's sort is stable, and on a comparator
    that is a total preorder every stable sort returns this list. *)
Definition sort {A : Type} (compare : A -> A -> Q) (l : list A) : list A :=
  stable_sort (fun a b => Qle_bool (compare a b) 0) l.

(** [Array.prototype.sort(compare)] with a comparator in double
    precision: [a] stays in front of [b] unless [compare(a, b) > 0]; a
    comparator value NaN counts as 0. *)
Definition sort_double {A : Type} (compare : A -> A -> Double.double)
    (l : list A) : list A :=
  stable_sort (fun a b => negb (Double.is_positive (compare a b))) l.

(** [Array.prototype.slice(0, n)] *)
Definition slice0 {A : Type} (n : nat) (l : list A) : list A := take n l.

(* ---------- facts on the sort ---------- *)

Section SortFacts.
Context {A : Type} (before : A -> A -> bool).

Lemma insert_sorted_Permutation x l : insert_sorted before x l ≡ₚ x :: l.
Proof.
  induction l as [|y t IH]; cbn; [reflexivity|].
  destruct (before x y); [reflexivity|].
  rewrite IH. apply Permutation_swap.
Qed.

Lemma stable_sort_Permutation l : stable_sort before l ≡ₚ l.
Proof.
  induction l as [|x l IH]; cbn; [reflexivity|].
  now rewrite insert_sorted_Permutation, IH.
Qed.

Lemma stable_sort_elem_of x l : x ∈ stable_sort before l <-> x ∈ l.
Proof. now rewrite stable_sort_Permutation. Qed.

Lemma stable_sort_length l : length (stable_sort before l) = length l.
Proof. now rewrite stable_sort_Permutation. Qed.

Lemma insert_sorted_app x l1 l2 :
  Forall (fun y => before x y = true) l2 ->
  insert_sorted before x (l1 ++ l2)%list = (insert_sorted before x l1 ++ l2)%list.
Proof.
  intros H. induction l1 as [|z l1 IH]; cbn.
  - destruct H as [|y t Hy _]; cbn; [reflexivity|]. now rewrite Hy.
  - destruct (before x z); [reflexivity|]. now rewrite IH.
Qed.

(** Elements that may all stay in front of a suffix are sorted apart
    from it. *)
Lemma stable_sort_app l1 l2 :
  (forall x y, x ∈ l1 -> y ∈ l2 -> before x y = true) ->
  stable_sort before (l1 ++ l2)%list
  = (stable_sort before l1 ++ stable_sort before l2)%list.
Proof.
  intros H. induction l1 as [|x l1 IH]; [reflexivity|].
  change (insert_sorted before x (stable_sort before (l1 ++ l2)%list)
          = (insert_sorted before x (stable_sort before l1)
               ++ stable_sort before l2)%list).
  rewrite IH.
  - apply insert_sorted_app, Forall_forall. intros y Hy.
    apply H; [apply elem_of_cons; by left|].
    exact (proj1 (stable_sort_elem_of y l2) Hy).
  - intros a b Ha Hb. apply H; [|done]. apply elem_of_cons. by right.
Qed.

Hypothesis before_total : forall x y, before x y = false -> before y x = true.
Hypothesis before_trans :
  forall x y z, before x y = true -> before y z = true -> before x z = true.

Lemma insert_sorted_sorted x l :
  StronglySorted (fun a b => before a b = true) l ->
  StronglySorted (fun a b => before a b = true) (insert_sorted before x l).
Proof.
  induction 1 as [|y t Hs IH Hy]; cbn.
  - repeat constructor.
  - destruct (before x y) eqn:E.
    + constructor; [now constructor|].
      constructor; [assumption|].
      eapply Forall_impl; [exact Hy|]. cbn. eauto.
    + constructor; [assumption|].
      apply Forall_forall. intros z Hz.
      rewrite (insert_sorted_Permutation x t) in Hz.
      apply elem_of_cons in Hz as [->|Hz]; [auto|].
      now apply (proj1 (Forall_forall _ _) Hy).
Qed.

Lemma stable_sort_sorted l :
  StronglySorted (fun a b => before a b = true) (stable_sort before l).
Proof.
  induction l as [|x l IH]; cbn; [constructor|].
  now apply insert_sorted_sorted.
Qed.

End SortFacts.

(** The same for an order that is total and transitive on the elements
    that satisfy [P] only. *)
Section SortFactsOn.
Context {A : Type} (before : A -> A -> bool) (P : A -> Prop).

Hypothesis before_total_on :
  forall x y, P x -> P y -> before x y = false -> before y x = true.
Hypothesis before_trans_on :
  forall x y z, P x -> P y -> P z ->
    before x y = true -> before y z = true -> before x z = true.

Lemma insert_sorted_sorted_on x l :
  P x -> Forall P l ->
  StronglySorted (fun a b => before a b = true) l ->
  StronglySorted (fun a b => before a b = true) (insert_sorted before x l).
Proof.
  intros Hx HP Hs. induction Hs as [|y t Hs IH Hy]; cbn.
  - repeat constructor.
  - apply Forall_cons in HP as [Py Pt]. destruct (before x y) eqn:E.
    + constructor; [now constructor|]. constructor; [assumption|].
      apply Forall_forall. intros z Hz.
      apply (before_trans_on x y z); try done.
      * by apply (proj1 (Forall_forall _ _) Pt).
      * by apply (proj1 (Forall_forall _ _) Hy).
    + constructor; [auto|].
      apply Forall_forall. intros z Hz.
      rewrite (insert_sorted_Permutation before x t) in Hz.
      apply elem_of_cons in Hz as [->|Hz]; [auto|].
      by apply (proj1 (Forall_forall _ _) Hy).
Qed.

Lemma stable_sort_sorted_on l :
  Forall P l ->
  StronglySorted (fun a b => before a b = true) (stable_sort before l).
Proof.
  induction l as [|x l IH]; cbn; [constructor|]. intros [Hx Hl]%Forall_cons.
  apply insert_sorted_sorted_on; [done| |auto].
  apply Forall_forall. intros y Hy%stable_sort_elem_of.
  by apply (proj1 (Forall_forall _ _) Hl).
Qed.

End SortFactsOn.

End JsArray.

(** ** index-search: link graph (LinkGraphManager over the SQL store) *)

Module LinkGraph.

(** A row of table [notes] (the columns the graph reads). *)
Record NoteRow := mkNoteRow {
  n_uid : string;
  n_title : string;
  n_category : string;
  n_file_path : string
}.

(** A row of table [links]; the query results ([LinkRelation]) carry the
    same six columns. *)
Record LinkRelation := mkLink {
  sourceUid : string;
  targetUid : string;
  linkType : string;
  strength : Z;
  createdAt : string;
  lastSeenAt : string
}.

Record Database := mkDb {
  notes : list NoteRow;
  links : list LinkRelation
}.

(** [ORDER BY l.strength DESC, l.last_seen_at DESC]: [a] may stay in front
    of [b].  Rows that tie keep the table order (SQLite leaves their order
    open). *)
Definition order_by_strength (a b : LinkRelation) : bool :=
  (strength b <? strength a) ||
  ((strength a =? strength b) && String.leb (lastSeenAt b) (lastSeenAt a)).

(** [FROM links l JOIN notes n ON key(l) = n.uid]: one row per match. *)
Definition join_notes (db : Database) (key : LinkRelation -> string)
    (rows : list LinkRelation) : list LinkRelation :=
  flat_map (fun l => map (fun _ => l)
                       (filter (fun n => n_uid n = key l) (notes db))) rows.

(** [findBacklinks(targetUid, { limit })] *)
Definition findBacklinks (db : Database) (target : string) (limit : nat)
    : list LinkRelation :=
  take limit
    (JsArray.stable_sort order_by_strength
       (filter (fun l => targetUid l = target) (join_notes db sourceUid (links db)))).

(** [findOutboundLinks(sourceUid, limit)] *)
Definition findOutboundLinks (db : Database) (source : string) (limit : nat)
    : list LinkRelation :=
  take limit
    (JsArray.stable_sort order_by_strength
       (filter (fun l => sourceUid l = source) (join_notes db targetUid (links db)))).

Inductive Direction := outgoing | incoming | both.

(** [Array.from(new Set(l))]: first occurrences, in order. *)
Fixpoint dedupe (seen : gset string) (l : list string) : list string :=
  match l with
  | [] => []
  | x :: t =>
      if decide (x ∈ seen) then dedupe seen t
      else x :: dedupe ({[x]} ∪ seen) t
  end.

(** [getConnectedUids(uid, direction)] *)
Definition getConnectedUids (db : Database) (uid : string) (direction : Direction)
    : list string :=
  let out :=
    match direction with
    | outgoing | both => map targetUid (findOutboundLinks db uid 50)
    | incoming => []
    end in
  let inc :=
    match direction with
    | incoming | both => map sourceUid (findBacklinks db uid 50)
    | outgoing => []
    end in
  dedupe ∅ (out ++ inc).

(** [LinkGraphNode]; [nodeInfo] is what [getNodeInfo] returns. *)
Record LinkGraphNode := mkNode {
  id : string;
  title : string;
  category : string;
  filePath : string;
  node_links : list string;
  score : Q;
  depth : nat
}.

(** [getNodeInfo(uid)]: the first row of [notes] with this uid. *)
Definition getNodeInfo (db : Database) (uid : string) : option NoteRow :=
  head (filter (fun n => n_uid n = uid) (notes db)).

Record QueueItem := mkItem {
  q_uid : string;
  currentDepth : nat;
  q_score : Q
}.

(** The loop variables of [findConnectedNotes]: the queue, the visited set
    and the result map (a [Map] keeps insertion order). *)
Record State := mkState {
  queue : list QueueItem;
  visitedNodes : gset string;
  resultNodes : list (string * LinkGraphNode)
}.

(** [Map.prototype.set] *)
Fixpoint map_set (k : string) (v : LinkGraphNode)
    (m : list (string * LinkGraphNode)) : list (string * LinkGraphNode) :=
  match m with
  | [] => [(k, v)]
  | (k', v') :: t =>
      if decide (k' = k) then (k, v) :: t else (k', v') :: map_set k v t
  end.

Section Traversal.

Variable db : Database.
Variable maxDepth : nat.      (* the option [depth] *)
Variable limit : nat.
Variable direction : Direction.

(** The body of [for (const connectedUid of connectedUids)], for the item
    [(uid, currentDepth, score)] taken from the queue. *)
Definition visit (item : QueueItem) (st : State) (connectedUid : string) : State :=
  if decide (connectedUid ∈ visitedNodes st) then st
  else
    let visited' := {[connectedUid]} ∪ visitedNodes st in
    match getNodeInfo db connectedUid with
    | None => mkState (queue st) visited' (resultNodes st)
    | Some nodeInfo =>
        let nodeScore :=
          (q_score item * Qpower (7 # 10) (Z.of_nat (currentDepth item)))%Q in
        let node :=
          mkNode (n_uid nodeInfo) (n_title nodeInfo) (n_category nodeInfo)
                 (n_file_path nodeInfo) [] nodeScore (S (currentDepth item)) in
        let results' := map_set connectedUid node (resultNodes st) in
        if (S (currentDepth item) <? maxDepth)%nat
        then mkState (queue st ++ [mkItem connectedUid (S (currentDepth item)) nodeScore])
                     visited' results'
        else mkState (queue st) visited' results'
    end.

(** The loop condition [queue.length > 0 && resultNodes.size < limit]. *)
Definition running (st : State) : bool :=
  match queue st with
  | [] => false
  | _ :: _ => (length (resultNodes st) <? limit)%nat
  end.

(** One iteration of the [while] loop. *)
Definition step (st : State) : State :=
  match queue st with
  | [] => st
  | item :: rest =>
      let st' := mkState rest (visitedNodes st) (resultNodes st) in
      if (maxDepth <=? currentDepth item)%nat then st'
      else foldl (visit item) st' (getConnectedUids db (q_uid item) direction)
  end.

(** At most [n] iterations of the loop. *)
Fixpoint iterate (n : nat) (st : State) : State :=
  match n with
  | O => st
  | S n' => if running st then iterate n' (step st) else st
  end.

Definition initial (startUid : string) : State :=
  mkState [mkItem startUid 0 1] {[startUid]} [].

(** Every uid the traversal can meet: the start and the ends of the links. *)
Definition universe (startUid : string) : list string :=
  startUid :: flat_map (fun l => [sourceUid l; targetUid l]) (links db).

(** [(b.score || 0) - (a.score || 0)] *)
Definition by_score_desc (a b : LinkGraphNode) : Q := (score b - score a)%Q.

(** The value returned after the loop. *)
Definition finish (st : State) : list LinkGraphNode :=
  JsArray.slice0 limit (JsArray.sort by_score_desc (map snd (resultNodes st))).

End Traversal.

Record ConnectedNotesOptions := mkOptions {
  opt_depth : option nat;
  opt_limit : option nat;
  opt_direction : option Direction
}.

(** [findConnectedNotes(startUid, options)].  The loop runs until its
    condition fails; [S (length (universe ...))] iterations always suffice
    ([findConnectedNotes_terminates]). *)
Definition findConnectedNotes (db : Database) (startUid : string)
    (options : ConnectedNotesOptions) : list LinkGraphNode :=
  let depth := default 2%nat (opt_depth options) in
  let limit := default 100%nat (opt_limit options) in
  let direction := default both (opt_direction options) in
  finish limit
    (iterate db depth limit direction (S (length (universe db startUid)))
       (initial startUid)).

(** The chain of the link-graph tests: a -> b -> c -> d. *)
Definition sample_db : Database :=
  mkDb
    [mkNoteRow "chain-a" "Chain A" "Resources" "/test/chain-a.md";
     mkNoteRow "chain-b" "Chain B" "Resources" "/test/chain-b.md";
     mkNoteRow "chain-c" "Chain C" "Resources" "/test/chain-c.md";
     mkNoteRow "chain-d" "Chain D" "Resources" "/test/chain-d.md"]
    [mkLink "chain-a" "chain-b" "internal" 1 "2023-01-01T00:00:00Z" "2023-01-01T00:00:00Z";
     mkLink "chain-b" "chain-c" "internal" 1 "2023-01-01T00:00:00Z" "2023-01-01T00:00:00Z";
     mkLink "chain-c" "chain-d" "internal" 1 "2023-01-01T00:00:00Z" "2023-01-01T00:00:00Z"].

(* ---------- the invariants of the traversal ---------- *)

(** The score of every node met at a given depth: 1 at the start, and
    [score * 0.7 ** currentDepth] one level further. *)
Fixpoint level_score (c : nat) : Q :=
  match c with
  | O => 1
  | S c' => (level_score c' * Qpower (7 # 10) (Z.of_nat c'))%Q
  end.

(** A queue item carries the score of its depth. *)
Definition item_ok (it : QueueItem) : Prop :=
  q_score it = level_score (currentDepth it).

(** A result carries the score of its depth, and its depth satisfies [P]. *)
Definition results_ok (P : nat -> Prop) (m : list (string * LinkGraphNode)) : Prop :=
  Forall (fun kv => P (depth kv.2) /\ score kv.2 = level_score (depth kv.2)) m.

(** Every key of the result map has been visited. *)
Definition keys_visited (visited : gset string) (m : list (string * LinkGraphNode))
    : Prop :=
  Forall (fun kv => kv.1 ∈ visited) m.

(** The queue holds items of depth [c], then items of depth [c + 1]. *)
Definition two_levels (c : nat) (q : list QueueItem) : Prop :=
  exists q1 q2,
    q = (q1 ++ q2)%list /\
    Forall (fun x => currentDepth x = c) q1 /\
    Forall (fun x => currentDepth x = S c) q2.

(** The breadth-first order of the queue. *)
Definition queue_ordered (q : list QueueItem) : Prop :=
  match q with
  | [] => True
  | item :: rest => two_levels (currentDepth item) rest
  end.

Section Variant.

Variable db : Database.
Variable startUid : string.

(** The uids of the universe that have not been visited, with repeats. *)
Definition unvisited (visited : gset string) : nat :=
  length (filter (fun u => u ∉ visited) (universe db startUid)).

(** The loop's variant: queue length plus unvisited uids. *)
Definition variant (st : State) : nat :=
  (length (queue st) + unvisited (visitedNodes st))%nat.

End Variant.

Section Relation.

Variable d : nat.              (* the smaller depth; the larger is [S d] *)
Variable limit : nat.

(** An item that the shallower run still expands. *)
Definition shallow (x : QueueItem) : Prop := (currentDepth x < d)%nat.

#[global] Instance shallow_dec (x : QueueItem) : Decision (shallow x).
Proof. unfold shallow. apply _. Defined.

(** The two runs while the shallower one is still going: same visited set,
    same results, and the shallower queue is the deeper one without the
    items of depth [d]. *)
Record Sync (c : option nat) (stA stB : State) : Prop := mkSync {
  sync_visited : visitedNodes stA = visitedNodes stB;
  sync_results : resultNodes stA = resultNodes stB;
  sync_queue : queue stA = filter shallow (queue stB);
  sync_order :
    match c with
    | Some c => two_levels c (queue stB)
    | None => queue_ordered (queue stB)
    end;
  sync_items : Forall item_ok (queue stB);
  sync_depth : Forall (fun x => (currentDepth x <= d)%nat) (queue stB);
  sync_keys : keys_visited (visitedNodes stB) (resultNodes stB);
  sync_ok : results_ok (fun n => (n <= d)%nat) (resultNodes stB)
}.

(** The deeper run after the shallower one has stopped with results [RA]:
    it only adds results one level deeper. *)
Inductive TailCore (RA : list (string * LinkGraphNode)) (stB : State) : Prop :=
| mkTail (more : list (string * LinkGraphNode))
    (tail_results : resultNodes stB = (RA ++ more)%list)
    (tail_old : results_ok (fun n => (n <= d)%nat) RA)
    (tail_new : results_ok (fun n => n = S d) more)
    (tail_keys : keys_visited (visitedNodes stB) (resultNodes stB)).

Definition last_level (q : list QueueItem) : Prop :=
  Forall (fun x => currentDepth x = d /\ item_ok x) q.

Definition Tail (RA : list (string * LinkGraphNode)) (stB : State) : Prop :=
  TailCore RA stB /\ (running limit stB = false \/ last_level (queue stB)).

(** The two runs, related at the same iteration count. *)
Definition Related (stA stB : State) : Prop :=
  Sync None stA stB \/
  (running limit stA = false /\ Tail (resultNodes stA) stB).

End Relation.

(* ---------- the queries return rows of the table ---------- *)

Lemma join_notes_elem_of db key rows l :
  l ∈ join_notes db key rows -> l ∈ rows.
Proof.
  unfold join_notes. rewrite !list_elem_of_In, in_flat_map.
  intros (r & Hr & Hl). apply in_map_iff in Hl as (n & <- & _). exact Hr.
Qed.

Lemma take_elem_of {A} (n : nat) (l : list A) x : x ∈ take n l -> x ∈ l.
Proof.
  intros H. rewrite <- (take_drop n l). apply elem_of_app. by left.
Qed.

Lemma findOutboundLinks_elem_of db source limit l :
  l ∈ findOutboundLinks db source limit -> l ∈ links db /\ sourceUid l = source.
Proof.
  unfold findOutboundLinks. intros H%take_elem_of.
  apply JsArray.stable_sort_elem_of, list_elem_of_filter in H as [Hs H].
  split; [by eapply join_notes_elem_of | done].
Qed.

Lemma findBacklinks_elem_of db target limit l :
  l ∈ findBacklinks db target limit -> l ∈ links db /\ targetUid l = target.
Proof.
  unfold findBacklinks. intros H%take_elem_of.
  apply JsArray.stable_sort_elem_of, list_elem_of_filter in H as [Hs H].
  split; [by eapply join_notes_elem_of | done].
Qed.

Lemma findOutboundLinks_length db source limit :
  (length (findOutboundLinks db source limit) <= limit)%nat.
Proof. unfold findOutboundLinks. rewrite length_take. lia. Qed.

Lemma findBacklinks_length db target limit :
  (length (findBacklinks db target limit) <= limit)%nat.
Proof. unfold findBacklinks. rewrite length_take. lia. Qed.

Lemma dedupe_elem_of seen l x : x ∈ dedupe seen l -> x ∈ l.
Proof.
  revert seen. induction l as [|y t IH]; intros seen; cbn; [done|].
  destruct (decide (y ∈ seen)).
  - intros H%IH. apply elem_of_cons. by right.
  - intros [->|H%IH]%elem_of_cons; apply elem_of_cons; [by left | by right].
Qed.

Lemma getConnectedUids_universe db startUid uid direction x :
  x ∈ getConnectedUids db uid direction -> x ∈ universe db startUid.
Proof.
  unfold getConnectedUids, universe. intros H%dedupe_elem_of.
  apply elem_of_cons. right.
  rewrite list_elem_of_In, in_flat_map.
  apply elem_of_app in H as [H|H].
  - assert (exists l, l ∈ links db /\ targetUid l = x) as (l & Hl & <-).
    { destruct direction; try (by apply elem_of_nil in H);
        apply list_elem_of_fmap in H as (l & -> & Hl);
        apply findOutboundLinks_elem_of in Hl as [Hl _]; eauto. }
    exists l. split; [by apply list_elem_of_In|]. cbn. auto.
  - assert (exists l, l ∈ links db /\ sourceUid l = x) as (l & Hl & <-).
    { destruct direction; try (by apply elem_of_nil in H);
        apply list_elem_of_fmap in H as (l & -> & Hl);
        apply findBacklinks_elem_of in Hl as [Hl _]; eauto. }
    exists l. split; [by apply list_elem_of_In|]. cbn. auto.
Qed.

(* ---------- the loop terminates ---------- *)

Section Termination.

Variable db : Database.
Variables maxDepth limit : nat.
Variable direction : Direction.
Variable startUid : string.

Local Abbreviation unvisited := (unvisited db startUid).
Local Abbreviation variant := (variant db startUid).

Lemma unvisited_insert_list (l : list string) (visited : gset string) u :
  u ∉ visited ->
  (length (filter (fun x => x ∉ {[u]} ∪ visited) l)
   <= length (filter (fun x => x ∉ visited) l))%nat /\
  (u ∈ l ->
   (length (filter (fun x => x ∉ {[u]} ∪ visited) l)
    < length (filter (fun x => x ∉ visited) l))%nat).
Proof.
  intros Hu. induction l as [|y t [IH1 IH2]]; [split; [done|]; by intros ?%elem_of_nil|].
  rewrite !filter_cons.
  destruct (decide (y ∉ {[u]} ∪ visited)) as [H1|H1];
  destruct (decide (y ∉ visited)) as [H2|H2]; cbn [length].
  - split; [lia|]. intros [->|Hin]%elem_of_cons; [set_solver|].
    specialize (IH2 Hin). lia.
  - exfalso. apply H2. intros Hy. apply H1. set_solver.
  - split; [lia|]. intros _. lia.
  - split; [lia|]. intros [->|Hin]%elem_of_cons; [done|]. by apply IH2.
Qed.

Lemma unvisited_insert visited u :
  u ∈ universe db startUid -> u ∉ visited ->
  (unvisited ({[u]} ∪ visited) < unvisited visited)%nat.
Proof. intros Hu Hv. by apply unvisited_insert_list. Qed.

Lemma visit_variant item st u :
  u ∈ universe db startUid ->
  (variant (visit db maxDepth item st u) <= variant st)%nat.
Proof.
  intros Hu. unfold visit, variant.
  destruct (decide (u ∈ visitedNodes st)) as [|Hv]; [done|].
  pose proof (unvisited_insert _ _ Hu Hv).
  destruct (getNodeInfo db u); cbn [queue visitedNodes]; [|lia].
  destruct (S (currentDepth item) <? maxDepth)%nat; cbn [queue visitedNodes];
    rewrite ?length_app; cbn [length]; lia.
Qed.

Lemma foldl_visit_variant item us : forall st,
  Forall (fun u => u ∈ universe db startUid) us ->
  (variant (foldl (visit db maxDepth item) st us) <= variant st)%nat.
Proof.
  induction us as [|u us IH]; intros st Hus; cbn; [done|].
  apply Forall_cons in Hus as [Hu Hus].
  etransitivity; [by apply IH|]. by apply visit_variant.
Qed.

Lemma step_variant st :
  running limit st = true ->
  (variant (step db maxDepth direction st) < variant st)%nat.
Proof.
  unfold running, step. destruct st as [[|item rest] visited results];
    cbn [queue visitedNodes resultNodes]; [discriminate|]. intros _.
  destruct (maxDepth <=? currentDepth item)%nat.
  - unfold variant; cbn [queue visitedNodes length]. lia.
  - eapply Nat.le_lt_trans.
    + apply foldl_visit_variant, Forall_forall. intros u.
      apply getConnectedUids_universe.
    + unfold variant; cbn [queue visitedNodes length]. lia.
Qed.

Lemma iterate_stops n : forall st,
  (variant st <= n)%nat ->
  running limit (iterate db maxDepth limit direction n st) = false.
Proof.
  induction n as [|n IH]; intros st Hn; cbn.
  - unfold variant in Hn. unfold running.
    destruct (queue st); [done | cbn in Hn; lia].
  - destruct (running limit st) eqn:Hr; [|done].
    apply IH. pose proof (step_variant st Hr). lia.
Qed.

(** Once the condition fails the loop is over. *)
Lemma iterate_stopped n st :
  running limit st = false -> iterate db maxDepth limit direction n st = st.
Proof. intros H. destruct n; cbn; [done|]. by rewrite H. Qed.

Lemma iterate_S n st :
  iterate db maxDepth limit direction (S n) st =
  iterate db maxDepth limit direction n
    (if running limit st then step db maxDepth direction st else st).
Proof.
  cbn. destruct (running limit st) eqn:Hr; [done|]. by rewrite iterate_stopped.
Qed.

(** The loop of [findConnectedNotes] has left its condition false after
    the iterations the model grants it: the returned value is the one the
    [while] loop ends with. *)
Theorem findConnectedNotes_terminates :
  running limit
    (iterate db maxDepth limit direction (S (length (universe db startUid)))
       (initial startUid)) = false.
Proof.
  apply iterate_stops. unfold variant, initial, unvisited; cbn [queue visitedNodes length].
  pose proof (length_filter (fun u => u ∉ ({[startUid]} : gset string))
                (universe db startUid)).
  lia.
Qed.

End Termination.

(* ---------- depth 0 ---------- *)

Lemma depth_0_empty db startUid limit direction :
  findConnectedNotes db startUid (mkOptions (Some 0%nat) limit direction) = [].
Proof.
  unfold findConnectedNotes. cbn [opt_depth opt_limit opt_direction default].
  set (lim := default 100%nat limit). set (dir := default both direction).
  rewrite iterate_S.
  assert (Hres : forall st, resultNodes st = [] -> finish lim st = []).
  { intros st Hst. unfold finish. rewrite Hst. cbn. apply take_nil. }
  destruct (running lim (initial startUid)) eqn:Hrun.
  - rewrite iterate_stopped; [apply Hres|]; reflexivity.
  - rewrite iterate_stopped; [apply Hres; reflexivity | exact Hrun].
Qed.

(** C4 (as amended).  With depth 0 the traversal returns no node at all,
    whatever the limit and the direction: the start node is only ever in
    the visited set, never in the result. *)
Theorem findConnectedNotes_depth_0 db startUid limit direction :
  findConnectedNotes db startUid (mkOptions (Some 0%nat) limit direction) = [] /\
  forall node,
    node ∉ findConnectedNotes db startUid (mkOptions (Some 0%nat) limit direction).
Proof.
  rewrite depth_0_empty. split; [reflexivity|]. intros node. apply not_elem_of_nil.
Qed.

(** C4, counterexample: chain-a is in the index, and the traversal from it
    with depth 0 does not return it (it returns nothing). *)
Lemma findConnectedNotes_depth_0_not_start :
  is_Some (getNodeInfo sample_db "chain-a") /\
  ~ exists node,
      findConnectedNotes sample_db "chain-a" (mkOptions (Some 0%nat) None None)
      = [node].
Proof.
  split; [vm_compute; eauto|].
  intros [node H]. rewrite depth_0_empty in H. discriminate H.
Qed.

(* ---------- one more level of depth ---------- *)

Lemma pow7_range c : (0 <= Qpower (7 # 10) (Z.of_nat c) <= 1)%Q.
Proof.
  split; [apply Qpower_0_le; discriminate|].
  induction c as [|c IH]; [cbn; discriminate|].
  rewrite Nat2Z.inj_succ. unfold Z.succ.
  rewrite Qpower_plus by (intros H; discriminate H).
  change (Qpower (7 # 10) 1) with (7 # 10).
  pose proof (Qpower_0_le (7 # 10) (Z.of_nat c) ltac:(discriminate)). lra.
Qed.

Lemma level_score_nonneg c : (0 <= level_score c)%Q.
Proof.
  induction c as [|c IH]; cbn [level_score]; [discriminate|].
  apply Qmult_le_0_compat; [exact IH | apply pow7_range].
Qed.

Lemma level_score_S_le c : (level_score (S c) <= level_score c)%Q.
Proof.
  cbn [level_score]. rewrite <- (Qmult_1_r (level_score c)) at 2.
  apply Qmult_le_compat_nonneg.
  - split; [apply level_score_nonneg | apply Qle_refl].
  - apply pow7_range.
Qed.

Lemma level_score_antitone c c' :
  (c <= c')%nat -> (level_score c' <= level_score c)%Q.
Proof.
  induction 1 as [|c' _ IH]; [apply Qle_refl|].
  eapply Qle_trans; [apply level_score_S_le | exact IH].
Qed.

Lemma two_levels_ordered c q : two_levels c q -> queue_ordered q.
Proof.
  intros (q1 & q2 & -> & H1 & H2).
  destruct q1 as [|x q1]; cbn.
  - destruct q2 as [|x q2]; cbn; [done|].
    apply Forall_cons in H2 as [-> H2]. exists q2, []. rewrite app_nil_r.
    repeat split; [done|constructor].
  - apply Forall_cons in H1 as [-> H1]. by exists q1, q2.
Qed.

Lemma two_levels_ge c q : two_levels c q -> Forall (fun x => (c <= currentDepth x)%nat) q.
Proof.
  intros (q1 & q2 & -> & H1 & H2). apply Forall_app. split.
  - eapply Forall_impl; [exact H1|]. cbn. lia.
  - eapply Forall_impl; [exact H2|]. cbn. lia.
Qed.

Lemma two_levels_snoc c q it :
  two_levels c q -> currentDepth it = S c -> two_levels c (q ++ [it]).
Proof.
  intros (q1 & q2 & -> & H1 & H2) Hit. exists q1, (q2 ++ [it])%list.
  rewrite app_assoc. repeat split; [done|].
  apply Forall_app. split; [done|]. by constructor.
Qed.

Lemma map_set_Forall (P : string * LinkGraphNode -> Prop) k v m :
  P (k, v) -> Forall P m -> Forall P (map_set k v m).
Proof.
  intros Hk. induction 1 as [|[k' v'] t Hx Ht IH]; cbn.
  - by constructor.
  - destruct (decide (k' = k)); constructor; done.
Qed.

(** Setting a key that the map does not have appends the entry. *)
Lemma map_set_fresh (visited : gset string) k v m :
  k ∉ visited -> keys_visited visited m -> map_set k v m = (m ++ [(k, v)])%list.
Proof.
  intros Hk. induction 1 as [|[k' v'] t Hx Ht IH]; cbn; [done|].
  cbn in Hx. destruct (decide (k' = k)) as [->|]; [done|]. by rewrite IH.
Qed.

Lemma keys_visited_mono (v1 v2 : gset string) m :
  v1 ⊆ v2 -> keys_visited v1 m -> keys_visited v2 m.
Proof.
  intros Hsub H. eapply Forall_impl; [exact H|]. intros kv. cbn. set_solver.
Qed.

Section Deepening.

Variable db : Database.
Variable d : nat.              (* the smaller depth; the larger is [S d] *)
Variable limit : nat.
Variable direction : Direction.

Local Abbreviation shallow := (shallow d).
Local Abbreviation Sync := (Sync d).
Local Abbreviation TailCore := (TailCore d).
Local Abbreviation mkTail := (mkTail d).
Local Abbreviation last_level := (last_level d).
Local Abbreviation Tail := (Tail d limit).
Local Abbreviation Related := (Related d limit).

Lemma visit_sync item stA stB u :
  (currentDepth item < d)%nat -> item_ok item ->
  Sync (Some (currentDepth item)) stA stB ->
  Sync (Some (currentDepth item))
    (visit db d item stA u) (visit db (S d) item stB u).
Proof.
  intros Hc Hitem [Hv Hr Hq Ho Hi Hd Hk Hok]. unfold visit. rewrite Hv, Hr.
  destruct (decide (u ∈ visitedNodes stB)) as [|Hu]; [by constructor|].
  assert (Hk' : keys_visited ({[u]} ∪ visitedNodes stB) (resultNodes stB)).
  { eapply keys_visited_mono; [|exact Hk]. apply union_subseteq_r. }
  destruct (getNodeInfo db u) as [info|]; [|by constructor].
  set (nodeScore := (q_score item * Qpower (7 # 10) (Z.of_nat (currentDepth item)))%Q).
  assert (Hscore : nodeScore = level_score (S (currentDepth item))).
  { unfold nodeScore. cbn [level_score]. by rewrite Hitem. }
  set (node := mkNode _ _ _ _ _ _ _).
  assert (Hk'' : keys_visited ({[u]} ∪ visitedNodes stB)
                   (map_set u node (resultNodes stB))).
  { apply map_set_Forall; [|exact Hk']. cbn.
    apply elem_of_union. left. by apply elem_of_singleton. }
  assert (Hok' : results_ok (fun n => (n <= d)%nat)
                   (map_set u node (resultNodes stB))).
  { apply map_set_Forall; [|exact Hok]. cbn. split; [lia | exact Hscore]. }
  assert (HB : (S (currentDepth item) <? S d)%nat = true) by (apply Nat.ltb_lt; lia).
  rewrite HB.
  set (it := mkItem u (S (currentDepth item)) nodeScore).
  assert (Hfilter : filter shallow (queue stB ++ [it])%list
                    = (filter shallow (queue stB)
                       ++ (if (S (currentDepth item) <? d)%nat then [it] else []))%list).
  { rewrite filter_app. f_equal. rewrite filter_cons, filter_nil.
    unfold shallow at 1. cbn [currentDepth it].
    destruct (Nat.ltb_spec (S (currentDepth item)) d);
      destruct (decide (S (currentDepth item) < d)%nat); (done || lia). }
  destruct (S (currentDepth item) <? d)%nat; constructor;
    cbn [queue visitedNodes resultNodes]; try done;
    try (rewrite Hfilter, Hq; by rewrite ?app_nil_r);
    try (by apply two_levels_snoc);
    try (apply Forall_app; split; [done|]; constructor; [|done]; cbn; (exact Hscore || lia)).
Qed.

Lemma foldl_visit_sync item us : forall stA stB,
  (currentDepth item < d)%nat -> item_ok item ->
  Sync (Some (currentDepth item)) stA stB ->
  Sync (Some (currentDepth item))
    (foldl (visit db d item) stA us) (foldl (visit db (S d) item) stB us).
Proof.
  induction us as [|u us IH]; intros stA stB Hc Hitem H; cbn; [done|].
  apply IH; [done..|]. by apply visit_sync.
Qed.

Lemma visit_tail RA item st u :
  currentDepth item = d -> item_ok item -> TailCore RA st ->
  TailCore RA (visit db (S d) item st u) /\
  queue (visit db (S d) item st u) = queue st.
Proof.
  intros Hc Hitem [more Hres Hold Hnew Hkeys]. unfold visit.
  destruct (decide (u ∈ visitedNodes st)) as [|Hu]; [by split; [econstructor|]|].
  assert (Hkeys' : keys_visited ({[u]} ∪ visitedNodes st) (resultNodes st)).
  { eapply keys_visited_mono; [|exact Hkeys]. set_solver. }
  destruct (getNodeInfo db u) as [info|]; [|by split; [econstructor|]].
  assert (HB : (S (currentDepth item) <? S d)%nat = false)
    by (apply Nat.ltb_ge; lia).
  rewrite HB. split; [|done].
  rewrite (map_set_fresh _ _ _ _ Hu Hkeys).
  set (node := mkNode _ _ _ _ _ _ _).
  apply (mkTail _ _ (more ++ [(u, node)])%list); cbn [resultNodes visitedNodes].
  - by rewrite Hres, app_assoc.
  - done.
  - apply Forall_app. split; [done|]. constructor; [|done]. cbn. split; [lia|].
    unfold item_ok in Hitem. by rewrite Hitem.
  - apply Forall_app. split; [done|]. constructor; [|done]. cbn. set_solver.
Qed.

Lemma foldl_visit_tail RA item us : forall st,
  currentDepth item = d -> item_ok item -> TailCore RA st ->
  TailCore RA (foldl (visit db (S d) item) st us) /\
  queue (foldl (visit db (S d) item) st us) = queue st.
Proof.
  induction us as [|u us IH]; intros st Hc Hitem H; cbn; [done|].
  destruct (visit_tail RA item st u Hc Hitem H) as [H' Hq].
  destruct (IH _ Hc Hitem H') as [H'' Hq']. split; [done|]. by rewrite Hq', Hq.
Qed.

Lemma filter_shallow_nil q :
  filter shallow q = [] -> Forall (fun x => (d <= currentDepth x)%nat) q.
Proof.
  induction q as [|x q IH]; [constructor|]. rewrite filter_cons.
  destruct (decide (shallow x)) as [|Hx]; [discriminate|].
  intros H. constructor; [unfold shallow in Hx; lia | by apply IH].
Qed.

Lemma filter_shallow_deep q :
  Forall (fun x => (d <= currentDepth x)%nat) q -> filter shallow q = [].
Proof.
  induction 1 as [|x q Hx _ IH]; [done|]. rewrite filter_cons.
  destruct (decide (shallow x)) as [Hs|]; [unfold shallow in Hs; lia | done].
Qed.

(** While the shallower run goes on, both runs take the same item. *)
Lemma sync_head stA stB :
  Sync None stA stB -> running limit stA = true ->
  exists item rest,
    queue stB = item :: rest /\ queue stA = item :: filter shallow rest /\
    (currentDepth item < d)%nat.
Proof.
  intros [Hv Hr Hq Ho Hi Hd Hk Hok] Hrun.
  destruct (queue stB) as [|item rest] eqn:HqB.
  { unfold running in Hrun. by rewrite Hq in Hrun. }
  exists item, rest. rewrite filter_cons in Hq.
  destruct (decide (shallow item)) as [Hs|Hs]; [done|]. exfalso.
  cbn in Ho. apply two_levels_ge in Ho.
  assert (filter shallow rest = []) as Hnil.
  { apply filter_shallow_deep. eapply Forall_impl; [exact Ho|].
    intros x Hx. unfold shallow in *. cbn in *. lia. }
  unfold running in Hrun. by rewrite Hq, Hnil in Hrun.
Qed.

Lemma sync_step stA stB :
  Sync None stA stB -> running limit stA = true ->
  Sync None (step db d direction stA) (step db (S d) direction stB).
Proof.
  intros HS Hrun.
  destruct (sync_head _ _ HS Hrun) as (item & rest & HqB & HqA & Hc).
  destruct HS as [Hv Hr Hq Ho Hi Hd Hk Hok].
  unfold step. rewrite HqA, HqB.
  assert ((d <=? currentDepth item)%nat = false) as -> by (apply Nat.leb_gt; lia).
  assert ((S d <=? currentDepth item)%nat = false) as -> by (apply Nat.leb_gt; lia).
  rewrite HqB in Ho, Hi, Hd. cbn in Ho.
  apply Forall_cons in Hi as [Hitem Hi]. apply Forall_cons in Hd as [_ Hd].
  pose proof (foldl_visit_sync item (getConnectedUids db (q_uid item) direction)
                (mkState (filter shallow rest) (visitedNodes stA) (resultNodes stA))
                (mkState rest (visitedNodes stB) (resultNodes stB)) Hc Hitem) as HF.
  destruct HF as [Hv' Hr' Hq' Ho' Hi' Hd' Hk' Hok']; [by constructor|].
  constructor; try done. by eapply two_levels_ordered.
Qed.

Lemma sync_running stA stB :
  Sync None stA stB -> running limit stA = true -> running limit stB = true.
Proof.
  intros HS Hrun.
  destruct (sync_head _ _ HS Hrun) as (item & rest & HqB & HqA & Hc).
  destruct HS as [Hv Hr _ _ _ _ _ _].
  unfold running in *. by rewrite HqB, <- Hr; rewrite HqA in Hrun.
Qed.

Lemma sync_tail stA stB :
  Sync None stA stB -> running limit stA = false -> Tail (resultNodes stA) stB.
Proof.
  intros [Hv Hr Hq Ho Hi Hd Hk Hok] Hrun. split.
  - apply (mkTail _ _ []); rewrite ?app_nil_r, ?Hr; try done. constructor.
  - unfold running in *. rewrite <- Hr.
    destruct (queue stA) as [|x qA] eqn:HqA.
    + right. symmetry in Hq. apply filter_shallow_nil in Hq.
      unfold last_level. rewrite Forall_forall in *. intros x Hx.
      specialize (Hq x Hx). specialize (Hd x Hx). specialize (Hi x Hx).
      cbn in *. split; [lia | done].
    + left. by destruct (queue stB).
Qed.

Lemma tail_next RA stB :
  Tail RA stB ->
  Tail RA (if running limit stB then step db (S d) direction stB else stB).
Proof.
  intros [HT Hq]. destruct (running limit stB) eqn:Hrun;
    [|split; [done | by left]].
  destruct Hq as [Hq|Hq]; [congruence|].
  unfold step. destruct (queue stB) as [|item rest] eqn:HqB.
  { unfold running in Hrun. by rewrite HqB in Hrun. }
  apply Forall_cons in Hq as [[Hc Hitem] Hrest].
  assert ((S d <=? currentDepth item)%nat = false) as -> by (apply Nat.leb_gt; lia).
  destruct (foldl_visit_tail RA item (getConnectedUids db (q_uid item) direction)
              (mkState rest (visitedNodes stB) (resultNodes stB)) Hc Hitem)
    as [HT' Hq'].
  { destruct HT as [more ? ? ? ?]. by apply (mkTail _ _ more). }
  split; [done|]. right. by rewrite Hq'.
Qed.

Lemma iterate_related n : forall stA stB,
  Related stA stB ->
  Related (iterate db d limit direction n stA)
          (iterate db (S d) limit direction n stB).
Proof.
  induction n as [|n IH]; intros stA stB H; [done|].
  rewrite !iterate_S. apply IH. destruct H as [HS|[HrA HT]].
  - destruct (running limit stA) eqn:HrA.
    + rewrite (sync_running _ _ HS HrA). left. by apply sync_step.
    + right. split; [done|]. by apply tail_next, sync_tail.
  - rewrite HrA. right. split; [done|]. by apply tail_next.
Qed.

(** What the deeper run has found beyond the shallower one ranks behind
    it. *)
Lemma related_results stA stB :
  Related stA stB ->
  exists more,
    resultNodes stB = (resultNodes stA ++ more)%list /\
    results_ok (fun n => (n <= d)%nat) (resultNodes stA) /\
    results_ok (fun n => n = S d) more.
Proof.
  intros [[Hv Hr Hq Ho Hi Hd Hk Hok]|[_ [[more Hres Hold Hnew _] _]]].
  - exists []. rewrite app_nil_r, Hr. repeat split; [done|constructor].
  - by exists more.
Qed.

Lemma related_finish stA stB node :
  Related stA stB -> node ∈ finish limit stA -> node ∈ finish limit stB.
Proof.
  intros (more & Hres & Hold & Hnew)%related_results. unfold finish, JsArray.slice0.
  rewrite Hres, map_app. unfold JsArray.sort.
  rewrite JsArray.stable_sort_app.
  - rewrite take_app. intros H. apply elem_of_app. by left.
  - intros a m [[ka a'] [-> Ha]]%list_elem_of_fmap [[km m'] [-> Hm]]%list_elem_of_fmap.
    cbn [snd].
    apply (proj1 (Forall_forall _ _) Hold) in Ha as [Hda Hsa].
    apply (proj1 (Forall_forall _ _) Hnew) in Hm as [Hdm Hsm].
    cbn [snd] in *. apply Qle_bool_iff. unfold by_score_desc.
    rewrite Hsa, Hsm, Hdm.
    pose proof (level_score_antitone (depth a') (S d) ltac:(lia)). lra.
Qed.

End Deepening.

(** C8.  For every start node and every depth [k >= 1], with the limit and
    the direction held equal, every node returned at depth [k - 1] is
    returned at depth [k], with the same score and depth. *)
Theorem findConnectedNotes_depth_monotone db startUid (k : nat) limit direction node :
  (1 <= k)%nat ->
  node ∈ findConnectedNotes db startUid (mkOptions (Some (k - 1)%nat) limit direction) ->
  node ∈ findConnectedNotes db startUid (mkOptions (Some k) limit direction).
Proof.
  intros Hk. destruct k as [|d]; [lia|]. clear Hk.
  replace (S d - 1)%nat with d by lia.
  destruct d as [|d].
  { rewrite depth_0_empty. by intros ?%elem_of_nil. }
  unfold findConnectedNotes. cbn [opt_depth opt_limit opt_direction default].
  apply (related_finish (S d)), iterate_related.
  left.
  constructor; cbn [initial queue visitedNodes resultNodes]; try done.
  - exists [], []. repeat split; constructor.
  - constructor; [reflexivity | constructor].
  - constructor; [cbn; lia | constructor].
  - constructor.
  - constructor.
Qed.

(** Depths 1 and 2 on the chain a -> b -> c -> d. *)
Lemma findConnectedNotes_depth_monotone_witness :
  Forall
    (fun node =>
       node ∈ findConnectedNotes sample_db "chain-a" (mkOptions (Some 2%nat) None None))
    (findConnectedNotes sample_db "chain-a" (mkOptions (Some 1%nat) None None)).
Proof.
  apply Forall_forall. intros node.
  apply (findConnectedNotes_depth_monotone sample_db "chain-a" 2 None None node).
  lia.
Defined.

(** The result never holds more than [limit] nodes (default 100). *)
Lemma findConnectedNotes_length db startUid options :
  (length (findConnectedNotes db startUid options)
   <= default 100%nat (opt_limit options))%nat.
Proof.
  unfold findConnectedNotes, finish, JsArray.slice0. rewrite length_take. lia.
Qed.

(** The depths of the link-graph test on the chain. *)
Example chain_depth_1 :
  map (fun n => (id n, depth n))
    (findConnectedNotes sample_db "chain-a" (mkOptions (Some 1%nat) None None))
  = [("chain-b", 1%nat)].
Proof. vm_compute. reflexivity. Qed.

Example chain_depth_2 :
  map (fun n => (id n, depth n))
    (findConnectedNotes sample_db "chain-a" (mkOptions (Some 2%nat) None None))
  = [("chain-b", 1%nat); ("chain-c", 2%nat)].
Proof. vm_compute. reflexivity. Qed.

Example chain_both_directions :
  map (fun n => (id n, depth n))
    (findConnectedNotes sample_db "chain-b" (mkOptions None None None))
  = [("chain-c", 1%nat); ("chain-a", 1%nat); ("chain-d", 2%nat)].
Proof. vm_compute. reflexivity. Qed.

End LinkGraph.

(** ** index-search: hybrid search engine (SearchEngine) *)

Module Search.

Record SearchResult := mkResult {
  id : string;
  title : string;
  category : string;
  snippet : string;
  score : Double.double;
  filePath : string;
  tags : list string;
  links : option (list string)
}.

Record SearchMetrics := mkMetrics {
  queryTimeMs : Z;
  processingTimeMs : Z;
  totalTimeMs : Z;
  totalResults : nat;
  returnedResults : nat;
  cacheHit : bool
}.

(** What [ftsEngine.searchNotes] returns, and what [search] returns. *)
Record EnhancedSearchResult := mkSearch {
  results : list SearchResult;
  metrics : SearchMetrics;
  totalCount : nat
}.

Inductive SearchError := mkSearchError (message : string).

(** [links.reduce((sum, link) => sum + link.strength, 0)]: the column is
    an INTEGER, read as a number. *)
Definition sum_strength (l : list LinkGraph.LinkRelation) : Double.double :=
  foldl (fun sum link => Double.add sum (Double.of_Z (LinkGraph.strength link)))
        (Double.of_Z 0) l.

(** [calculateLinkScore] *)
Definition calculateLinkScore (backlinks outboundLinks : list LinkGraph.LinkRelation)
    : Double.double :=
  let backlinkScore := Double.mul (sum_strength backlinks) (Double.of_Z 2) in
  let outboundScore := sum_strength outboundLinks in
  let totalScore := Double.add backlinkScore outboundScore in
  Double.min (Double.div totalScore (Double.of_Z 20)) (Double.of_Z 1).

(** [combineScores]: [(ftsScore * 0.7) + (linkScore * 0.3)].  The literal
    0.7 denotes the double nearest to 7/10, which is the quotient of 7 by
    10 in double precision; likewise 0.3. *)
Definition combineScores (ftsScore linkScore : Double.double) : Double.double :=
  Double.add (Double.mul ftsScore (Double.ratio 7 10))
             (Double.mul linkScore (Double.ratio 3 10)).

(** [a.links?.length || 0] *)
Definition linkCount (r : SearchResult) : nat :=
  match links r with
  | Some l => length l
  | None => 0
  end.

(** The comparator of [rerankResults]. *)
Definition compareResults (a b : SearchResult) : Double.double :=
  if negb (Double.strict_eq (score b) (score a))
  then Double.sub (score b) (score a)
  else Double.of_Z (Z.of_nat (linkCount b) - Z.of_nat (linkCount a)).

(** [rerankResults] *)
Definition rerankResults (l : list SearchResult) : list SearchResult :=
  JsArray.sort_double compareResults l.

Section Engine.

(** The link graph as the engine calls it; [None] is a thrown error. *)
Variable findBacklinks : string -> nat -> option (list LinkGraph.LinkRelation).
Variable findOutboundLinks : string -> nat -> option (list LinkGraph.LinkRelation).

(** The body of the loop of [enhanceWithLinkData]: the [try] block, with
    the original result as the [catch] fallback. *)
Definition enhanceResult (result : SearchResult) : SearchResult :=
  match findBacklinks (id result) 10 with
  | None => result
  | Some backlinks =>
      match findOutboundLinks (id result) 10 with
      | None => result
      | Some outboundLinks =>
          let linkScore := calculateLinkScore backlinks outboundLinks in
          mkResult (id result) (title result) (category result) (snippet result)
            (combineScores (score result) linkScore)
            (filePath result) (tags result)
            (Some (map LinkGraph.targetUid outboundLinks))
      end
  end.

(** [enhanceWithLinkData] *)
Definition enhanceWithLinkData (l : list SearchResult) : list SearchResult :=
  map enhanceResult l.

(** [search(query, options)]: [isInitialized] is the engine's flag, [fts]
    the outcome of [ftsEngine.searchNotes(query, options)] ([None] when it
    throws) and [totalTime] the elapsed time the call measures. *)
Definition search (isInitialized : bool) (query : string)
    (fts : option EnhancedSearchResult) (totalTime : Z)
    : SearchError + EnhancedSearchResult :=
  if negb isInitialized
  then inl (mkSearchError "검색 엔진이 초기화되지 않았습니다")
  else
    match fts with
    | None => inl (mkSearchError ("하이브리드 검색 실패: " ++ query))
    | Some ftsResult =>
        let enhancedResults := enhanceWithLinkData (results ftsResult) in
        let rerankedResults := rerankResults enhancedResults in
        let m := metrics ftsResult in
        inr (mkSearch rerankedResults
               (mkMetrics (queryTimeMs m) (processingTimeMs m) totalTime
                  (totalResults m) (returnedResults m) (cacheHit m))
               (totalCount ftsResult))
    end.

End Engine.

(** The engine over the link graph of a database: the queries of
    [LinkGraphManager] on a store that answers. *)
Definition dbBacklinks (db : LinkGraph.Database) (uid : string) (limit : nat) :=
  Some (LinkGraph.findBacklinks db uid limit).

Definition dbOutboundLinks (db : LinkGraph.Database) (uid : string) (limit : nat) :=
  Some (LinkGraph.findOutboundLinks db uid limit).

Definition searchDb (db : LinkGraph.Database) :=
  search (dbBacklinks db) (dbOutboundLinks db).

(** A lookup that throws for the notes of [throws], and answers from the
    database for the others. *)
Definition unless (throws : string -> bool)
    (lookup : string -> nat -> option (list LinkGraph.LinkRelation))
    (uid : string) (limit : nat) : option (list LinkGraph.LinkRelation) :=
  if throws uid then None else lookup uid limit.

(** The claim's formula, in the spec's words and in double precision:
    0.7 * fts + 0.3 * min((2 * sum of the backlink strengths + sum of the
    outbound strengths) / 20, 1). *)
Definition hybrid_score (ftsScore : Double.double)
    (backlinks outbound : list LinkGraph.LinkRelation) : Double.double :=
  Double.add
    (Double.mul (Double.ratio 7 10) ftsScore)
    (Double.mul (Double.ratio 3 10)
       (Double.min
          (Double.div
             (Double.add (Double.mul (Double.of_Z 2) (sum_strength backlinks))
                         (sum_strength outbound))
             (Double.of_Z 20))
          (Double.of_Z 1))).

(** [e] is what the search makes of the candidate [r]: when both lookups
    answer, [r] with its hybrid score over the (at most ten) backlinks and
    the (at most ten) outbound links fetched, and with the targets of the
    latter attached; when one of them throws, [r] itself. *)
Definition scored (db : LinkGraph.Database) (backlinks_throw outbound_throw : string -> bool)
    (r e : SearchResult) : Prop :=
  if backlinks_throw (id r) || outbound_throw (id r) then e = r
  else
    exists backlinks outbound,
      backlinks = LinkGraph.findBacklinks db (id r) 10 /\
      outbound = LinkGraph.findOutboundLinks db (id r) 10 /\
      (length backlinks <= 10)%nat /\ (length outbound <= 10)%nat /\
      e = mkResult (id r) (title r) (category r) (snippet r)
            (hybrid_score (score r) backlinks outbound)
            (filePath r) (tags r) (Some (map LinkGraph.targetUid outbound)).

(** [a] ranks before [b]: higher score, or equal score and at least as
    many links attached. *)
Definition ranks_before (a b : SearchResult) : Prop :=
  Double.ltb (score b) (score a) = true \/
  (Double.strict_eq (score a) (score b) = true /\ (linkCount b <= linkCount a)%nat).

(** The number of outbound links of a note: the rows of the query of
    [findOutboundLinks] without its LIMIT. *)
Definition outbound_count (db : LinkGraph.Database) (uid : string) : nat :=
  length (filter (fun l => LinkGraph.sourceUid l = uid)
            (LinkGraph.join_notes db LinkGraph.targetUid (LinkGraph.links db))).

Definition sample_metrics : SearchMetrics := mkMetrics 1 1 2 2 2 false.

(** Two candidates with the same FTS score, 0.5. *)
Definition candidate_x : SearchResult :=
  mkResult "chain-b" "Chain B" "Resources" "" (Double.ratio 1 2) "/test/chain-b.md" [] None.
Definition candidate_y : SearchResult :=
  mkResult "note-y" "Y" "Resources" "" (Double.ratio 1 2) "/test/y.md" [] None.

Definition sample_fts : EnhancedSearchResult :=
  mkSearch [candidate_y; candidate_x] sample_metrics 2.

(** A link graph whose lookups throw for note-y. *)
Definition failing_backlinks (uid : string) (limit : nat)
    : option (list LinkGraph.LinkRelation) :=
  if String.eqb uid "note-y" then None
  else Some (LinkGraph.findBacklinks LinkGraph.sample_db uid limit).

(** Two hubs: hub-a links to eleven notes, hub-b to twelve. *)
Definition hub_targets : list string :=
  ["t01"; "t02"; "t03"; "t04"; "t05"; "t06"; "t07"; "t08"; "t09"; "t10"; "t11"; "t12"].

Definition hub_link (source target : string) : LinkGraph.LinkRelation :=
  LinkGraph.mkLink source target "internal" 1
    "2023-01-01T00:00:00Z" "2023-01-01T00:00:00Z".

Definition hub_db : LinkGraph.Database :=
  LinkGraph.mkDb
    (map (fun uid => LinkGraph.mkNoteRow uid uid "Resources" ("/test/" ++ uid ++ ".md"))
         ("hub-a" :: "hub-b" :: hub_targets))
    (map (hub_link "hub-a") (take 11 hub_targets) ++ map (hub_link "hub-b") hub_targets).

Definition hub_fts : EnhancedSearchResult :=
  mkSearch
    [mkResult "hub-a" "hub-a" "Resources" "" (Double.ratio 1 2) "/test/hub-a.md" [] None;
     mkResult "hub-b" "hub-b" "Resources" "" (Double.ratio 1 2) "/test/hub-b.md" [] None]
    sample_metrics 2.

(** Two candidates whose scores differ in the last binary digit only:
    [plain] (FTS score 0.9, no link) and [linked] (FTS score 0.75, one
    outbound link of strength 7). *)
Definition close_db : LinkGraph.Database :=
  LinkGraph.mkDb
    [LinkGraph.mkNoteRow "plain" "Plain" "Resources" "/test/plain.md";
     LinkGraph.mkNoteRow "linked" "Linked" "Resources" "/test/linked.md";
     LinkGraph.mkNoteRow "other" "Other" "Resources" "/test/other.md"]
    [LinkGraph.mkLink "linked" "other" "internal" 7
       "2023-01-01T00:00:00Z" "2023-01-01T00:00:00Z"].

Definition close_fts : EnhancedSearchResult :=
  mkSearch
    [mkResult "linked" "Linked" "Resources" "" (Double.ratio 3 4) "/test/linked.md" [] None;
     mkResult "plain" "Plain" "Resources" "" (Double.ratio 9 10) "/test/plain.md" [] None]
    sample_metrics 2.

(* ---------- facts ---------- *)

Lemma combineScores_hybrid fts backlinks outbound :
  combineScores fts (calculateLinkScore backlinks outbound)
  = hybrid_score fts backlinks outbound.
Proof.
  unfold combineScores, calculateLinkScore, hybrid_score. cbv zeta.
  rewrite (Double.mul_comm fts), (Double.mul_comm _ (Double.ratio 3 10)).
  by rewrite (Double.mul_comm (sum_strength backlinks)).
Qed.

Lemma enhanceResult_scored db backlinks_throw outbound_throw r :
  scored db backlinks_throw outbound_throw r
    (enhanceResult (unless backlinks_throw (dbBacklinks db))
                   (unless outbound_throw (dbOutboundLinks db)) r).
Proof.
  unfold enhanceResult, unless, dbBacklinks, dbOutboundLinks, scored.
  destruct (backlinks_throw (id r)); [done|].
  destruct (outbound_throw (id r)); [done|]. cbn [orb].
  eexists _, _. split; [reflexivity|]. split; [reflexivity|].
  split; [apply LinkGraph.findBacklinks_length|].
  split; [apply LinkGraph.findOutboundLinks_length|].
  by rewrite combineScores_hybrid.
Qed.

(** [ranks_before] on the number line. *)
Lemma ranks_before_line a b :
  Double.is_number (score a) -> Double.is_number (score b) ->
  ranks_before a b <->
  Double.below (score b) (score a) \/
  (Double.level (score a) (score b) /\ (linkCount b <= linkCount a)%nat).
Proof.
  intros [Ha _] [Hb _]. unfold ranks_before.
  by rewrite Double.ltb_below, Double.strict_eq_level.
Qed.

(** On numbers the comparator orders [a] before [b] exactly when [a]
    ranks before [b]. *)
Lemma compareResults_spec a b :
  Double.is_number (score a) -> Double.is_number (score b) ->
  negb (Double.is_positive (compareResults a b)) = true <-> ranks_before a b.
Proof.
  intros Na Nb. rewrite ranks_before_line by done. unfold compareResults.
  destruct (Double.strict_eq (score b) (score a)) eqn:E; cbn [negb].
  - apply Double.strict_eq_level in E; [|apply Nb|apply Na].
    rewrite Double.is_positive_of_Z.
    pose proof (Double.below_level (score b) (score a)).
    pose proof (Double.level_sym _ _ E).
    destruct (Z.ltb_spec 0 (Z.of_nat (linkCount b) - Z.of_nat (linkCount a)));
      cbn [negb]; (split; [|done || (intros [?|[_ ?]]; [tauto | lia])]).
    + done.
    + intros _. right. split; [done | lia].
  - pose proof (Double.sub_positive (score a) (score b) Na Nb E) as Hs.
    assert (~ Double.level (score b) (score a)) as Hl.
    { intros Hl. apply Double.strict_eq_level in Hl; [congruence|apply Nb|apply Na]. }
    pose proof (Double.line_total (score a) (score b)) as Ht.
    pose proof (Double.below_asym (score a) (score b)).
    pose proof (Double.level_sym (score a) (score b)).
    destruct (Double.is_positive (Double.sub (score b) (score a)));
      cbn [negb]; (split; [|done || (intros [?|[? _]]; tauto)]).
    + done.
    + intros _. left. destruct Ht as [Ht|[Ht|Ht]]; [|tauto|done].
      apply Hs in Ht. done.
Qed.

Lemma ranks_before_total a b :
  Double.is_number (score a) -> Double.is_number (score b) ->
  ~ ranks_before a b -> ranks_before b a.
Proof.
  intros Na Nb. rewrite !ranks_before_line by done.
  unfold Double.below, Double.level. lia.
Qed.

Lemma ranks_before_trans a b c :
  Double.is_number (score a) -> Double.is_number (score b) ->
  Double.is_number (score c) ->
  ranks_before a b -> ranks_before b c -> ranks_before a c.
Proof.
  intros Na Nb Nc. rewrite !ranks_before_line by done.
  unfold Double.below, Double.level. lia.
Qed.

Lemma StronglySorted_weaken_on {A} (P : A -> Prop) (R S : A -> A -> Prop) l :
  (forall a b, P a -> P b -> R a b -> S a b) ->
  Forall P l -> StronglySorted R l -> StronglySorted S l.
Proof.
  intros HRS HP Hs. induction Hs as [|x l _ IH Hx]; constructor.
  - apply IH. by apply Forall_cons in HP as [_ ?].
  - apply Forall_cons in HP as [Px Pl].
    apply Forall_forall. intros y Hy. apply HRS; [done| |].
    + by apply (proj1 (Forall_forall _ _) Pl).
    + by apply (proj1 (Forall_forall _ _) Hx).
Qed.

Lemma rerankResults_Permutation l : rerankResults l ≡ₚ l.
Proof. apply JsArray.stable_sort_Permutation. Qed.

Lemma sum_strength_canonical l : Double.canonical (sum_strength l).
Proof.
  unfold sum_strength.
  assert (H : forall acc, Double.canonical acc ->
            Double.canonical
              (foldl (fun sum link =>
                        Double.add sum (Double.of_Z (LinkGraph.strength link))) acc l)).
  { induction l as [|x l IH]; intros acc Hacc; [done|]. cbn [foldl].
    apply IH, Double.add_canonical; [done | apply Double.of_Z_canonical]. }
  apply H, Double.of_Z_canonical.
Qed.

Lemma calculateLinkScore_canonical backlinks outboundLinks :
  Double.canonical (calculateLinkScore backlinks outboundLinks).
Proof.
  unfold calculateLinkScore. cbv zeta.
  apply Double.min_canonical; [|apply Double.of_Z_canonical].
  apply Double.div_canonical; [|apply Double.of_Z_canonical].
  apply Double.add_canonical; [|apply sum_strength_canonical].
  apply Double.mul_canonical; [apply sum_strength_canonical | apply Double.of_Z_canonical].
Qed.

(** The engine computes canonical doubles from canonical FTS scores. *)
Lemma enhanceResult_canonical findBacklinks findOutboundLinks r :
  Double.canonical (score r) ->
  Double.canonical (score (enhanceResult findBacklinks findOutboundLinks r)).
Proof.
  intros Hr. unfold enhanceResult.
  destruct (findBacklinks (id r) 10%nat) as [backlinks|]; [|done].
  destruct (findOutboundLinks (id r) 10%nat) as [outbound|]; [|done].
  cbn [score]. unfold combineScores.
  apply Double.add_canonical; apply Double.mul_canonical;
    try apply Double.ratio_canonical; try done.
  apply calculateLinkScore_canonical.
Qed.

Lemma rerankResults_sorted l :
  Forall (fun e => Double.is_number (score e)) l ->
  StronglySorted ranks_before (rerankResults l).
Proof.
  intros Hl. unfold rerankResults, JsArray.sort_double.
  eapply (StronglySorted_weaken_on (fun e => Double.is_number (score e)));
    [| |apply (JsArray.stable_sort_sorted_on
                 (fun a b => negb (Double.is_positive (compareResults a b)))
                 (fun e => Double.is_number (score e)))].
  - intros a b Na Nb H. by apply compareResults_spec.
  - by rewrite JsArray.stable_sort_Permutation.
  - intros a b Na Nb H. apply compareResults_spec; [done|done|].
    apply ranks_before_total; [done|done|].
    intros H'%compareResults_spec; [congruence|done|done].
  - intros a b c Na Nb Nc H1%compareResults_spec H2%compareResults_spec; try done.
    apply compareResults_spec; [done|done|]. by eapply (ranks_before_trans a b c).
  - done.
Qed.

(** C1 (as amended).  When the FTS stage returns candidates, the engine
    over the link graph of a database, whose lookups may throw for some
    notes, succeeds.  A candidate both of whose lookups answer gets, in
    double precision, the score 0.7 * fts + 0.3 * min((2 * sum of the
    strengths of its at most 10 backlinks fetched + sum of the strengths
    of its at most 10 outbound links fetched) / 20, 1) and the targets of
    those outbound links; a candidate one of whose lookups throws is kept
    as the FTS stage returned it.  The results are these candidates,
    reordered; when the FTS scores are doubles and no final score is NaN
    they are sorted by score, highest first, ties broken by the number of
    links attached (at most 10), highest first. *)
Theorem search_hybrid_ranking db (backlinks_throw outbound_throw : string -> bool)
    (query : string) (fts : EnhancedSearchResult) (totalTime : Z) :
  exists out enhanced,
    search (unless backlinks_throw (dbBacklinks db))
           (unless outbound_throw (dbOutboundLinks db))
           true query (Some fts) totalTime = inr out /\
    Forall2 (scored db backlinks_throw outbound_throw) (results fts) enhanced /\
    results out ≡ₚ enhanced /\
    (Forall (fun r => Double.canonical (score r)) (results fts) ->
     Forall (fun e => score e <> Double.NaN) enhanced ->
     StronglySorted ranks_before (results out)).
Proof.
  eexists _, (enhanceWithLinkData (unless backlinks_throw (dbBacklinks db))
                (unless outbound_throw (dbOutboundLinks db)) (results fts)).
  split; [reflexivity|]. cbn [results]. split; [|split].
  - unfold enhanceWithLinkData. apply Forall2_fmap_r, Forall_Forall2_diag.
    apply Forall_forall. intros r _. apply enhanceResult_scored.
  - apply rerankResults_Permutation.
  - intros Hfts Hnan. apply rerankResults_sorted.
    apply Forall_forall. intros e He. split.
    + by apply (proj1 (Forall_forall _ _) Hnan).
    + unfold enhanceWithLinkData in He.
      apply list_elem_of_fmap in He as (r & -> & Hr).
      apply enhanceResult_canonical. by apply (proj1 (Forall_forall _ _) Hfts).
Qed.

(** Ties are not broken by the number of outbound links of the
    candidates: hub-a (eleven outbound links) and hub-b (twelve) get the
    same score and the same ten links attached, and are returned in the
    order of the FTS stage, hub-a first. *)
Lemma search_tie_break_capped :
  outbound_count hub_db "hub-a" = 11%nat /\
  outbound_count hub_db "hub-b" = 12%nat /\
  exists out a b,
    searchDb hub_db true "hub" (Some hub_fts) 3 = inr out /\
    results out = [a; b] /\
    id a = "hub-a" /\ id b = "hub-b" /\
    score a = score b /\ linkCount a = 10%nat /\ linkCount b = 10%nat.
Proof.
  split; [by vm_compute|]. split; [by vm_compute|].
  eexists _, _, _. split; [reflexivity|]. by vm_compute.
Qed.

(** A candidate whose lookup throws does not get the hybrid score: on the
    chain database note-y keeps its FTS score 0.5, where the formula gives
    0.35. *)
Example search_failed_lookup_score :
  match search failing_backlinks (dbOutboundLinks LinkGraph.sample_db)
          true "chain" (Some sample_fts) 3 with
  | inr out =>
      map (fun r => (id r, score r)) (results out)
      = [("note-y", Double.ratio 1 2);
         ("chain-b", hybrid_score (Double.ratio 1 2)
                       (LinkGraph.findBacklinks LinkGraph.sample_db "chain-b" 10)
                       (LinkGraph.findOutboundLinks LinkGraph.sample_db "chain-b" 10))] /\
      hybrid_score (Double.ratio 1 2) [] [] <> Double.ratio 1 2
  | inl _ => False
  end.
Proof. by vm_compute. Qed.

(** C10.  A candidate whose backlink or outbound-link lookup throws is
    still returned, unchanged (its FTS score, and no link list attached by
    the engine), and the search succeeds. *)
Theorem search_survives_link_failure
    (findBacklinks findOutboundLinks :
       string -> nat -> option (list LinkGraph.LinkRelation))
    (query : string) (fts : EnhancedSearchResult) (totalTime : Z)
    (r : SearchResult) :
  r ∈ results fts ->
  findBacklinks (id r) 10%nat = None \/ findOutboundLinks (id r) 10%nat = None ->
  exists out,
    search findBacklinks findOutboundLinks true query (Some fts) totalTime
    = inr out /\
    r ∈ results out.
Proof.
  intros Hr Hfail. eexists. split; [reflexivity|]. cbn [results].
  rewrite rerankResults_Permutation. unfold enhanceWithLinkData.
  apply list_elem_of_fmap. exists r. split; [|done].
  unfold enhanceResult. destruct Hfail as [->| ->]; [done|].
  by destruct (findBacklinks (id r) 10%nat).
Qed.

Lemma search_survives_link_failure_witness :
  exists out,
    search failing_backlinks (dbOutboundLinks LinkGraph.sample_db)
      true "chain" (Some sample_fts) 3 = inr out /\
    candidate_y ∈ results out.
Proof.
  apply (search_survives_link_failure failing_backlinks
           (dbOutboundLinks LinkGraph.sample_db) "chain" sample_fts 3 candidate_y).
  - apply elem_of_cons. by left.
  - left. reflexivity.
Defined.

(** On the chain database chain-b (one backlink, one outbound link, score
    0.5 * 0.7 + 0.15 * 0.3) is ranked before note-y (no links, 0.35). *)
Example search_sample_ranking :
  match searchDb LinkGraph.sample_db true "chain" (Some sample_fts) 3 with
  | inr out => map id (results out) = ["chain-b"; "note-y"]
  | inl _ => False
  end.
Proof. vm_compute. reflexivity. Qed.

(** Scores are compared as the doubles they are: [plain] gets
    0.9 * 0.7 + 0 * 0.3 = 0.63 and [linked] gets 0.75 * 0.7 + 0.35 * 0.3
    = 0.6299999999999999, one unit in the last place below, so [plain] is
    returned first. *)
Example search_close_scores :
  match searchDb close_db true "close" (Some close_fts) 3 with
  | inr out =>
      map (fun r => (id r, score r)) (results out)
      = [("plain", SpecFloat.S754_finite false 5674535530486825 (-53));
         ("linked", SpecFloat.S754_finite false 5674535530486824 (-53))]
  | inl _ => False
  end.
Proof. by vm_compute. Qed.

(** The FTS scores of that search are doubles, and no final score is
    NaN. *)
Example search_close_scores_numbers :
  Forall (fun r => Double.canonical (score r)) (results close_fts) /\
  Forall (fun e => score e <> Double.NaN)
    (enhanceWithLinkData (dbBacklinks close_db) (dbOutboundLinks close_db)
       (results close_fts)).
Proof. split; repeat constructor; by vm_compute. Qed.

(* ---------- facts: the range of the link score ---------- *)

Lemma min_at_most x y : y <> Double.NaN -> Double.ltb y (Double.min x y) = false.
Proof.
  intros Hy. unfold Double.min.
  assert (Hnot : forall a b, a <> Double.NaN -> b <> Double.NaN ->
            (Double.below b a \/ Double.level b a) -> Double.ltb a b = false).
  { intros a b Ha Hb H. destruct (Double.ltb a b) eqn:L; [|done].
    apply Double.ltb_below in L; [|done|done]. exfalso.
    destruct H as [H|H].
    - by apply (Double.below_asym a b).
    - by apply (Double.below_level a b L), Double.level_sym. }
  destruct (SpecFloat.SFcompare x y) as [[]|] eqn:E.
  - assert (x <> Double.NaN) as Hx by (intros ->; by destruct y).
    pose proof (Double.compare_line x y Hx Hy) as H. rewrite E in H.
    assert (Double.ltb y x = false) as Hyx by (apply Hnot; auto).
    by destruct x as [[]| | |], y as [[]| | |].
  - assert (x <> Double.NaN) as Hx by (intros ->; by destruct y).
    pose proof (Double.compare_line x y Hx Hy) as H. rewrite E in H.
    apply Hnot; auto.
  - apply Hnot; try done. right. unfold Double.level. lia.
  - by destruct y as [[]|[]| |[] ? ?].
Qed.

(** The link score never exceeds 1, whatever the strengths in the table:
    the comparison [1 < calculateLinkScore(...)] is false (the score is at
    most 1, or NaN). *)
Theorem calculateLinkScore_at_most_1 backlinks outboundLinks :
  Double.ltb (Double.of_Z 1) (calculateLinkScore backlinks outboundLinks) = false.
Proof. unfold calculateLinkScore. cbv zeta. apply min_at_most. by vm_compute. Qed.

End Search.

(** ** packages/storage-md/src/backlink-manager.ts *)

Module Backlink.
Import Note.

(** A markdown file of the vault: one that loads as a note (header and
    body), or one whose load throws. *)
Inductive VaultFile :=
| NoteFile (fm : FrontMatter) (body : string)
| Unreadable.

(** The vault: the markdown files under the vault path. *)
Abbreviation Vault := (gmap string VaultFile).

(** [listMarkdownFiles()]: the paths of the vault, in listing order. *)
Definition listMarkdownFiles (vault : Vault) : list string :=
  (map_to_list vault).*1.

(** Modelled from the spec: [loadNote] (note-manager.ts is not among the
    sources) returns the note stored at a path, or fails. *)
Definition loadNote (vault : Vault) (path : string) : option MarkdownNote :=
  match vault !! path with
  | Some (NoteFile fm body) => Some (mkNote path fm body)
  | _ => None
  end.

(** The vault after the note, header and body, has been written to its
    path. *)
Definition stored (vault : Vault) (note : MarkdownNote) : Vault :=
  <[filePath note := NoteFile (frontMatter note) (content note)]> vault.

(** Modelled from the spec: [findNoteByUid] (note-manager.ts is not among
    the sources) scans the vault and returns the first note whose header
    id is the uid, or null. *)
Definition findNoteByUid (uid : string) (vault : Vault) : option MarkdownNote :=
  head (omap (fun path =>
                match loadNote vault path with
                | Some note =>
                    if decide (id (frontMatter note) = uid) then Some note else None
                | None => None
                end)
             (listMarkdownFiles vault)).

(** Modelled from the spec: [updateFrontMatter] (front-matter.ts is not
    among the sources; its test is) replaces the given field, here
    [links], keeps the others and refreshes [updated]. *)
Definition updateFrontMatter (fm : FrontMatter) (newLinks : list string)
    (now : string) : FrontMatter :=
  mkFrontMatter (id fm) (title fm) (category fm) (tags fm) (project fm)
    (created fm) (Some now) newLinks.

Definition withFrontMatter (note : MarkdownNote) (fm : FrontMatter) : MarkdownNote :=
  mkNote (filePath note) fm (content note).

Inductive SyncType := update | remove.

Record BacklinkSyncEvent := mkEvent {
  ev_type : SyncType;
  targetUid : string;
  affectedNotes : list string;
  timestamp : string
}.

Record LinkAnalysis := mkAnalysis {
  outboundLinks : list string;
  inboundLinks : list string;
  brokenLinks : list string
}.

Inductive StorageMdError := mkStorageError (message code : string).

Section Sync.

(** [analyzeLinks(note, vaultPath)] of note-manager.ts, which is not among
    the sources: the analysis of the note's body, or [None] when it
    throws. *)
Variable analyzeLinks : MarkdownNote -> Vault -> option LinkAnalysis.

(** Whether the write of a note fails (the spec's WriteError);
    note-manager.ts is not among the sources. *)
Variable save_fails : MarkdownNote -> bool.

(** Modelled from the spec: [saveNote(note, { atomic: true })] writes the
    note to its path, or fails and leaves the file as it was; [None] is the
    error thrown. *)
Definition saveNote (vault : Vault) (note : MarkdownNote) : option Vault :=
  if save_fails note then None else Some (stored vault note).

(** [syncBacklinksForNote(uid)]: the vault after the call and the events
    emitted, or the error thrown.  [now] is the clock reading.  The test
    [JSON.stringify(a) !== JSON.stringify(b)] on two arrays of strings is
    inequality of the two sequences. *)
Definition syncBacklinksForNote (uid : string) (now : string) (vault : Vault)
    : StorageMdError + (Vault * list BacklinkSyncEvent) :=
  match findNoteByUid uid vault with
  | None => inr (vault, [])
  | Some note =>
      match analyzeLinks note vault with
      | None => inl (mkStorageError ("백링크 동기화 실패: " ++ uid) "BACKLINK_SYNC_ERROR")
      | Some linkAnalysis =>
          let updatedFrontMatter :=
            updateFrontMatter (frontMatter note) (outboundLinks linkAnalysis) now in
          if decide (links (frontMatter note) <> links updatedFrontMatter)
          then
            match saveNote vault (withFrontMatter note updatedFrontMatter) with
            | Some vault' =>
                inr (vault', [mkEvent update uid (outboundLinks linkAnalysis) now])
            | None =>
                inl (mkStorageError ("백링크 동기화 실패: " ++ uid) "BACKLINK_SYNC_ERROR")
            end
          else inr (vault, [])
      end
  end.

(** The body of the loop of [cleanupBacklinksForDeletedNote], for one
    path, with its [try]/[catch]: a file that fails to load is skipped,
    and a note whose save fails stays as it was and is not recorded. *)
Definition cleanupFile (deletedUid now : string) (acc : Vault * list string)
    (path : string) : Vault * list string :=
  let '(vault, affectedNotes) := acc in
  match loadNote vault path with
  | None => acc
  | Some note =>
      let originalLinks := links (frontMatter note) in
      let updatedLinks := filter (fun link => link <> deletedUid) originalLinks in
      if decide (length originalLinks <> length updatedLinks)
      then
        match saveNote vault
                (withFrontMatter note
                   (updateFrontMatter (frontMatter note) updatedLinks now)) with
        | Some vault' => (vault', (affectedNotes ++ [id (frontMatter note)])%list)
        | None => acc
        end
      else acc
  end.

(** [cleanupBacklinksForDeletedNote(deletedUid)]: the vault after the call
    and the events emitted. *)
Definition cleanupBacklinksForDeletedNote (deletedUid now : string) (vault : Vault)
    : Vault * list BacklinkSyncEvent :=
  let '(vault', affectedNotes) :=
    foldl (cleanupFile deletedUid now) (vault, []) (listMarkdownFiles vault) in
  (vault',
   if (0 <? length affectedNotes)%nat
   then [mkEvent remove deletedUid affectedNotes now]
   else []).

(** The header of a note without the deleted uid among its links. *)
Definition without (deletedUid now : string) (fm : FrontMatter) : FrontMatter :=
  updateFrontMatter fm (filter (fun link => link <> deletedUid) (links fm)) now.

(** The note at [path] names the deleted uid and can be written back
    without it. *)
Definition cleanable (deletedUid now : string) (path : string) (fm : FrontMatter)
    (body : string) : Prop :=
  deletedUid ∈ links fm /\
  save_fails (mkNote path (without deletedUid now fm) body) = false.

#[local] Instance cleanable_dec deletedUid now path fm body :
  Decision (cleanable deletedUid now path fm body).
Proof. unfold cleanable. apply _. Defined.

(** What the cleanup does to the file at [path]. *)
Definition cleaned (deletedUid now : string) (path : string) (f : VaultFile)
    : VaultFile :=
  match f with
  | NoteFile fm body =>
      if decide (cleanable deletedUid now path fm body)
      then NoteFile (without deletedUid now fm) body
      else f
  | Unreadable => Unreadable
  end.

(** The id of the note at a path when the cleanup has changed it. *)
Definition affected_at (deletedUid now : string) (vault : Vault) (path : string)
    : option string :=
  match vault !! path with
  | Some (NoteFile fm body) =>
      if decide (cleanable deletedUid now path fm body) then Some (id fm) else None
  | _ => None
  end.

(** The notes that the cleanup has changed, in listing order. *)
Definition affected (deletedUid now : string) (vault : Vault) : list string :=
  omap (affected_at deletedUid now vault) (listMarkdownFiles vault).

End Sync.

(** A file system on which every write succeeds. *)
Definition never_fails (note : MarkdownNote) : bool := false.

(** A file system on which the file n2.md cannot be written, and a vault
    with that file, which links to B. *)
Definition n2_fails (note : MarkdownNote) : bool :=
  String.eqb (filePath note) "/vault/n2.md".

(** A note N whose header lists B then A while its body names A then B. *)
Definition note_N : FrontMatter :=
  mkFrontMatter "N" "Note N" "Resources" [] None
    "2025-01-01T00:00:00.000Z" (Some "2025-01-01T00:00:00.000Z") ["B"; "A"].

Definition vault_N : Vault := {[ "/vault/n.md" := NoteFile note_N "[[A]] and [[B]]" ]}.

(** The analysis of N's body: the outbound links in the order of the body. *)
Definition analysis_N (note : MarkdownNote) (vault : Vault) : option LinkAnalysis :=
  Some (mkAnalysis ["A"; "B"] [] []).

(** A vault whose only note does not link to the deleted note. *)
Definition note_other : FrontMatter :=
  mkFrontMatter "note1" "Note 1" "Resources" [] None
    "2025-01-01T00:00:00.000Z" (Some "2025-01-01T00:00:00.000Z") ["other-link"].

Definition vault_other : Vault := {[ "/vault/note1.md" := NoteFile note_other "text" ]}.

Definition vault_n2 : Vault := {[ "/vault/n2.md" := NoteFile note_N "see B" ]}.

(* ---------- facts: per-note sync ---------- *)

Lemma findNoteByUid_loaded uid vault note :
  findNoteByUid uid vault = Some note ->
  loadNote vault (filePath note) = Some note /\ id (frontMatter note) = uid.
Proof.
  unfold findNoteByUid. intros H%head_Some_elem_of.
  apply list_elem_of_omap in H as (path & _ & H).
  destruct (loadNote vault path) as [n|] eqn:Hload; [|done].
  destruct (decide (id (frontMatter n) = uid)); [|done].
  injection H as ->. split; [|done].
  unfold loadNote in *. destruct (vault !! path) as [[fm body|]|] eqn:Hp; [|done..].
  injection Hload as <-. cbn [filePath]. by rewrite Hp.
Qed.

Section SyncFacts.

Variable analyzeLinks : MarkdownNote -> Vault -> option LinkAnalysis.
Variable save_fails : MarkdownNote -> bool.

(** C2 (as amended).  For a note N of the vault, after
    [syncBacklinksForNote(N.uid)] has completed successfully the header
    [links] of N's file is the list of outbound uids analysed from N (so
    the two sets are equal) and the body is untouched; the file is written
    back exactly when the header list and the analysed list differ as
    sequences, and the vault is left unchanged when they are the same
    list. *)
Theorem syncBacklinksForNote_links uid now vault note vault' events :
  findNoteByUid uid vault = Some note ->
  syncBacklinksForNote analyzeLinks save_fails uid now vault = inr (vault', events) ->
  exists analysis note',
    analyzeLinks note vault = Some analysis /\
    loadNote vault' (filePath note) = Some note' /\
    content note' = content note /\
    id (frontMatter note') = uid /\
    links (frontMatter note') = outboundLinks analysis /\
    (list_to_set (links (frontMatter note')) : gset string)
      = list_to_set (outboundLinks analysis) /\
    (links (frontMatter note) = outboundLinks analysis -> vault' = vault) /\
    (links (frontMatter note) <> outboundLinks analysis ->
       saveNote save_fails vault
         (withFrontMatter note
            (updateFrontMatter (frontMatter note) (outboundLinks analysis) now))
       = Some vault' /\
       vault' = stored vault
                  (withFrontMatter note
                     (updateFrontMatter (frontMatter note)
                        (outboundLinks analysis) now))).
Proof.
  intros Hfind. unfold syncBacklinksForNote. rewrite Hfind.
  destruct (findNoteByUid_loaded _ _ _ Hfind) as [Hload Hid].
  destruct (analyzeLinks note vault) as [analysis|]; [|done].
  cbn [links updateFrontMatter].
  destruct (decide (links (frontMatter note) <> outboundLinks analysis)) as [Hne|He].
  - destruct (saveNote save_fails vault _) as [v|] eqn:Hsave; [|done].
    intros [= <- <-]. pose proof Hsave as Hv. unfold saveNote in Hv.
    destruct (save_fails _); [done|]. injection Hv as <-.
    eexists analysis, _. split; [done|].
    split; [unfold loadNote, stored; cbn; by rewrite lookup_insert_eq|].
    cbn. repeat split; try done.
  - intros [= <- <-]. apply dec_stable in He.
    exists analysis, note. rewrite <- He. repeat split; try done.
Qed.

End SyncFacts.

Lemma findNoteByUid_N :
  findNoteByUid "N" vault_N = Some (mkNote "/vault/n.md" note_N "[[A]] and [[B]]").
Proof.
  unfold findNoteByUid, listMarkdownFiles, vault_N.
  rewrite map_to_list_singleton. cbn [fmap list_fmap fst omap list_omap].
  unfold loadNote. rewrite lookup_singleton_eq. reflexivity.
Qed.

Lemma syncBacklinksForNote_links_witness :
  exists analysis note',
    analysis_N (mkNote "/vault/n.md" note_N "[[A]] and [[B]]") vault_N = Some analysis /\
    loadNote
      (stored vault_N
         (withFrontMatter (mkNote "/vault/n.md" note_N "[[A]] and [[B]]")
            (updateFrontMatter note_N ["A"; "B"] "2025-02-01T00:00:00.000Z")))
      "/vault/n.md" = Some note' /\
    links (frontMatter note') = outboundLinks analysis.
Proof.
  destruct (syncBacklinksForNote_links analysis_N never_fails "N"
              "2025-02-01T00:00:00.000Z"
              vault_N (mkNote "/vault/n.md" note_N "[[A]] and [[B]]")
              (stored vault_N
                 (withFrontMatter (mkNote "/vault/n.md" note_N "[[A]] and [[B]]")
                    (updateFrontMatter note_N ["A"; "B"] "2025-02-01T00:00:00.000Z")))
              [mkEvent update "N" ["A"; "B"] "2025-02-01T00:00:00.000Z"]
              findNoteByUid_N)
    as (analysis & note' & Ha & Hl & _ & _ & Hlinks & _).
  - unfold syncBacklinksForNote. rewrite findNoteByUid_N. reflexivity.
  - exists analysis, note'. by repeat split.
Defined.

(** C2, counterexample: the header links of N and the links analysed from
    its body are the same set, and the sync still writes the file back
    (with the links reordered and [updated] refreshed). *)
Lemma syncBacklinksForNote_rewrites_equal_sets :
  (list_to_set (links note_N) : gset string) = list_to_set ["A"; "B"] /\
  exists vault' events,
    syncBacklinksForNote analysis_N never_fails "N" "2025-02-01T00:00:00.000Z" vault_N
      = inr (vault', events) /\
    vault' !! "/vault/n.md" <> vault_N !! "/vault/n.md".
Proof.
  split; [cbn; set_solver|].
  eexists _, _. split.
  - unfold syncBacklinksForNote. rewrite findNoteByUid_N. reflexivity.
  - unfold stored, vault_N. cbn [filePath withFrontMatter].
    rewrite lookup_insert_eq, lookup_singleton_eq. discriminate.
Qed.

(* ---------- facts: cleanup after a deletion ---------- *)

Lemma filter_out_length (deletedUid : string) (l : list string) :
  length l <> length (filter (fun link => link <> deletedUid) l) <-> deletedUid ∈ l.
Proof.
  induction l as [|x l IH]; [split; [done | by intros ?%elem_of_nil]|].
  rewrite filter_cons, elem_of_cons.
  pose proof (length_filter (fun link => link <> deletedUid) l) as Hle.
  destruct (decide (x <> deletedUid)) as [Hx|Hx]; cbn [length].
  - split.
    + intros H. right. apply IH. lia.
    + intros [->|H%IH]; [done | lia].
  - apply dec_stable in Hx. split; [auto | lia].
Qed.

Lemma filter_out_not_elem_of (deletedUid : string) (l : list string) :
  deletedUid ∉ filter (fun link => link <> deletedUid) l.
Proof. intros [H _]%list_elem_of_filter. by apply H. Qed.

Section CleanupFacts.

Variable save_fails : MarkdownNote -> bool.

Local Abbreviation cleanupFile := (cleanupFile save_fails).
Local Abbreviation cleaned := (cleaned save_fails).
Local Abbreviation affected_at := (affected_at save_fails).
Local Abbreviation affected := (affected save_fails).
Local Abbreviation cleanable := (cleanable save_fails).

(** One path of the loop: the file at the path is cleaned, the other files
    are untouched, and the note's id is recorded when it was changed. *)
Lemma cleanupFile_spec deletedUid now vault affectedNotes path :
  let result := cleanupFile deletedUid now (vault, affectedNotes) path in
  result.1 !! path = cleaned deletedUid now path <$> vault !! path /\
  (forall other, other <> path -> result.1 !! other = vault !! other) /\
  result.2 = (affectedNotes ++ option_list (affected_at deletedUid now vault path))%list.
Proof.
  cbv zeta. unfold Backlink.cleanupFile, loadNote, Backlink.affected_at.
  destruct (vault !! path) as [[fm body|]|] eqn:Hp;
    cbn [fmap option_fmap option_map Backlink.cleaned];
    try (cbn [fst snd option_list]; rewrite Hp, app_nil_r; done).
  cbn [frontMatter].
  destruct (decide (length (links fm)
                    <> length (filter (fun link => link <> deletedUid) (links fm))))
    as [Hlen|Hlen].
  - apply filter_out_length in Hlen. unfold saveNote, withFrontMatter.
    cbn [filePath content]. fold (without deletedUid now fm).
    destruct (save_fails (mkNote path (without deletedUid now fm) body)) eqn:Hsave.
    + rewrite !decide_False by (intros [_ ?]; congruence).
      cbn. by rewrite Hp, app_nil_r.
    + rewrite !decide_True by done. unfold stored. cbn.
      split; [by rewrite lookup_insert_eq|]. split; [|done].
      intros other Hne. by rewrite lookup_insert_ne.
  - rewrite filter_out_length in Hlen.
    rewrite !decide_False by (intros [? _]; done).
    cbn. rewrite Hp, app_nil_r. done.
Qed.

Lemma foldl_cleanupFile_spec deletedUid now paths : forall vault affectedNotes,
  NoDup paths ->
  let result := foldl (cleanupFile deletedUid now) (vault, affectedNotes) paths in
  (forall path,
     result.1 !! path =
     if decide (path ∈ paths) then cleaned deletedUid now path <$> vault !! path
     else vault !! path) /\
  result.2 = (affectedNotes ++ omap (affected_at deletedUid now vault) paths)%list.
Proof.
  induction paths as [|p paths IH]; intros vault affectedNotes Hnd; cbv zeta.
  { cbn. split; [|by rewrite app_nil_r]. intros path.
    by rewrite decide_False by apply not_elem_of_nil. }
  apply NoDup_cons in Hnd as [Hp Hnd]. cbn [foldl].
  destruct (cleanupFile_spec deletedUid now vault affectedNotes p) as (H1 & H2 & H3).
  destruct (cleanupFile deletedUid now (vault, affectedNotes) p) as [vault1 affected1].
  cbn [fst snd] in H1, H2, H3.
  destruct (IH vault1 affected1 Hnd) as [IH1 IH2]. split.
  - intros path. rewrite IH1.
    destruct (decide (path = p)) as [->|Hne].
    + rewrite decide_False by done. rewrite decide_True by (apply elem_of_cons; by left).
      done.
    + rewrite (H2 path Hne).
      destruct (decide (path ∈ paths)) as [Hin|Hin].
      * rewrite decide_True by (apply elem_of_cons; by right). done.
      * rewrite decide_False; [done|]. by intros [?|?]%elem_of_cons.
  - rewrite IH2, H3, <- app_assoc. f_equal. cbn [omap list_omap].
    assert (Hext : omap (affected_at deletedUid now vault1) paths
                   = omap (affected_at deletedUid now vault) paths).
    { apply list_omap_ext. apply Forall2_same_length_lookup_2; [done|].
      intros i x y Hx Hy. assert (x = y) as -> by congruence.
      unfold Backlink.affected_at. rewrite H2; [done|].
      intros ->. apply Hp. by eapply list_elem_of_lookup_2. }
    rewrite Hext. by destruct (affected_at deletedUid now vault p).
Qed.

(** C5 (as amended).  For every uid d, the cleanup removes d from the
    header links of every note of the vault that contains it and can be
    written back (and touches no other file: a note whose save fails
    keeps d); it emits exactly one BacklinkSync event, of type remove,
    with target d and the list of the notes it has changed, when it has
    changed at least one note, and no event when it has changed none. *)
Theorem cleanupBacklinksForDeletedNote_spec deletedUid now vault :
  let result := cleanupBacklinksForDeletedNote save_fails deletedUid now vault in
  (forall path, result.1 !! path = cleaned deletedUid now path <$> vault !! path) /\
  (forall path note,
     loadNote result.1 path = Some note ->
     deletedUid ∈ links (frontMatter note) ->
     loadNote vault path = Some note /\
     save_fails (mkNote path (without deletedUid now (frontMatter note)) (content note))
     = true) /\
  (forall uid,
     uid ∈ affected deletedUid now vault <->
     exists path fm body,
       vault !! path = Some (NoteFile fm body) /\
       deletedUid ∈ links fm /\
       save_fails (mkNote path (without deletedUid now fm) body) = false /\
       id fm = uid) /\
  result.2 =
    match affected deletedUid now vault with
    | [] => []
    | _ :: _ => [mkEvent remove deletedUid (affected deletedUid now vault) now]
    end.
Proof.
  cbv zeta. unfold cleanupBacklinksForDeletedNote.
  pose proof (foldl_cleanupFile_spec deletedUid now (listMarkdownFiles vault) vault []
                (NoDup_fst_map_to_list vault)) as [H1 H2].
  destruct (foldl (cleanupFile deletedUid now) (vault, []) (listMarkdownFiles vault))
    as [vault' affectedNotes].
  cbn [fst snd] in *. rewrite app_nil_l in H2. fold (affected deletedUid now vault) in H2.
  assert (Hv : forall path,
            vault' !! path = cleaned deletedUid now path <$> vault !! path).
  { intros path. rewrite H1.
    destruct (decide (path ∈ listMarkdownFiles vault)) as [|Hnot]; [done|].
    destruct (vault !! path) as [f|] eqn:Hp; [|done].
    exfalso. apply Hnot. unfold listMarkdownFiles.
    apply list_elem_of_fmap. exists (path, f). split; [done|].
    by apply elem_of_map_to_list. }
  split; [exact Hv|]. split; [|split].
  - intros path note. unfold loadNote. rewrite Hv.
    destruct (vault !! path) as [[fm body|]|]; cbn; try done.
    destruct (decide (cleanable deletedUid now path fm body)) as [Hc|Hc].
    + intros [= <-]. cbn. by intros ?%filter_out_not_elem_of.
    + intros [= <-]. cbn. intros Hd. split; [done|].
      destruct (save_fails (mkNote path (without deletedUid now fm) body)) eqn:E; [done|].
      by destruct Hc.
  - intros uid. unfold Backlink.affected. rewrite list_elem_of_omap. split.
    + intros (path & _ & H). unfold Backlink.affected_at in H.
      destruct (vault !! path) as [[fm body|]|] eqn:Hp; try done.
      destruct (decide (cleanable deletedUid now path fm body)) as [[Hd Hs]|]; [|done].
      injection H as <-. by exists path, fm, body.
    + intros (path & fm & body & Hp & Hd & Hs & <-). exists path. split.
      * unfold listMarkdownFiles. apply list_elem_of_fmap.
        exists (path, NoteFile fm body). split; [done|]. by apply elem_of_map_to_list.
      * unfold Backlink.affected_at. rewrite Hp. by rewrite decide_True.
  - rewrite H2. by destruct (affected deletedUid now vault).
Qed.

End CleanupFacts.

(** C5, counterexample: no note of the vault contains the deleted uid, and
    the cleanup emits no event (not one event with an empty list). *)
Lemma cleanupBacklinksForDeletedNote_no_event :
  (cleanupBacklinksForDeletedNote never_fails "deleted-note-id"
     "2025-02-01T00:00:00.000Z" vault_other).2 = [] /\
  (cleanupBacklinksForDeletedNote never_fails "deleted-note-id"
     "2025-02-01T00:00:00.000Z" vault_other).2
  <> [mkEvent remove "deleted-note-id" [] "2025-02-01T00:00:00.000Z"].
Proof.
  assert (H : (cleanupBacklinksForDeletedNote never_fails "deleted-note-id"
                 "2025-02-01T00:00:00.000Z" vault_other).2 = []).
  { unfold cleanupBacklinksForDeletedNote, listMarkdownFiles, vault_other.
    rewrite map_to_list_singleton. cbn [fmap list_fmap fst foldl].
    unfold cleanupFile, loadNote. rewrite lookup_singleton_eq. reflexivity. }
  split; [exact H|]. rewrite H. discriminate.
Qed.

(** A note whose save fails keeps the deleted uid and raises no event. *)
Example cleanupBacklinksForDeletedNote_save_fails :
  cleanupBacklinksForDeletedNote n2_fails "B" "2025-02-01T00:00:00.000Z" vault_n2
  = (vault_n2, []).
Proof.
  unfold cleanupBacklinksForDeletedNote, listMarkdownFiles, vault_n2.
  rewrite map_to_list_singleton. cbn [fmap list_fmap fst foldl].
  unfold cleanupFile, loadNote. rewrite lookup_singleton_eq. reflexivity.
Qed.

End Backlink.

(** ** Further string primitives: searching, replacing, slicing, sets *)

Module JsString.
Import Js.

(** [String.prototype.startsWith] *)
Definition startsWith (s p : string) : bool := String.prefix p s.

(** [String.prototype.includes] *)
Fixpoint includes (s sub : string) : bool :=
  String.prefix sub s ||
  match s with
  | "" => false
  | String _ s' => includes s' sub
  end.

(** Every character of [s] satisfies [p]. *)
Fixpoint all_chars (p : ascii -> bool) (s : string) : bool :=
  match s with
  | "" => true
  | String c s' => p c && all_chars p s'
  end.

(** [s.replace(/[class]/g, r)]: every character of the class becomes [r]. *)
Fixpoint replace_each (p : ascii -> bool) (r : ascii) (s : string) : string :=
  match s with
  | "" => ""
  | String c s' => String (if p c then r else c) (replace_each p r s')
  end.

(** [s.replace(/[class]+/g, r)]: every maximal run of characters of the
    class becomes one [r].  [in_run] tells that the previous character was
    in the class. *)
Fixpoint replace_runs (p : ascii -> bool) (r : ascii) (in_run : bool) (s : string)
    : string :=
  match s with
  | "" => ""
  | String c s' =>
      if p c
      then if in_run then replace_runs p r true s'
           else String r (replace_runs p r true s')
      else String c (replace_runs p r false s')
  end.

(** The first character of [s] satisfies [p]. *)
Definition starts_in (p : ascii -> bool) (s : string) : bool :=
  match s with
  | "" => false
  | String c _ => p c
  end.

(** Two neighbouring characters of [s] both satisfy [p]. *)
Fixpoint adjacent (p : ascii -> bool) (s : string) : bool :=
  match s with
  | "" => false
  | String a s' => (p a && starts_in p s') || adjacent p s'
  end.

(** The longest prefix of [s] whose characters satisfy [p], and the rest. *)
Fixpoint span (p : ascii -> bool) (s : string) : string * string :=
  match s with
  | "" => ("", "")
  | String c s' =>
      if p c then let '(a, b) := span p s' in (String c a, b) else ("", s)
  end.

(** [Set.prototype.add] on the insertion-ordered elements of a set. *)
Definition set_add (acc : list string) (x : string) : list string :=
  if decide (x ∈ acc) then acc else acc ++ [x].

(** [Array.from(new Set(l))], [[...new Set(l)]]. *)
Definition array_from_set (l : list string) : list string := foldl set_add [] l.

(** [ToIntegerOrInfinity] on a finite number: truncation towards zero. *)
Definition ToIntegerOrInfinity (x : Q) : Z :=
  if Qle_bool 0 x then Qfloor x else Qceiling x.

(** A string as the engine holds it, where a function counts or cuts
    characters: the sequence of its UTF-16 code units. *)
Definition code_units : Type := list N.

(** The code units of a string of ASCII characters. *)
Fixpoint units_of (s : string) : code_units :=
  match s with
  | "" => []
  | String c s' => N_of_ascii c :: units_of s'
  end.

(** [String.prototype.slice(start, end)]. *)
Definition slice (s : code_units) (start end_ : Q) : code_units :=
  let len := Z.of_nat (length s) in
  let relative x :=
    let i := ToIntegerOrInfinity x in
    if i <? 0 then Z.max (len + i) 0 else Z.min i len in
  let from := relative start in
  let to := relative end_ in
  take (Z.to_nat (to - from)) (drop (Z.to_nat from) s).

(** [sub] occurs in [s]. *)
Definition occurs (sub s : string) : Prop :=
  exists pre post, s = pre ++ sub ++ post.

(* ---------- facts ---------- *)

Lemma prefix_empty s : String.prefix "" s = true.
Proof. destruct s; reflexivity. Qed.

Lemma prefix_cons c p a s :
  String.prefix (String c p) (String a s) = (c =? a)%char && String.prefix p s.
Proof.
  cbn [String.prefix]. destruct (Ascii.ascii_dec c a) as [->|Hne].
  - rewrite Ascii.eqb_refl. reflexivity.
  - destruct (Ascii.eqb_spec c a); [contradiction|reflexivity].
Qed.

Lemma prefix_char c s :
  String.prefix (String c "") s
  = match s with String a _ => (c =? a)%char | "" => false end.
Proof.
  destruct s as [|a s]; [reflexivity|].
  rewrite prefix_cons, prefix_empty. apply andb_true_r.
Qed.

(** A string holds the character [c] exactly when not all of its
    characters differ from [c]. *)
Lemma includes_char s c :
  includes s (String c "") = negb (all_chars (fun a => negb (a =? c)%char) s).
Proof.
  induction s as [|a s IH].
  - reflexivity.
  - cbn [includes all_chars]. rewrite prefix_char, IH, Ascii.eqb_sym.
    destruct (a =? c)%char; reflexivity.
Qed.

Lemma includes_pair s c :
  includes s (String c (String c "")) = adjacent (fun a => (a =? c)%char) s.
Proof.
  induction s as [|a s IH]; [reflexivity|].
  cbn [includes adjacent]. rewrite IH, prefix_cons, prefix_char.
  rewrite (Ascii.eqb_sym a c). destruct s as [|b s]; [reflexivity|].
  cbn [starts_in]. by rewrite (Ascii.eqb_sym b c).
Qed.

Lemma all_chars_replace_each p r q s :
  q r = true -> (forall c, p c = false -> q c = true) ->
  all_chars q (replace_each p r s) = true.
Proof.
  intros Hr Hq. induction s as [|c s IH]; [reflexivity|].
  cbn [replace_each all_chars]. rewrite IH, andb_true_r.
  destruct (p c) eqn:E; auto.
Qed.

Lemma all_chars_replace_runs p r q b s :
  q r = true -> all_chars q s = true -> all_chars q (replace_runs p r b s) = true.
Proof.
  intros Hr. revert b. induction s as [|c s IH]; intros b; [reflexivity|].
  cbn [replace_runs all_chars]. intros [Hc Hs]%andb_true_iff.
  destruct (p c); [destruct b|]; cbn [all_chars]; rewrite ?Hr, ?Hc, ?IH; auto.
Qed.

Lemma replace_runs_no_adjacent p r b s :
  p r = true ->
  adjacent p (replace_runs p r b s) = false /\
  (b = true -> starts_in p (replace_runs p r b s) = false).
Proof.
  intros Hr. revert b. induction s as [|c s IH]; intros b; [by split|].
  cbn [replace_runs]. destruct (p c) eqn:Hc.
  - destruct (IH true) as [IH1 IH2]. destruct b.
    + split; [exact IH1 | intros _; by apply IH2].
    + split; [|discriminate].
      cbn [adjacent]. by rewrite IH1, (IH2 eq_refl), andb_false_r.
  - destruct (IH false) as [IH1 _]. split.
    + cbn [adjacent]. by rewrite Hc, IH1.
    + intros _. exact Hc.
Qed.

Lemma replace_each_id p r s :
  all_chars (fun c => negb (p c)) s = true -> replace_each p r s = s.
Proof.
  induction s as [|c s IH]; [reflexivity|].
  cbn [all_chars replace_each]. intros [Hc Hs]%andb_true_iff.
  apply negb_true_iff in Hc. rewrite Hc, IH; auto.
Qed.

Lemma replace_runs_id c b s :
  adjacent (fun a => (a =? c)%char) s = false ->
  (b = true -> starts_in (fun a => (a =? c)%char) s = false) ->
  replace_runs (fun a => (a =? c)%char) c b s = s.
Proof.
  revert b. induction s as [|a s IH]; intros b Hadj Hb; [reflexivity|].
  cbn [replace_runs]. cbn [adjacent] in Hadj.
  apply orb_false_iff in Hadj as [H1 H2].
  destruct (Ascii.eqb_spec a c) as [->|Hne].
  - destruct b; [specialize (Hb eq_refl); cbn in Hb; by rewrite Ascii.eqb_refl in Hb|].
    f_equal. apply IH; [exact H2|]. intros _. exact H1.
  - f_equal. apply IH; [exact H2 | discriminate].
Qed.

Lemma all_chars_app p a b :
  all_chars p (a ++ b) = all_chars p a && all_chars p b.
Proof.
  induction a as [|c a IH]; [reflexivity|].
  rewrite append_cons. cbn [all_chars]. by rewrite IH, andb_assoc.
Qed.

Lemma span_app p s g rest : span p s = (g, rest) -> s = g ++ rest.
Proof.
  revert g rest. induction s as [|c s IH]; intros g rest; cbn [span].
  - by intros [= <- <-].
  - destruct (p c).
    + destruct (span p s) as [a b]. intros [= <- <-]. rewrite append_cons.
      f_equal. by apply IH.
    + by intros [= <- <-].
Qed.

Lemma append_assoc (a b c : string) : (a ++ b) ++ c = a ++ b ++ c.
Proof.
  induction a as [|x a IH]; [reflexivity|]. by rewrite !append_cons, IH.
Qed.

Lemma append_empty_r (a : string) : a ++ "" = a.
Proof.
  induction a as [|x a IH]; [reflexivity|]. by rewrite append_cons, IH.
Qed.

Lemma occurs_trans a b c : occurs a b -> occurs b c -> occurs a c.
Proof.
  intros (p1 & q1 & ->) (p2 & q2 & ->).
  exists (p2 ++ p1), (q1 ++ q2). by rewrite !append_assoc.
Qed.

Lemma occurs_cons c sub s : occurs sub s -> occurs sub (String c s).
Proof. intros (p & q & ->). by exists (String c p), q. Qed.

Lemma trimStart_suffix s : exists pre, s = pre ++ trimStart s.
Proof.
  induction s as [s _ -> _ | w r Hw [pre IH]] using white_space_ind; [by exists ""|].
  exists (w ++ pre). rewrite trimStart_white by done. by rewrite append_assoc, <- IH.
Qed.

Lemma trimEnd_prefix s :
  exists post, s = trimEnd s ++ post /\ all_white_space post = true.
Proof.
  induction s as [|c s (post & IH & Hpost)]; [by exists ""|].
  cbn [trimEnd]. destruct (all_white_space (String c s)) eqn:E.
  - by exists (String c s).
  - exists post. rewrite append_cons. by rewrite <- IH.
Qed.

Lemma trim_occurs s : occurs (trim s) s.
Proof.
  unfold trim. destruct (trimStart_suffix s) as [pre Hpre].
  destruct (trimEnd_prefix (trimStart s)) as (post & Hpost & _).
  exists pre, post. by rewrite <- Hpost.
Qed.

Lemma all_white_space_app a b :
  all_white_space a = true -> all_white_space b = true ->
  all_white_space (a ++ b) = true.
Proof.
  rewrite !all_white_space_blank. intros Ha Hb.
  induction Ha as [|w s Hw _ IH]; [done|]. rewrite append_assoc. by constructor.
Qed.

Lemma trimEnd_idem s : trimEnd (trimEnd s) = trimEnd s.
Proof.
  induction s as [|c s IH]; [reflexivity|].
  cbn [trimEnd]. destruct (all_white_space (String c s)) eqn:E; [reflexivity|].
  cbn [trimEnd]. rewrite IH.
  destruct (all_white_space (String c (trimEnd s))) eqn:E'; [|reflexivity].
  destruct (trimEnd_prefix s) as (post & Hs & Hpost).
  rewrite Hs, <- append_cons, all_white_space_app in E; done.
Qed.

Lemma trimStart_head_free s : head_free (trimStart s).
Proof.
  induction s as [s H -> _ | w r Hw IH] using white_space_ind; [done|].
  by rewrite trimStart_white.
Qed.

Lemma trimStart_free s : head_free s -> trimStart s = s.
Proof.
  intros H. destruct (white_space_head s) as [(w & r & Hw & ->) | (_ & E & _)]; [|done].
  by destruct (H w r Hw).
Qed.

Lemma trim_head_free s : head_free (trim s).
Proof.
  unfold trim. destruct (trimEnd_prefix (trimStart s)) as (post & Hs & _).
  intros w r Hw E. apply (trimStart_head_free s w (r ++ post) Hw).
  by rewrite Hs at 1; rewrite E, append_assoc.
Qed.

(** Trimming a trimmed string changes nothing. *)
Lemma trim_idem s : trim (trim s) = trim s.
Proof.
  unfold trim. rewrite (trimStart_free (trimEnd (trimStart s))); [apply trimEnd_idem|].
  apply trim_head_free.
Qed.

(** What [trimEnd] keeps does not end in white space. *)
Lemma trimEnd_tail s a b :
  trimEnd s = a ++ b -> all_white_space b = true -> b = "".
Proof.
  revert a. induction s as [|c s IH]; intros a.
  - cbn [trimEnd]. destruct a, b; done.
  - cbn [trimEnd]. destruct (all_white_space (String c s)) eqn:E.
    + destruct a, b; done.
    + destruct a as [|x a].
      * rewrite append_nil. intros <- Hb. exfalso.
        destruct (trimEnd_prefix s) as (post & Hs & Hpost).
        rewrite Hs, <- append_cons in E.
        by rewrite (all_white_space_app _ _ Hb Hpost) in E.
      * rewrite append_cons. intros [= _ H] Hb. by apply (IH a).
Qed.

Lemma trim_tail_free s : tail_free (trim s).
Proof.
  intros w r Hw E. unfold trim in E.
  assert (all_white_space w = true) as Hall.
  { rewrite <- (append_empty_r w). by rewrite all_white_space_white. }
  apply (trimEnd_tail _ r w) in E; [|done].
  apply white_space_character_length in Hw. rewrite E in Hw. cbn in Hw. lia.
Qed.

Lemma set_add_NoDup acc x : NoDup acc -> NoDup (set_add acc x).
Proof.
  intros H. unfold set_add. destruct (decide (x ∈ acc)); [exact H|].
  apply NoDup_app. split; [exact H|]. split.
  - intros y Hy Hx. apply list_elem_of_singleton in Hx as ->. contradiction.
  - apply NoDup_singleton.
Qed.

Lemma array_from_set_acc_NoDup acc l : NoDup acc -> NoDup (foldl set_add acc l).
Proof.
  revert acc. induction l as [|x l IH]; intros acc H; [exact H|].
  cbn. apply IH. by apply set_add_NoDup.
Qed.

Lemma array_from_set_NoDup l : NoDup (array_from_set l).
Proof. apply array_from_set_acc_NoDup. constructor. Qed.

Lemma set_add_elem_of acc x y : y ∈ set_add acc x <-> y ∈ acc \/ y = x.
Proof.
  unfold set_add. destruct (decide (x ∈ acc)).
  - split; [by left|]. intros [H| ->]; done.
  - rewrite elem_of_app, list_elem_of_singleton. reflexivity.
Qed.

Lemma array_from_set_acc_elem_of acc l y :
  y ∈ foldl set_add acc l <-> y ∈ acc \/ y ∈ l.
Proof.
  revert acc. induction l as [|x l IH]; intros acc; cbn.
  - rewrite elem_of_nil. tauto.
  - rewrite IH, set_add_elem_of, elem_of_cons. tauto.
Qed.

Lemma array_from_set_elem_of l y : y ∈ array_from_set l <-> y ∈ l.
Proof.
  unfold array_from_set. rewrite array_from_set_acc_elem_of, elem_of_nil. tauto.
Qed.

Lemma length_substring n m s :
  (String.length (String.substring n m s) <= m)%nat.
Proof.
  revert n m. induction s as [|c s IH]; intros n m.
  - destruct n, m; cbn; lia.
  - destruct n as [|n].
    + destruct m as [|m]; cbn; [lia|]. specialize (IH 0%nat m). lia.
    + cbn. apply IH.
Qed.

Lemma ToIntegerOrInfinity_nonneg x :
  (0 <= x)%Q -> ToIntegerOrInfinity x = Qfloor x /\ 0 <= Qfloor x.
Proof.
  intros H. unfold ToIntegerOrInfinity.
  rewrite (proj2 (Qle_bool_iff 0 x) H). split; [reflexivity|].
  apply (Qfloor_resp_le 0 x H).
Qed.

(** A slice whose bounds are at most [m] apart holds at most [m] code
    units. *)
Lemma length_slice (s : code_units) (a b : Q) (m : Z) :
  (0 <= a)%Q -> (0 <= b)%Q -> (b <= a + inject_Z m)%Q -> 0 <= m ->
  Z.of_nat (length (slice s a b)) <= m.
Proof.
  intros Ha Hb Hab Hm. unfold slice.
  destruct (ToIntegerOrInfinity_nonneg a Ha) as [-> Hfa].
  destruct (ToIntegerOrInfinity_nonneg b Hb) as [-> Hfb].
  destruct (Z.ltb_spec (Qfloor a) 0) as [?|_]; [lia|].
  destruct (Z.ltb_spec (Qfloor b) 0) as [?|_]; [lia|].
  set (len := Z.of_nat (length s)).
  rewrite length_take.
  assert (Qfloor b < Qfloor a + 1 + m) as Hfl.
  { assert (inject_Z (Qfloor b) < inject_Z (Qfloor a + 1) + inject_Z m)%Q as HQ.
    { pose proof (Qfloor_le b) as H1. pose proof (Qlt_floor a) as H2.
      apply Qle_lt_trans with b; [exact H1|].
      apply Qle_lt_trans with (a + inject_Z m)%Q; [exact Hab|].
      apply Qplus_lt_le_compat; [exact H2 | apply Qle_refl]. }
    rewrite <- inject_Z_plus in HQ. unfold Qlt, inject_Z in HQ.
    cbn [Qnum Qden] in HQ. lia. }
  assert (0 <= len) by (unfold len; lia).
  lia.
Qed.

Lemma slice_whole (s : code_units) (m : Z) :
  Z.of_nat (length s) <= m -> slice s 0 (inject_Z m) = s.
Proof.
  intros H. unfold slice, ToIntegerOrInfinity.
  assert (0 <= inject_Z m)%Q as HmQ.
  { unfold Qle, inject_Z. cbn [Qnum Qden]. lia. }
  rewrite (proj2 (Qle_bool_iff 0 (inject_Z m)) HmQ), Qfloor_Z.
  change (Qle_bool 0 0) with true. change (Qfloor 0) with 0.
  destruct (Z.ltb_spec m 0) as [?|_]; [lia|].
  change (0 <? 0) with false. cbv zeta.
  rewrite (Z.min_l 0) by lia. rewrite (Z.min_r m) by lia.
  rewrite Z.sub_0_r, Nat2Z.id. cbn [Z.to_nat drop]. by apply take_ge.
Qed.

End JsString.

(** ** packages/common/src/utils.ts: paths, links, snippets and sizes *)

Module Text.
Import Js JsString.

Definition is_backslash (c : ascii) : bool := (c =? "\")%char.
Definition is_slash (c : ascii) : bool := (c =? "/")%char.

(** [normalizePath]: [filePath.replace(/\\/g, '/').replace(/\/+/g, '/')]. *)
Definition normalizePath (filePath : string) : string :=
  replace_runs is_slash "/" false (replace_each is_backslash "/" filePath).

(** The class [[^/.]] of the extension pattern. *)
Definition is_ext_char (c : ascii) : bool :=
  negb (c =? "/")%char && negb (c =? ".")%char.

(** [removeExtension]: [filePath.replace(/\.[^/.]+$/, '')].  The pattern
    is tried at every position from the left; it matches at a dot that is
    followed, up to the end of the string, by one or more characters other
    than [/] and [.]. *)
Fixpoint removeExtension (filePath : string) : string :=
  match filePath with
  | "" => ""
  | String c rest =>
      if (c =? ".")%char && negb (rest =? "")%string && all_chars is_ext_char rest
      then ""
      else String c (removeExtension rest)
  end.

Definition not_char (x c : ascii) : bool := negb (c =? x)%char.

(** A match of [/\[\[([^\]]+)\]\]/] at the start of [s]: group 1 and the
    length of the match.  The class cannot take a [[]]], so the greedy
    group is the whole run and giving characters back never helps. *)
Definition match_wiki (s : string) : option (string * nat) :=
  match s with
  | String "[" (String "[" r) =>
      let '(g, rest) := span (not_char "]") r in
      match g, rest with
      | String _ _, String "]" (String "]" _) => Some (g, (4 + String.length g)%nat)
      | _, _ => None
      end
  | _ => None
  end.

(** A match of [/\[([^\]]+)\]\(([^)]+)\)/] at the start of [s]: group 2
    and the length of the match. *)
Definition match_md (s : string) : option (string * nat) :=
  match s with
  | String "[" r =>
      let '(g1, rest1) := span (not_char "]") r in
      match g1, rest1 with
      | String _ _, String "]" (String "(" r2) =>
          let '(g2, rest2) := span (not_char ")") r2 in
          match g2, rest2 with
          | String _ _, String ")" _ =>
              Some (g2, (4 + String.length g1 + String.length g2)%nat)
          | _, _ => None
          end
      | _, _ => None
      end
  | _ => None
  end.

(** [Array.from(content.matchAll(re))] as the list of captured groups:
    the pattern [m] is tried at every position from the left, and the
    search resumes behind a match ([skip] characters of the current match
    are still to be passed). *)
Fixpoint matchAll (m : string -> option (string * nat)) (skip : nat) (s : string)
    : list string :=
  match s with
  | "" => []
  | String _ s' =>
      match skip with
      | S k => matchAll m k s'
      | O =>
          match m s with
          | Some (g, n) => g :: matchAll m (n - 1) s'
          | None => matchAll m 0 s'
          end
      end
  end.

(** [.map(match => match[i]?.trim()).filter(Boolean)] *)
Definition trimmed_groups (groups : list string) : list string :=
  filter (fun link => link <> "") (map Js.trim groups).

(** [parseMarkdownLinks]. *)
Definition parseMarkdownLinks (content : string) : list string :=
  let wikiLinks := trimmed_groups (matchAll match_wiki 0 content) in
  let mdLinks := trimmed_groups (matchAll match_md 0 content) in
  array_from_set (wikiLinks ++ mdLinks).

(** What the two regular-expression calls of [createSnippet] see of
    [new RegExp(query, 'gi')] on [content]: the constructor throws on an
    invalid pattern; otherwise [content.match] is [null] exactly when
    [content.search] is [-1], and [search] gives the index of the first
    match. *)
Inductive RegExpSearch :=
| SyntaxError
| NoMatch
| MatchAt (matchIndex : nat).

(** The three full stops ['...']. *)
Definition ellipsis : code_units := [46; 46; 46]%N.

Section Snippet.

Variable RegExp_search : code_units -> code_units -> RegExpSearch.

(** [createSnippet(content, query, maxLength)]; [None] when the pattern is
    rejected.  Lengths and indices count UTF-16 code units. *)
Definition createSnippet (content query : code_units) (maxLength : Z)
    : option code_units :=
  let len := Z.of_nat (length content) in
  match RegExp_search query content with
  | SyntaxError => None
  | NoMatch =>
      Some (slice content 0 (inject_Z maxLength)
            ++ (if maxLength <? len then ellipsis else []))%list
  | MatchAt matchIndex =>
      let start := Qmax 0 (inject_Z (Z.of_nat matchIndex) - inject_Z maxLength / 2) in
      let end_ := Qmin (inject_Z len) (start + inject_Z maxLength) in
      let snippet := slice content start end_ in
      let snippet :=
        if negb (Qle_bool start 0) then (ellipsis ++ snippet)%list else snippet in
      let snippet :=
        if negb (Qle_bool (inject_Z len) end_) then (snippet ++ ellipsis)%list
        else snippet in
      Some snippet
  end.

End Snippet.

(** [Number.prototype.toFixed(1)] on a finite number below [10^21]: the
    integer [n] nearest to [10 x] (the larger one on a tie) written with
    one digit behind the point, after the sign. *)
Definition toFixed1 (x : Q) : string :=
  let negative := negb (Qle_bool 0 x) in
  let n := Qfloor ((if negative then - x else x) * 10 + (1 # 2)) in
  (if negative then "-" else "")
  ++ Js.toString (n / 10) ++ "." ++ String (Js.digit_char (n mod 10)) "".

Definition units : list string := ["B"; "KB"; "MB"; "GB"].

(** The loop [while (size >= 1024 && unitIndex < units.length - 1)]:
    [unit] is [units[unitIndex]] and [larger] the units behind it. *)
Fixpoint scale (size : Q) (unit : string) (larger : list string) : Q * string :=
  match larger with
  | [] => (size, unit)
  | next :: larger' =>
      if Qle_bool 1024 size then scale (size / 1024) next larger' else (size, unit)
  end.

(** [formatFileSize(bytes)] for an integer number of bytes.  Dividing a
    double by 1024 only changes its exponent, so that [size] is exact for
    the integers that a double holds. *)
Definition formatFileSize (bytes : Z) : string :=
  let '(size, unit) := scale (inject_Z bytes) "B" ["KB"; "MB"; "GB"] in
  toFixed1 size ++ " " ++ unit.

(** The answers of the regular-expression engine for a pattern without
    special characters on a text in lower case: the first place where the
    pattern occurs. *)
Fixpoint is_prefix (p s : code_units) : bool :=
  match p, s with
  | [], _ => true
  | a :: p', b :: s' => (a =? b)%N && is_prefix p' s'
  | _ :: _, [] => false
  end.

Fixpoint literal_index (query content : code_units) : option nat :=
  match content with
  | [] => if is_prefix query [] then Some 0%nat else None
  | _ :: rest =>
      if is_prefix query content then Some 0%nat
      else S <$> literal_index query rest
  end.

Definition literal_search (query content : code_units) : RegExpSearch :=
  match literal_index query content with
  | Some matchIndex => MatchAt matchIndex
  | None => NoMatch
  end.

Definition sample_text : code_units :=
  units_of "the quick brown fox jumps over the lazy dog".

(** A text of five code units: [e] with an acute accent (U+00E9), a
    musical clef outside the basic plane (U+1D11E, two code units), and
    [ab]. *)
Definition accented_text : code_units := [233; 55348; 56606; 97; 98]%N.

(* ---------- facts ---------- *)

(** [normalizePath] returns a path without backslash and without two
    slashes in a row, and it leaves such a path alone: normalising twice is
    normalising once. *)
Theorem normalizePath_normal filePath :
  includes (normalizePath filePath) "\" = false /\
  includes (normalizePath filePath) "//" = false /\
  normalizePath (normalizePath filePath) = normalizePath filePath.
Proof.
  assert (Hb : all_chars (fun a => negb (a =? "\")%char) (normalizePath filePath) = true).
  { unfold normalizePath. apply all_chars_replace_runs; [reflexivity|].
    apply all_chars_replace_each; [reflexivity|].
    intros c Hc. unfold is_backslash in Hc. by rewrite Hc. }
  assert (Hs : adjacent (fun a => (a =? "/")%char) (normalizePath filePath) = false).
  { unfold normalizePath. by apply (replace_runs_no_adjacent is_slash "/" false). }
  split; [|split].
  - rewrite includes_char, Hb. reflexivity.
  - rewrite includes_pair. exact Hs.
  - unfold normalizePath at 1.
    rewrite (replace_each_id is_backslash); [|exact Hb].
    apply (replace_runs_id "/"); [exact Hs | discriminate].
Qed.

Lemma ext_blocked x y : all_chars is_ext_char (x ++ String "." y) = false.
Proof.
  rewrite all_chars_app. cbn [all_chars]. unfold is_ext_char at 2. cbn.
  by rewrite andb_false_r.
Qed.

(** A last component [.ext] is removed: for an extension that is not
    empty and holds neither [/] nor [.], the path [base.ext] becomes
    [base] (a dot file such as [.gitignore], with an empty base, becomes
    the empty string). *)
Theorem removeExtension_strips base ext :
  ext <> "" -> all_chars is_ext_char ext = true ->
  removeExtension (base ++ "." ++ ext) = base.
Proof.
  intros Hne Hext. induction base as [|c base IH].
  - rewrite append_nil, append_cons, append_nil.
    cbn [removeExtension]. rewrite Hext.
    destruct (String.eqb_spec ext ""); [contradiction|reflexivity].
  - rewrite append_cons. cbn [removeExtension].
    rewrite IH. rewrite (append_cons "." "" ext), append_nil.
    by rewrite ext_blocked, andb_false_r.
Qed.

Lemma removeExtension_strips_witness :
  removeExtension "notes/v1.2/plan.md" = "notes/v1.2/plan" /\
  removeExtension ".gitignore" = "".
Proof.
  split.
  - apply (removeExtension_strips "notes/v1.2/plan" "md"); [discriminate | reflexivity].
  - apply (removeExtension_strips "" "gitignore"); [discriminate | reflexivity].
Defined.

(** A path without a dot is returned unchanged. *)
Lemma removeExtension_no_dot s : includes s "." = false -> removeExtension s = s.
Proof.
  rewrite includes_char. intros H%negb_false_iff.
  induction s as [|c s IH]; [reflexivity|].
  cbn [all_chars] in H. apply andb_true_iff in H as [Hc Hs].
  cbn [removeExtension]. apply negb_true_iff in Hc. rewrite Hc. cbn.
  by rewrite IH.
Qed.

Lemma match_wiki_occurs s g n : match_wiki s = Some (g, n) -> occurs g s.
Proof.
  unfold match_wiki.
  destruct s as [|a s]; [discriminate|].
  destruct (Ascii.ascii_dec a "[") as [->|Ha].
  2:{ intros H. exfalso. revert H.
      destruct a as [[] [] [] [] [] [] [] []]; try discriminate. by destruct Ha. }
  destruct s as [|b r]; [discriminate|].
  destruct (Ascii.ascii_dec b "[") as [->|Hb].
  2:{ intros H. exfalso. revert H.
      destruct b as [[] [] [] [] [] [] [] []]; try discriminate. by destruct Hb. }
  destruct (span (not_char "]") r) as [g' rest] eqn:E.
  apply span_app in E as ->.
  destruct g' as [|x g']; [discriminate|].
  intros H. assert (g = String x g') as ->.
  { revert H. destruct rest as [|y [|z rest]]; try discriminate;
      destruct y as [[] [] [] [] [] [] [] []]; try discriminate;
      destruct z as [[] [] [] [] [] [] [] []]; try discriminate; congruence. }
  by exists "[[", rest.
Qed.

Lemma match_md_occurs s g n : match_md s = Some (g, n) -> occurs g s.
Proof.
  unfold match_md.
  destruct s as [|a r]; [discriminate|].
  destruct (Ascii.ascii_dec a "[") as [->|Ha].
  2:{ intros H. exfalso. revert H.
      destruct a as [[] [] [] [] [] [] [] []]; try discriminate. by destruct Ha. }
  destruct (span (not_char "]") r) as [g1 rest1] eqn:E1.
  apply span_app in E1 as ->.
  destruct g1 as [|x g1]; [discriminate|].
  destruct rest1 as [|y [|z r2]]; try discriminate.
  { destruct y as [[] [] [] [] [] [] [] []]; discriminate. }
  destruct (Ascii.ascii_dec y "]") as [->|Hy].
  2:{ intros H. exfalso. revert H.
      destruct y as [[] [] [] [] [] [] [] []]; try discriminate. by destruct Hy. }
  destruct (Ascii.ascii_dec z "(") as [->|Hz].
  2:{ intros H. exfalso. revert H.
      destruct z as [[] [] [] [] [] [] [] []]; try discriminate. by destruct Hz. }
  destruct (span (not_char ")") r2) as [g2 rest2] eqn:E2.
  apply span_app in E2 as ->.
  destruct g2 as [|u g2]; [discriminate|].
  destruct rest2 as [|v rest2]; [discriminate|].
  destruct (Ascii.ascii_dec v ")") as [->|Hv].
  2:{ intros H. exfalso. revert H.
      destruct v as [[] [] [] [] [] [] [] []]; try discriminate. by destruct Hv. }
  intros [= <- _].
  exists ("[" ++ String x g1 ++ "]("), (String ")" rest2).
  rewrite !append_assoc. reflexivity.
Qed.

Lemma matchAll_occurs m skip s g :
  (forall s g n, m s = Some (g, n) -> occurs g s) ->
  g ∈ matchAll m skip s -> occurs g s.
Proof.
  intros Hm. revert skip. induction s as [|c s IH]; intros skip; cbn [matchAll].
  - by intros ?%elem_of_nil.
  - destruct skip as [|k].
    + destruct (m (String c s)) as [[g' n]|] eqn:E.
      * intros [->|H]%elem_of_cons; [by eapply Hm|].
        apply occurs_cons. by eapply IH.
      * intros H. apply occurs_cons. by eapply IH.
    + intros H. apply occurs_cons. by eapply IH.
Qed.

Lemma trimmed_groups_elem_of groups link :
  link ∈ trimmed_groups groups ->
  link <> "" /\ exists g, g ∈ groups /\ link = Js.trim g.
Proof.
  unfold trimmed_groups. intros [Hne H]%list_elem_of_filter.
  split; [exact Hne|]. apply list_elem_of_fmap in H as (g & -> & Hg). by exists g.
Qed.

(** The links of a text come without repeats; each one is non-empty, has
    no white-space character (of Unicode, as [trim] removes them) at
    either end, so that trimming it changes nothing, and is a piece of the
    text. *)
Theorem parseMarkdownLinks_sound content :
  NoDup (parseMarkdownLinks content) /\
  forall link, link ∈ parseMarkdownLinks content ->
    link <> "" /\
    Js.head_free link /\ Js.tail_free link /\ Js.trim link = link /\
    exists before after, content = before ++ link ++ after.
Proof.
  split; [apply array_from_set_NoDup|].
  intros link Hl. unfold parseMarkdownLinks in Hl.
  apply array_from_set_elem_of, elem_of_app in Hl.
  assert (exists m,
    (forall s g n, m s = Some (g, n) -> occurs g s) /\
    link ∈ trimmed_groups (matchAll m 0 content)) as (m & Hm & H).
  { destruct Hl as [H|H].
    - exists match_wiki. split; [exact match_wiki_occurs | exact H].
    - exists match_md. split; [exact match_md_occurs | exact H]. }
  apply trimmed_groups_elem_of in H as (Hne & g & Hg & ->).
  split; [exact Hne|]. split; [apply trim_head_free|].
  split; [apply trim_tail_free|]. split; [apply trim_idem|].
  apply (occurs_trans _ g); [apply trim_occurs|].
  by eapply matchAll_occurs.
Qed.

Example parseMarkdownLinks_sample :
  parseMarkdownLinks "See [[ alpha ]] and [beta](notes/b.md), again [[alpha]] [x]()."
  = ["alpha"; "notes/b.md"].
Proof. vm_compute. reflexivity. Qed.

(** A no-break space (U+00A0) around a link is trimmed like a space. *)
Example parseMarkdownLinks_no_break_space :
  parseMarkdownLinks ("[[" ++ Para.nbsp ++ "alpha" ++ Para.nbsp ++ "]]") = ["alpha"].
Proof. vm_compute. reflexivity. Qed.

Section SnippetFacts.

Variable RegExp_search : code_units -> code_units -> RegExpSearch.

(** A snippet is never longer than [maxLength] plus the two ellipses,
    counted in UTF-16 code units as [length] does, and a text that fits
    and does not match the query is returned whole. *)
Theorem createSnippet_length content query maxLength snippet :
  0 <= maxLength ->
  createSnippet RegExp_search content query maxLength = Some snippet ->
  Z.of_nat (length snippet) <= maxLength + 6 /\
  (RegExp_search query content = NoMatch ->
   Z.of_nat (length content) <= maxLength -> snippet = content).
Proof.
  intros Hm. unfold createSnippet.
  set (len := Z.of_nat (length content)).
  assert (0 <= inject_Z maxLength)%Q as HmQ.
  { unfold Qle, inject_Z. cbn [Qnum Qden]. lia. }
  destruct (RegExp_search query content) as [| |matchIndex]; [discriminate| |].
  - intros [= <-]. split.
    + rewrite length_app.
      pose proof (length_slice content 0 (inject_Z maxLength) maxLength
                    (Qle_refl 0) HmQ) as H.
      assert (0 + inject_Z maxLength == inject_Z maxLength)%Q as E by ring.
      specialize (H (proj2 (Qle_lteq _ _) (or_intror (Qeq_sym _ _ E))) Hm).
      destruct (maxLength <? len); cbn [length ellipsis]; lia.
    + intros _ Hfit. destruct (Z.ltb_spec maxLength len) as [?|_]; [lia|].
      rewrite app_nil_r. by apply slice_whole.
  - set (start := Qmax 0 _). set (end_ := Qmin _ _).
    assert (0 <= start)%Q as Hs by apply Q.le_max_l.
    assert (0 <= end_)%Q as He.
    { apply Q.min_glb.
      - unfold Qle, inject_Z, len. cbn [Qnum Qden]. lia.
      - rewrite <- (Qplus_0_r 0). by apply Qplus_le_compat. }
    assert (end_ <= start + inject_Z maxLength)%Q as Hse by apply Q.le_min_r.
    pose proof (length_slice content start end_ maxLength Hs He Hse Hm) as H.
    intros [= <-]. split; [|discriminate].
    destruct (negb (Qle_bool start 0)), (negb (Qle_bool (inject_Z len) end_));
      rewrite ?length_app; cbn [length ellipsis]; lia.
Qed.

End SnippetFacts.

Lemma createSnippet_length_witness :
  Z.of_nat (length (units_of "...k brown fox jump...")) <= 16 + 6 /\
  (literal_search (units_of "fox") sample_text = NoMatch ->
   Z.of_nat (length sample_text) <= 16 ->
   units_of "...k brown fox jump..." = sample_text).
Proof.
  apply (createSnippet_length literal_search sample_text (units_of "fox") 16); [lia|].
  vm_compute. reflexivity.
Defined.

(** Characters are cut by code unit: three units of the accented text are
    [e] with its accent and the two halves of the clef. *)
Example createSnippet_code_units :
  createSnippet literal_search accented_text (units_of "zz") 3
  = Some [233; 55348; 56606; 46; 46; 46]%N.
Proof. vm_compute. reflexivity. Qed.

Lemma Qle_bool_1024 b d : Qle_bool 1024 (b # d) = (1024 * Zpos d <=? b).
Proof. unfold Qle_bool. cbn [Qnum Qden]. by rewrite Z.mul_1_r. Qed.

Lemma Qdiv_1024 b d : ((b # d) / 1024 = (b # d * 1024))%Q.
Proof. unfold Qdiv, Qmult. cbn. by rewrite Z.mul_1_r. Qed.

(** The digits [toFixed(1)] prints for a non-negative ratio. *)
Lemma toFixed1_ratio b d :
  0 <= b ->
  exists n,
    toFixed1 (b # d)
    = Js.toString (n / 10) ++ "." ++ String (Js.digit_char (n mod 10)) "" /\
    20 * b - Zpos d < 2 * n * Zpos d <= 20 * b + Zpos d.
Proof.
  intros Hb. unfold toFixed1.
  assert (Qle_bool 0 (b # d) = true) as ->.
  { unfold Qle_bool. cbn [Qnum Qden]. apply Z.leb_le. lia. }
  cbn [negb]. eexists. split; [reflexivity|].
  unfold Qfloor, Qmult, Qplus. cbn [Qnum Qden].
  set (D := Zpos d).
  replace (Zpos (d * 1 * 2)) with (2 * D) by (unfold D; lia).
  replace (Zpos (d * 1)) with D by (unfold D; lia).
  assert (0 < 2 * D) as HD by (unfold D; lia).
  pose proof (Z.mul_div_le (b * 10 * 2 + 1 * D) (2 * D) HD).
  pose proof (Z.mul_succ_div_gt (b * 10 * 2 + 1 * D) (2 * D) HD).
  lia.
Qed.

(** [formatFileSize], on a byte count that is a safe integer, picks the
    largest unit, up to GB, that the count reaches, and prints the count
    in that unit rounded to one decimal (a tie goes up): for the unit
    [1024 ^ k] it prints the digits
    of [n / 10] with [20 bytes - 1024 ^ k < 2 n 1024 ^ k <= 20 bytes +
    1024 ^ k]. *)
Theorem formatFileSize_spec bytes :
  0 <= bytes < 2 ^ 53 ->
  exists (k : nat) (n : Z),
    formatFileSize bytes
    = Js.toString (n / 10) ++ "." ++ String (Js.digit_char (n mod 10)) ""
      ++ " " ++ nth k units "" /\
    (k <= 3)%nat /\
    (k = 0%nat \/ 1024 ^ Z.of_nat k <= bytes) /\
    (k = 3%nat \/ bytes < 1024 ^ (Z.of_nat k + 1)) /\
    20 * bytes - 1024 ^ Z.of_nat k < 2 * n * 1024 ^ Z.of_nat k
      <= 20 * bytes + 1024 ^ Z.of_nat k.
Proof.
  intros [Hb _]. unfold formatFileSize, inject_Z. cbn [scale].
  rewrite Qle_bool_1024.
  destruct (Z.leb_spec (1024 * 1) bytes) as [H1|H1].
  2:{ destruct (toFixed1_ratio bytes 1 Hb) as (n & -> & Hn).
      exists 0%nat, n. rewrite !append_assoc.
      split; [reflexivity|]. split; [lia|]. split; [by left|].
      split; [right; cbn; lia|]. cbn. lia. }
  rewrite Qdiv_1024, Qle_bool_1024.
  destruct (Z.leb_spec (1024 * Zpos (1 * 1024)) bytes) as [H2|H2].
  2:{ destruct (toFixed1_ratio bytes (1 * 1024) Hb) as (n & -> & Hn).
      exists 1%nat, n. rewrite !append_assoc.
      split; [reflexivity|]. split; [lia|]. split; [right; cbn; lia|].
      split; [right; cbn; lia|]. cbn. lia. }
  rewrite Qdiv_1024, Qle_bool_1024.
  destruct (Z.leb_spec (1024 * Zpos (1 * 1024 * 1024)) bytes) as [H3|H3].
  2:{ destruct (toFixed1_ratio bytes (1 * 1024 * 1024) Hb) as (n & -> & Hn).
      exists 2%nat, n. rewrite !append_assoc.
      split; [reflexivity|]. split; [lia|]. split; [right; cbn; lia|].
      split; [right; cbn; lia|]. cbn. lia. }
  rewrite Qdiv_1024.
  destruct (toFixed1_ratio bytes (1 * 1024 * 1024 * 1024) Hb) as (n & -> & Hn).
  exists 3%nat, n. rewrite !append_assoc.
  split; [reflexivity|]. split; [lia|]. split; [right; cbn; lia|].
  split; [by left|]. cbn. lia.
Qed.

Lemma formatFileSize_spec_witness :
  exists (k : nat) (n : Z),
    formatFileSize 1536
    = Js.toString (n / 10) ++ "." ++ String (Js.digit_char (n mod 10)) ""
      ++ " " ++ nth k units "" /\
    (k <= 3)%nat /\
    (k = 0%nat \/ 1024 ^ Z.of_nat k <= 1536) /\
    (k = 3%nat \/ 1536 < 1024 ^ (Z.of_nat k + 1)) /\
    20 * 1536 - 1024 ^ Z.of_nat k < 2 * n * 1024 ^ Z.of_nat k
      <= 20 * 1536 + 1024 ^ Z.of_nat k.
Proof. apply (formatFileSize_spec 1536). split; [lia | reflexivity]. Defined.

Example formatFileSize_samples :
  formatFileSize 0 = "0.0 B" /\
  formatFileSize 1023 = "1023.0 B" /\
  formatFileSize 1536 = "1.5 KB" /\
  formatFileSize 1048575 = "1024.0 KB" /\
  formatFileSize (5 * 1024 ^ 4) = "5120.0 GB".
Proof. vm_compute. repeat split. Qed.

End Text.

(** ** packages/storage-md/src/para-manager.ts: directory and file names *)

Module ParaNames.
Import JsString.

(** The character class of [sanitizeDirName], the characters that file
    systems reserve: [<], [>], [:], the double quote, [/], [\], [|], [?]
    and [*]. *)
Definition is_reserved (c : N) : bool :=
  existsb (N.eqb c) [60; 62; 58; 34; 47; 92; 124; 63; 42]%N.

(** The class [\s] of a regular expression: the white space and the line
    terminators of ECMAScript (tab to carriage return, space, U+00A0,
    U+1680, U+2000 to U+200A, U+2028, U+2029, U+202F, U+205F, U+3000 and
    U+FEFF). *)
Definition is_space (c : N) : bool :=
  existsb (N.eqb c)
    [9; 10; 11; 12; 13; 32; 160; 5760; 8232; 8233; 8239; 8287; 12288; 65279]%N
  || ((8192 <=? c)%N && (c <=? 8202)%N).

Definition dash : N := 45%N.

Definition is_dash (c : N) : bool := (c =? dash)%N.

(** [s.replace(/[class]/g, '-')]: every code unit of the class becomes a
    dash. *)
Definition replace_each (p : N -> bool) (s : code_units) : code_units :=
  map (fun c => if p c then dash else c) s.

(** [s.replace(/[class]+/g, '-')]: every maximal run of code units of the
    class becomes one dash.  [in_run] tells that the previous code unit was
    in the class. *)
Fixpoint replace_runs (p : N -> bool) (in_run : bool) (s : code_units) : code_units :=
  match s with
  | [] => []
  | c :: s' =>
      if p c
      then if in_run then replace_runs p true s'
           else dash :: replace_runs p true s'
      else c :: replace_runs p false s'
  end.

(** The alternative [-$] of [/^-|-$/g] behind the first code unit: a dash
    that ends the string is dropped. *)
Fixpoint drop_last_dash (s : code_units) : code_units :=
  match s with
  | [] => []
  | [c] => if is_dash c then [] else s
  | c :: s' => c :: drop_last_dash s'
  end.

(** [s.replace(/^-|-$/g, '')]: at the first code unit only [^-] can
    match, behind it only [-$]. *)
Definition strip_dashes (s : code_units) : code_units :=
  match s with
  | [] => []
  | c :: rest => if is_dash c then drop_last_dash rest else drop_last_dash s
  end.

(** [sanitizeDirName]; [substring(0, 50)] keeps the first 50 code
    units. *)
Definition sanitizeDirName (name : code_units) : code_units :=
  take 50
    (strip_dashes
       (replace_runs is_dash false
          (replace_runs is_space false
             (replace_each is_reserved name)))).

(** [generateFileName]. *)
Definition generateFileName (title : code_units) : code_units :=
  (sanitizeDirName title ++ units_of ".md")%list.

(** Two neighbouring code units of [s] both satisfy [p]. *)
Fixpoint adjacent (p : N -> bool) (s : code_units) : bool :=
  match s with
  | [] => false
  | a :: s' =>
      (p a && match s' with b :: _ => p b | [] => false end) || adjacent p s'
  end.

(** The first code unit of [s] satisfies [p]. *)
Definition starts_in (p : N -> bool) (s : code_units) : bool :=
  match s with
  | [] => false
  | c :: _ => p c
  end.

(* ---------- facts ---------- *)

Lemma Forall_replace_each p (Q : N -> Prop) s :
  Q dash -> (forall c, p c = false -> Q c) -> Forall Q (replace_each p s).
Proof.
  intros Hd HQ. unfold replace_each. apply Forall_fmap, Forall_forall.
  intros c _. cbn. destruct (p c) eqn:E; auto.
Qed.

Lemma Forall_replace_runs p (Q : N -> Prop) b s :
  Q dash -> Forall Q s -> Forall Q (replace_runs p b s).
Proof.
  intros Hd H. revert b. induction H as [|c s Hc _ IH]; intros b; [constructor|].
  cbn [replace_runs]. destruct (p c); [destruct b|]; auto.
Qed.

Lemma Forall_not_replace_runs p b s :
  p dash = false -> Forall (fun c => p c = false) (replace_runs p b s).
Proof.
  intros Hd. revert b. induction s as [|c s IH]; intros b; [constructor|].
  cbn [replace_runs]. destruct (p c) eqn:Hc; [destruct b|]; auto.
Qed.

Lemma starts_in_replace_runs p b s :
  p dash = true -> starts_in p (replace_runs p b s) = true -> b = false.
Proof.
  intros Hd. revert b. induction s as [|c s IH]; intros b; [done|].
  cbn [replace_runs]. destruct (p c) eqn:Hc.
  - destruct b; [|done]. intros H. by apply IH in H.
  - cbn [starts_in]. congruence.
Qed.

Lemma no_adjacent_replace_runs p b s :
  p dash = true -> adjacent p (replace_runs p b s) = false.
Proof.
  intros Hd. revert b. induction s as [|c s IH]; intros b; [done|].
  cbn [replace_runs]. destruct (p c) eqn:Hc.
  - destruct b; [apply IH|]. cbn [adjacent]. rewrite IH, Hd, orb_false_r.
    cbn [andb].
    destruct (replace_runs p true s) as [|x t] eqn:E; [done|].
    destruct (p x) eqn:Hx; [|done].
    assert (starts_in p (replace_runs p true s) = true) as H by (by rewrite E).
    by apply starts_in_replace_runs in H.
  - cbn [adjacent]. by rewrite IH, Hc.
Qed.

Lemma drop_last_dash_cons c a s :
  drop_last_dash (c :: a :: s) = c :: drop_last_dash (a :: s).
Proof. reflexivity. Qed.

Lemma Forall_drop_last_dash (Q : N -> Prop) s :
  Forall Q s -> Forall Q (drop_last_dash s).
Proof.
  induction 1 as [|c s Hc Hs IH]; [constructor|].
  destruct s as [|a s].
  - cbn. destruct (is_dash c); by repeat constructor.
  - rewrite drop_last_dash_cons. by constructor.
Qed.

Lemma starts_in_drop_last_dash p s :
  starts_in p s = false -> starts_in p (drop_last_dash s) = false.
Proof.
  destruct s as [|c [|a s]]; [done| |done].
  cbn. by destruct (is_dash c).
Qed.

Lemma adjacent_drop_last_dash p s :
  adjacent p s = false -> adjacent p (drop_last_dash s) = false.
Proof.
  induction s as [|c s IH]; [done|].
  destruct s as [|a s].
  - cbn. by destruct (is_dash c).
  - rewrite drop_last_dash_cons. cbn [adjacent].
    intros [H1 H2]%orb_false_iff. rewrite (IH H2), orb_false_r.
    apply andb_false_iff in H1 as [H1|H1]; [by rewrite H1|].
    pose proof (starts_in_drop_last_dash p (a :: s) H1) as H.
    destruct (drop_last_dash (a :: s)) as [|x t]; [apply andb_false_r|].
    cbn [starts_in] in H. by rewrite H, andb_false_r.
Qed.

Lemma Forall_strip_dashes (Q : N -> Prop) s :
  Forall Q s -> Forall Q (strip_dashes s).
Proof.
  destruct s as [|c s]; [done|]. unfold strip_dashes.
  destruct (is_dash c).
  - intros [_ Hs]%Forall_cons. by apply Forall_drop_last_dash.
  - apply Forall_drop_last_dash.
Qed.

Lemma adjacent_strip_dashes p s :
  adjacent p s = false -> adjacent p (strip_dashes s) = false.
Proof.
  destruct s as [|c s]; [done|]. unfold strip_dashes.
  destruct (is_dash c).
  - cbn [adjacent]. intros [_ Hs]%orb_false_iff. by apply adjacent_drop_last_dash.
  - apply adjacent_drop_last_dash.
Qed.

Lemma starts_in_strip_dashes s :
  adjacent is_dash s = false -> starts_in is_dash (strip_dashes s) = false.
Proof.
  destruct s as [|c s]; [done|]. unfold strip_dashes.
  destruct (is_dash c) eqn:Hc.
  - cbn [adjacent]. rewrite Hc. intros [H _]%orb_false_iff.
    apply starts_in_drop_last_dash. by destruct s.
  - intros _. apply starts_in_drop_last_dash. exact Hc.
Qed.

Lemma starts_in_take p n s :
  starts_in p s = false -> starts_in p (take n s) = false.
Proof. destruct s as [|c s], n; done. Qed.

Lemma adjacent_take p n s :
  adjacent p s = false -> adjacent p (take n s) = false.
Proof.
  revert n. induction s as [|c s IH]; intros [|n]; try done.
  cbn [take adjacent]. intros [H1 H2]%orb_false_iff.
  rewrite (IH n H2), orb_false_r.
  apply andb_false_iff in H1 as [H1|H1]; [by rewrite H1|].
  destruct s as [|a s]; [by destruct n; rewrite andb_false_r|].
  destruct n; cbn [take]; [apply andb_false_r|]. by rewrite H1, andb_false_r.
Qed.

(** No two neighbours satisfy [p], read by position. *)
Lemma adjacent_lookup p s (i : nat) a b :
  adjacent p s = false ->
  s !! i = Some a -> s !! S i = Some b -> p a = true -> p b = false.
Proof.
  revert i. induction s as [|c s IH]; intros i; [done|].
  cbn [adjacent]. intros [H1 H2]%orb_false_iff.
  destruct i as [|i].
  - cbn. intros [= ->] Hb Ha. rewrite Ha in H1. cbn [andb] in H1.
    destruct s as [|x t]; [done|]. cbn in Hb. by injection Hb as ->.
  - cbn [lookup list_lookup]. intros Ha Hb. by apply (IH i).
Qed.

(** A sanitised name holds none of the reserved characters and no white
    space; no two dashes stand in a row; it does not begin with a dash and
    has at most 50 UTF-16 code units. *)
Theorem sanitizeDirName_safe name :
  Forall (fun c => is_reserved c = false) (sanitizeDirName name) /\
  Forall (fun c => is_space c = false) (sanitizeDirName name) /\
  (forall i : nat,
     sanitizeDirName name !! i = Some dash ->
     sanitizeDirName name !! S i <> Some dash) /\
  head (sanitizeDirName name) <> Some dash /\
  (length (sanitizeDirName name) <= 50)%nat.
Proof.
  unfold sanitizeDirName.
  set (s1 := replace_each is_reserved name).
  set (s2 := replace_runs is_space false s1).
  set (s3 := replace_runs is_dash false s2).
  assert (H1 : Forall (fun c => is_reserved c = false) s1).
  { by apply Forall_replace_each. }
  assert (H3a : Forall (fun c => is_reserved c = false) s3).
  { apply Forall_replace_runs; [done|]. by apply Forall_replace_runs. }
  assert (H3b : Forall (fun c => is_space c = false) s3).
  { apply Forall_replace_runs; [done|]. by apply Forall_not_replace_runs. }
  assert (H3c : adjacent is_dash s3 = false).
  { by apply no_adjacent_replace_runs. }
  split; [|split; [|split; [|split]]].
  - by apply Forall_take, Forall_strip_dashes.
  - by apply Forall_take, Forall_strip_dashes.
  - intros i Ha Hb.
    pose proof (adjacent_lookup is_dash _ i dash dash
                  (adjacent_take is_dash 50 _ (adjacent_strip_dashes _ _ H3c))
                  Ha Hb) as H.
    by specialize (H eq_refl).
  - pose proof (starts_in_take is_dash 50 _ (starts_in_strip_dashes s3 H3c)) as H.
    destruct (take 50 (strip_dashes s3)) as [|a t]; [done|].
    cbn [starts_in] in H. cbn. intros [= ->]. done.
  - rewrite length_take. lia.
Qed.

Example sanitizeDirName_samples :
  sanitizeDirName (units_of "  My: Project / v2?  ") = units_of "My-Project-v2" /\
  sanitizeDirName (units_of "???") = [] /\
  generateFileName (units_of "a  -  b") = units_of "a-b.md".
Proof. vm_compute. repeat split. Qed.

(** White space of Unicode is replaced as the space is (here a no-break
    space, U+00A0, and an em space, U+2003), and a character outside the
    basic plane counts as its two code units. *)
Example sanitizeDirName_unicode :
  sanitizeDirName [77; 160; 8195; 121]%N = units_of "M-y" /\
  length (sanitizeDirName (concat (replicate 30 [55357; 56832]%N))) = 50%nat.
Proof. vm_compute. repeat split. Qed.

End ParaNames.

(** ** link-graph: what the traversal returns is reachable *)

Module Reachability.
Import JsArray LinkGraph.

(** A link of the table leads from [u] to [v] in the direction of the
    traversal. *)
Definition edge (db : Database) (direction : Direction) (u v : string) : Prop :=
  exists l, l ∈ links db /\
    ((direction <> incoming /\ sourceUid l = u /\ targetUid l = v) \/
     (direction <> outgoing /\ targetUid l = u /\ sourceUid l = v)).

(** A chain of [n] links from [u] to [v]. *)
Inductive chain (db : Database) (direction : Direction) : nat -> string -> string -> Prop :=
| chain_O u : chain db direction 0 u u
| chain_S n u v w :
    chain db direction n u v -> edge db direction v w ->
    chain db direction (S n) u w.

(** What the traversal guarantees of a returned node. *)
Record node_sound (db : Database) (maxDepth : nat) (direction : Direction)
    (startUid : string) (node : LinkGraphNode) : Prop := mkSound {
  sound_start : id node <> startUid;
  sound_depth : (1 <= depth node <= maxDepth)%nat;
  sound_score : score node = level_score (depth node);
  sound_chain : chain db direction (depth node) startUid (id node);
  sound_row :
    exists row, row ∈ notes db /\ n_uid row = id node /\
      title node = n_title row /\ category node = n_category row /\
      filePath node = n_file_path row /\ node_links node = []
}.

(** The invariant of the loop of [findConnectedNotes]. *)
Record traversal_inv (db : Database) (maxDepth : nat) (direction : Direction)
    (startUid : string) (st : State) : Prop := mkInv {
  inv_start : startUid ∈ visitedNodes st;
  inv_queue :
    Forall (fun it => item_ok it /\
                      chain db direction (currentDepth it) startUid (q_uid it))
           (queue st);
  inv_keys : keys_visited (visitedNodes st) (resultNodes st);
  inv_nodup : NoDup (resultNodes st).*1;
  inv_nodes :
    Forall (fun kv => id kv.2 = kv.1 /\
                      node_sound db maxDepth direction startUid kv.2)
           (resultNodes st)
}.

(* ---------- facts ---------- *)

Lemma getNodeInfo_Some db uid row :
  getNodeInfo db uid = Some row -> row ∈ notes db /\ n_uid row = uid.
Proof.
  unfold getNodeInfo. intros H%head_Some_elem_of.
  by apply list_elem_of_filter in H as [? ?].
Qed.

Lemma getConnectedUids_edge db uid direction x :
  x ∈ getConnectedUids db uid direction -> edge db direction uid x.
Proof.
  unfold getConnectedUids. intros H%dedupe_elem_of.
  apply elem_of_app in H as [H|H].
  - destruct direction; try (by apply elem_of_nil in H);
      apply list_elem_of_fmap in H as (l & -> & Hl);
      apply findOutboundLinks_elem_of in Hl as [Hl Hs];
      exists l; (split; [exact Hl|]); left; done.
  - destruct direction; try (by apply elem_of_nil in H);
      apply list_elem_of_fmap in H as (l & -> & Hl);
      apply findBacklinks_elem_of in Hl as [Hl Hs];
      exists l; (split; [exact Hl|]); right; done.
Qed.

Section Soundness.

Variable db : Database.
Variable maxDepth : nat.
Variable limit : nat.
Variable direction : Direction.
Variable startUid : string.

Local Abbreviation Inv := (traversal_inv db maxDepth direction startUid).

Lemma initial_inv : Inv (initial startUid).
Proof.
  split; cbn.
  - by apply elem_of_singleton.
  - constructor; [|constructor]. split; [reflexivity | constructor].
  - constructor.
  - constructor.
  - constructor.
Qed.

Lemma visit_inv item st connectedUid :
  item_ok item ->
  chain db direction (currentDepth item) startUid (q_uid item) ->
  (currentDepth item < maxDepth)%nat ->
  edge db direction (q_uid item) connectedUid ->
  Inv st -> Inv (visit db maxDepth item st connectedUid).
Proof.
  intros Hitem Hchain Hdepth Hedge [Hs Hq Hk Hn Hr]. unfold visit.
  destruct (decide (connectedUid ∈ visitedNodes st)) as [|Hfresh]; [by split|].
  assert (visitedNodes st ⊆ {[connectedUid]} ∪ visitedNodes st) as Hsub
    by apply union_subseteq_r.
  destruct (getNodeInfo db connectedUid) as [nodeInfo|] eqn:Hinfo.
  2:{ split; cbn; try done.
      - apply elem_of_union. by right.
      - by eapply keys_visited_mono. }
  apply getNodeInfo_Some in Hinfo as [Hrow Huid].
  set (node := mkNode _ _ _ _ _ _ _).
  assert (Hnode : id node = connectedUid /\
                  node_sound db maxDepth direction startUid node).
  { split; [exact Huid|]. split; cbn.
    - rewrite Huid. intros ->. contradiction.
    - lia.
    - by rewrite Hitem.
    - rewrite Huid. by econstructor.
    - by exists nodeInfo. }
  assert (Hset : map_set connectedUid node (resultNodes st)
                 = (resultNodes st ++ [(connectedUid, node)])%list)
    by (by eapply map_set_fresh).
  assert (Hk' : keys_visited ({[connectedUid]} ∪ visitedNodes st)
                  (map_set connectedUid node (resultNodes st))).
  { rewrite Hset. apply Forall_app. split; [by eapply keys_visited_mono|].
    constructor; [|constructor]. cbn. apply elem_of_union. left.
    by apply elem_of_singleton. }
  assert (Hn' : NoDup (map_set connectedUid node (resultNodes st)).*1).
  { rewrite Hset, fmap_app. apply NoDup_app. split; [exact Hn|]. split.
    - intros k Hk1 Hk2. cbn in Hk2. apply list_elem_of_singleton in Hk2 as ->.
      apply list_elem_of_fmap in Hk1 as ([k v] & -> & Hkv).
      apply (proj1 (Forall_forall _ _) Hk) in Hkv. contradiction.
    - cbn. apply NoDup_singleton. }
  assert (Hr' : Forall (fun kv => id kv.2 = kv.1 /\
                          node_sound db maxDepth direction startUid kv.2)
                  (map_set connectedUid node (resultNodes st))).
  { rewrite Hset. apply Forall_app. split; [exact Hr|]. by constructor. }
  destruct (S (currentDepth item) <? maxDepth)%nat; split; cbn; try done.
  - apply elem_of_union. by right.
  - apply Forall_app. split; [exact Hq|]. constructor; [|constructor]. cbn.
    split; [by unfold item_ok; cbn; rewrite Hitem | by econstructor].
  - apply elem_of_union. by right.
Qed.

Lemma foldl_visit_inv item uids st :
  item_ok item ->
  chain db direction (currentDepth item) startUid (q_uid item) ->
  (currentDepth item < maxDepth)%nat ->
  Forall (edge db direction (q_uid item)) uids ->
  Inv st -> Inv (foldl (visit db maxDepth item) st uids).
Proof.
  intros Hitem Hchain Hdepth Huids. revert st.
  induction Huids as [|u uids Hu _ IH]; intros st Hst; [exact Hst|].
  cbn. apply IH. by apply visit_inv.
Qed.

Lemma step_inv st : Inv st -> Inv (step db maxDepth direction st).
Proof.
  intros Hst. unfold step. destruct (queue st) as [|item rest] eqn:Hqueue; [exact Hst|].
  destruct Hst as [Hs Hq Hk Hn Hr]. rewrite Hqueue in Hq.
  apply Forall_cons in Hq as [[Hitem Hchain] Hrest].
  assert (Inv (mkState rest (visitedNodes st) (resultNodes st))) as Hst' by (by split).
  destruct (Nat.leb_spec maxDepth (currentDepth item)) as [|Hlt]; [exact Hst'|].
  apply foldl_visit_inv; try done.
  apply Forall_forall. intros u Hu. by apply getConnectedUids_edge.
Qed.

Lemma iterate_inv n st : Inv st -> Inv (iterate db maxDepth limit direction n st).
Proof.
  revert st. induction n as [|n IH]; intros st Hst; [exact Hst|].
  cbn. destruct (running limit st); [|exact Hst]. by apply IH, step_inv.
Qed.

End Soundness.

Lemma by_score_desc_total a b :
  Qle_bool (by_score_desc a b) 0 = false -> Qle_bool (by_score_desc b a) 0 = true.
Proof.
  unfold by_score_desc. intros H. apply Qle_bool_iff.
  destruct (Qle_bool (score b - score a) 0) eqn:E; [discriminate|].
  assert (~ (score b - score a <= 0)%Q) as Hn.
  { intros Hle. apply Qle_bool_iff in Hle. congruence. }
  apply Qnot_le_lt in Hn. lra.
Qed.

Lemma by_score_desc_trans a b c :
  Qle_bool (by_score_desc a b) 0 = true -> Qle_bool (by_score_desc b c) 0 = true ->
  Qle_bool (by_score_desc a c) 0 = true.
Proof.
  unfold by_score_desc. rewrite !Qle_bool_iff. lra.
Qed.

(** The nodes that [findConnectedNotes] returns, as the loop built them. *)
Lemma findConnectedNotes_results db startUid options :
  let maxDepth := default 2%nat (opt_depth options) in
  let direction := default both (opt_direction options) in
  let result := findConnectedNotes db startUid options in
  Forall (node_sound db maxDepth direction startUid) result /\
  NoDup (map id result) /\
  StronglySorted (fun a b => (score b <= score a)%Q) result.
Proof.
  cbv zeta. unfold findConnectedNotes.
  set (maxDepth := default 2%nat (opt_depth options)).
  set (limit := default 100%nat (opt_limit options)).
  set (direction := default both (opt_direction options)).
  set (st := iterate db maxDepth limit direction _ _).
  assert (Hst : traversal_inv db maxDepth direction startUid st).
  { apply iterate_inv, initial_inv. }
  destruct Hst as [_ _ _ Hn Hr]. unfold finish, slice0, sort.
  set (sorted := stable_sort _ (map snd (resultNodes st))).
  assert (Hperm : sorted ≡ₚ map snd (resultNodes st))
    by apply stable_sort_Permutation.
  assert (Hsub : sublist (take limit sorted) sorted) by apply sublist_take.
  split; [|split].
  - apply Forall_forall. intros node Hnode.
    apply take_elem_of in Hnode. rewrite Hperm in Hnode.
    apply list_elem_of_fmap in Hnode as ([k v] & -> & Hkv).
    by apply (proj1 (Forall_forall _ _) Hr) in Hkv as [_ ?].
  - eapply sublist_NoDup; [|apply fmap_sublist; exact Hsub].
    change (NoDup (map id sorted)). rewrite Hperm.
    assert (map id (map snd (resultNodes st)) = (resultNodes st).*1) as ->; [|exact Hn].
    clear -Hr. induction Hr as [|[k v] t [Hid _] _ IH]; [reflexivity|].
    cbn in *. by rewrite Hid, IH.
  - assert (StronglySorted (fun a b => Qle_bool (by_score_desc a b) 0 = true) sorted)
      as Hsorted.
    { apply stable_sort_sorted; [apply by_score_desc_total | apply by_score_desc_trans]. }
    assert (StronglySorted (fun a b => (score b <= score a)%Q) sorted) as Hs.
    { clear -Hsorted. induction Hsorted as [|x l _ IH Hx]; constructor; [exact IH|].
      eapply Forall_impl; [exact Hx|]. intros y Hy. cbn in Hy.
      apply Qle_bool_iff in Hy. unfold by_score_desc in Hy. lra. }
    generalize limit. clear -Hs.
    induction Hs as [|x l Hl IH Hx]; intros [|n]; cbn;
      try constructor; [apply IH|].
    apply Forall_forall. intros y Hy. apply take_elem_of in Hy.
    by apply (proj1 (Forall_forall _ _) Hx).
Qed.

Lemma level_score_pos c : (0 < level_score c)%Q.
Proof.
  induction c as [|c IH]; cbn [level_score]; [reflexivity|].
  apply Qmult_lt_0_compat; [exact IH|].
  apply Qpower_0_lt. reflexivity.
Qed.

Lemma pow7_lt_1 c : (1 <= c)%nat -> (Qpower (7 # 10) (Z.of_nat c) < 1)%Q.
Proof.
  intros H. destruct c as [|c]; [lia|].
  rewrite Nat2Z.inj_succ. unfold Z.succ.
  rewrite Qpower_plus by (intros E; discriminate E).
  change (Qpower (7 # 10) 1) with (7 # 10).
  pose proof (pow7_range c). lra.
Qed.

Lemma level_score_S_lt c : (1 <= c)%nat -> (level_score (S c) < level_score c)%Q.
Proof.
  intros H. cbn [level_score].
  pose proof (level_score_pos c) as Hp. pose proof (pow7_lt_1 c H) as Hq.
  rewrite <- (Qmult_1_r (level_score c)) at 2.
  apply Qmult_lt_l; [exact Hp | exact Hq].
Qed.

Lemma level_score_strict c c' :
  (1 <= c < c')%nat -> (level_score c' < level_score c)%Q.
Proof.
  intros [H1 H2]. induction H2 as [|c' Hle IH].
  - by apply level_score_S_lt.
  - eapply Qlt_trans; [apply level_score_S_lt; lia | exact IH].
Qed.

(** The nodes returned have distinct ids, and the start note is never
    among them, whatever the depth. *)
Theorem findConnectedNotes_distinct db startUid options :
  NoDup (map id (findConnectedNotes db startUid options)) /\
  Forall (fun node => id node <> startUid) (findConnectedNotes db startUid options).
Proof.
  destruct (findConnectedNotes_results db startUid options) as (Hs & Hn & _).
  split; [exact Hn|]. eapply Forall_impl; [exact Hs|]. by intros node [].
Qed.

(** Every node returned lies between one link and [depth] links away
    from the start (two by default). *)
Theorem findConnectedNotes_depth_range db startUid options :
  Forall (fun node => (1 <= depth node <= default 2 (opt_depth options))%nat)
         (findConnectedNotes db startUid options).
Proof.
  destruct (findConnectedNotes_results db startUid options) as (Hs & _ & _).
  eapply Forall_impl; [exact Hs|]. by intros node [_ Hd _ _ _].
Qed.

(** The result lists nearer nodes first: the distances from the start
    never decrease along it. *)
Theorem findConnectedNotes_nearest_first db startUid options :
  StronglySorted (fun a b => (depth a <= depth b)%nat)
    (findConnectedNotes db startUid options).
Proof.
  destruct (findConnectedNotes_results db startUid options) as (Hs & _ & Hsorted).
  induction Hsorted as [|a l _ IH Ha]; constructor.
  - apply IH. by apply Forall_cons in Hs as [_ ?].
  - apply Forall_cons in Hs as [[_ Hda Hsa _ _] Hl].
    apply Forall_forall. intros b Hb.
    pose proof (proj1 (Forall_forall _ _) Ha b Hb) as Hle.
    pose proof (proj1 (Forall_forall _ _) Hl b Hb) as [_ Hdb Hsb _ _].
    cbn in Hle. rewrite Hsa, Hsb in Hle.
    destruct (Nat.le_gt_cases (depth a) (depth b)) as [|Hgt]; [done|].
    pose proof (level_score_strict (depth b) (depth a) ltac:(lia)) as Hlt.
    exfalso. by apply (Qlt_not_le _ _ Hlt).
Qed.

(** Every node returned is reached from the start by a chain of links of
    the table, followed in the direction asked for, whose length is the
    node's depth. *)
Theorem findConnectedNotes_reachable db startUid options :
  Forall (fun node =>
            chain db (default both (opt_direction options)) (depth node)
              startUid (id node))
         (findConnectedNotes db startUid options).
Proof.
  destruct (findConnectedNotes_results db startUid options) as (Hs & _ & _).
  eapply Forall_impl; [exact Hs|]. by intros node [].
Qed.

(** Every node returned is a row of table [notes]: it carries the row's
    uid, title, category and path, and an empty [links] list. *)
Theorem findConnectedNotes_rows db startUid options :
  Forall (fun node =>
            exists row, row ∈ notes db /\ n_uid row = id node /\
              title node = n_title row /\ category node = n_category row /\
              filePath node = n_file_path row /\ node_links node = [])
         (findConnectedNotes db startUid options).
Proof.
  destruct (findConnectedNotes_results db startUid options) as (Hs & _ & _).
  eapply Forall_impl; [exact Hs|]. by intros node [].
Qed.

End Reachability.

(** ** link-graph: writing and deleting the links of a note, orphans *)

Module LinkStore.
Import JsArray LinkGraph Reachability.

(** The primary key of table [links]: source, target and link type. *)
Definition link_key (l : LinkRelation) : string * string * string :=
  (sourceUid l, targetUid l, linkType l).

(** [INSERT OR REPLACE INTO links]: a row with the same primary key is
    deleted, and the new row is added. *)
Definition insert_or_replace (row : LinkRelation) (table : list LinkRelation)
    : list LinkRelation :=
  filter (fun l => link_key l <> link_key row) table ++ [row].

(** [DELETE FROM links WHERE source_uid = @source_uid] *)
Definition delete_outbound (source : string) (table : list LinkRelation)
    : list LinkRelation :=
  filter (fun l => sourceUid l <> source) table.

(** [DELETE FROM links WHERE target_uid = ?] *)
Definition delete_inbound (target : string) (table : list LinkRelation)
    : list LinkRelation :=
  filter (fun l => targetUid l <> target) table.

Section Store.

(** The regular-expression engine: the number of matches of the escaped
    uid between word boundaries (flags [gi]) in a text; [content.match]
    returns [null] when there is none. *)
Variable mentions : string -> string -> nat.

(** [calculateLinkStrength] *)
Definition calculateLinkStrength (content targetUid : string) : Z :=
  match mentions content targetUid with
  | O => 1
  | S _ as matches => Z.min (Z.of_nat matches) 10
  end.

(** The body of the loop of [updateNoteLinks]. *)
Definition insert_link (note : Note.MarkdownNote) (currentTime : string)
    (table : list LinkRelation) (targetUid : string) : list LinkRelation :=
  let uid := Note.id (Note.frontMatter note) in
  if decide (targetUid = uid) then table
  else
    insert_or_replace
      (mkLink uid targetUid "internal"
         (calculateLinkStrength (Note.content note) targetUid)
         currentTime currentTime)
      table.

(** [updateNoteLinks(note, outboundLinks)]: the transaction on the store;
    [currentTime] is the clock reading. *)
Definition updateNoteLinks (db : Database) (note : Note.MarkdownNote)
    (outboundLinks : list string) (currentTime : string) : Database :=
  let uid := Note.id (Note.frontMatter note) in
  mkDb (notes db)
    (foldl (insert_link note currentTime) (delete_outbound uid (links db))
       outboundLinks).

End Store.

(** [removeNoteLinks(noteUid)] *)
Definition removeNoteLinks (db : Database) (noteUid : string) : Database :=
  mkDb (notes db) (delete_inbound noteUid (delete_outbound noteUid (links db))).

(** The uniqueness constraints of the schema: [notes.uid] is the primary
    key, [notes.file_path] is unique, and [links] has the primary key
    (source, target, type). *)
Record constraints (db : Database) : Prop := mkConstraints {
  unique_uid : NoDup (map n_uid (notes db));
  unique_file_path : NoDup (map n_file_path (notes db));
  unique_link : NoDup (map link_key (links db))
}.

(** What [updateNoteLinks] writes into a row. *)
Definition written (note : Note.MarkdownNote) (currentTime : string)
    (l : LinkRelation) : Prop :=
  targetUid l <> Note.id (Note.frontMatter note) /\ linkType l = "internal" /\
  1 <= strength l <= 10 /\
  createdAt l = currentTime /\ lastSeenAt l = currentTime.

(** [OrphanNote] *)
Record OrphanNote := mkOrphan {
  o_uid : string;
  o_title : string;
  o_filePath : string;
  o_createdAt : string;
  o_updatedAt : string
}.

Section Orphans.

(** The columns [created_at] and [updated_at] of table [notes], which
    [NoteRow] does not hold. *)
Variable n_created_at : NoteRow -> string.
Variable n_updated_at : NoteRow -> string.

(** [ORDER BY n.updated_at DESC]: [a] may stay in front of [b]. *)
Definition order_by_updated (a b : NoteRow) : bool :=
  String.leb (n_updated_at b) (n_updated_at a).

(** [FROM notes n LEFT JOIN links l ON n.uid = l.target_uid
     WHERE l.target_uid IS NULL]: the notes that no link has as its
    target. *)
Definition without_inbound (db : Database) (n : NoteRow) : Prop :=
  Forall (fun l => targetUid l <> n_uid n) (links db).

(** [findOrphanNotes(limit)] *)
Definition findOrphanNotes (db : Database) (limit : nat) : list OrphanNote :=
  map (fun n => mkOrphan (n_uid n) (n_title n) (n_file_path n)
                  (n_created_at n) (n_updated_at n))
      (take limit
         (stable_sort order_by_updated
            (filter (without_inbound db) (notes db)))).

End Orphans.

(** The note chain-a of the sample database, now linking to c, to
    itself and to a note that is not indexed. *)
Definition note_a : Note.MarkdownNote :=
  Note.mkNote "/test/chain-a.md"
    (Note.mkFrontMatter "chain-a" "Chain A" "Resources" [] None
       "2023-01-01T00:00:00Z" (Some "2023-01-02T00:00:00Z")
       ["chain-c"; "chain-a"; "ghost"])
    "see chain-c".

(** A matcher that finds one mention of chain-c and none of the others. *)
Definition sample_mentions (content targetUid : string) : nat :=
  if String.eqb targetUid "chain-c" then 1%nat else 0%nat.

(* ---------- facts ---------- *)

Lemma join_notes_iff db key rows l :
  l ∈ join_notes db key rows <->
  l ∈ rows /\ exists row, row ∈ notes db /\ n_uid row = key l.
Proof.
  unfold join_notes. rewrite list_elem_of_In, in_flat_map. split.
  - intros (r & Hr & Hl). apply in_map_iff in Hl as (n & <- & Hn).
    apply list_elem_of_In, list_elem_of_filter in Hn as [Hk Hn].
    split; [by apply list_elem_of_In|]. by exists n.
  - intros (Hl & n & Hn & Hk). exists l. split; [by apply list_elem_of_In|].
    apply in_map_iff. exists n. split; [done|].
    apply list_elem_of_In, list_elem_of_filter. by split.
Qed.

Lemma filter_all {A} (P : A -> Prop) `{!forall x, Decision (P x)} l :
  Forall P l -> filter P l = l.
Proof.
  induction 1 as [|x l Hx _ IH]; [done|].
  rewrite filter_cons. destruct (decide (P x)); [by rewrite IH | done].
Qed.

Lemma filter_none {A} (P : A -> Prop) `{!forall x, Decision (P x)} l :
  Forall (fun x => ~ P x) l -> filter P l = [].
Proof.
  induction 1 as [|x l Hx _ IH]; [done|].
  rewrite filter_cons. destruct (decide (P x)); [done | exact IH].
Qed.

Lemma filter_uid_length (rows : list NoteRow) k :
  NoDup (map n_uid rows) ->
  (length (filter (fun n => n_uid n = k) rows) <= 1)%nat.
Proof.
  induction rows as [|n rows IH]; [cbn; lia|].
  change (map n_uid (n :: rows)) with (n_uid n :: map n_uid rows).
  intros [Hn Hrows]%NoDup_cons. rewrite filter_cons.
  destruct (decide (n_uid n = k)) as [<-|]; [|by apply IH].
  rewrite filter_none; [cbn; lia|].
  apply Forall_forall. intros n' Hn' E.
  apply Hn. rewrite <- E. by apply list_elem_of_fmap_2.
Qed.

Lemma join_notes_length db key rows :
  NoDup (map n_uid (notes db)) ->
  (length (join_notes db key rows) <= length rows)%nat.
Proof.
  intros Hn. unfold join_notes. induction rows as [|l rows IH]; [cbn; lia|].
  cbn [flat_map length]. rewrite length_app, length_map.
  pose proof (filter_uid_length (notes db) (key l) Hn). lia.
Qed.

Lemma filter_join_notes db key (P : LinkRelation -> Prop)
    `{!forall l, Decision (P l)} rows :
  filter P (join_notes db key rows) = join_notes db key (filter P rows).
Proof.
  unfold join_notes. induction rows as [|l rows IH]; [done|].
  cbn [flat_map]. rewrite filter_app, IH, filter_cons.
  destruct (decide (P l)) as [Hl|Hl]; cbn [flat_map].
  - f_equal. apply filter_all. apply Forall_forall. intros x Hx.
    by apply list_elem_of_fmap in Hx as (? & -> & _).
  - rewrite (filter_none P); [done|]. apply Forall_forall. intros x Hx.
    by apply list_elem_of_fmap in Hx as (? & -> & _).
Qed.

Lemma filter_filter_implied {A} (P Q : A -> Prop)
    `{!forall x, Decision (P x)} `{!forall x, Decision (Q x)} (l : list A) :
  (forall x, P x -> Q x) -> filter P (filter Q l) = filter P l.
Proof.
  intros Himp. induction l as [|x l IH]; [done|].
  rewrite (filter_cons Q), (filter_cons P).
  destruct (decide (Q x)) as [Hq|Hq].
  - rewrite filter_cons. destruct (decide (P x)); by rewrite IH.
  - destruct (decide (P x)) as [Hp|Hp]; [by destruct Hq; auto | exact IH].
Qed.

Lemma length_filter_filter {A} (P Q : A -> Prop)
    `{!forall x, Decision (P x)} `{!forall x, Decision (Q x)} (l : list A) :
  (length (filter P (filter Q l)) <= length (filter P l))%nat.
Proof.
  induction l as [|x l IH]; [done|].
  rewrite (filter_cons Q), (filter_cons P).
  destruct (decide (Q x)), (decide (P x)); rewrite ?filter_cons;
    repeat case_decide; cbn [length]; try done; lia.
Qed.

Section StoreFacts.

Variable mentions : string -> string -> nat.
Variable note : Note.MarkdownNote.
Variable currentTime : string.

Local Abbreviation uid := (Note.id (Note.frontMatter note)).
Local Abbreviation insert := (insert_link mentions note currentTime).
Local Abbreviation written := (written note currentTime).

Lemma calculateLinkStrength_range content target :
  1 <= calculateLinkStrength mentions content target <= 10.
Proof.
  unfold calculateLinkStrength. destruct (mentions content target); lia.
Qed.

Lemma insert_link_elem_of table target l :
  l ∈ insert table target ->
  l ∈ table \/ (sourceUid l = uid /\ targetUid l = target /\ written l).
Proof.
  unfold insert_link. destruct (decide (target = uid)) as [|Hne]; [by left|].
  unfold insert_or_replace. intros [H|H]%elem_of_app.
  - left. by apply list_elem_of_filter in H as [_ ?].
  - right. apply list_elem_of_singleton in H as ->. cbn.
    repeat split; try done; apply calculateLinkStrength_range.
Qed.

Lemma foldl_insert_elem_of table targets l :
  l ∈ foldl insert table targets ->
  l ∈ table \/ (sourceUid l = uid /\ targetUid l ∈ targets /\ written l).
Proof.
  revert table. induction targets as [|t targets IH]; intros table; [by left|].
  cbn [foldl]. intros [H|(Hs & Ht & Hw)]%IH.
  - apply insert_link_elem_of in H as [H|(Hs & <- & Hw)]; [by left|].
    right. split; [done|]. split; [|done]. apply elem_of_cons. by left.
  - right. split; [done|]. split; [|done]. apply elem_of_cons. by right.
Qed.

Lemma insert_link_keeps table target l :
  l ∈ table -> sourceUid l = uid -> linkType l = "internal" ->
  exists l', l' ∈ insert table target /\ sourceUid l' = uid /\
    targetUid l' = targetUid l /\ linkType l' = "internal".
Proof.
  intros Hl Hs Ht. unfold insert_link.
  destruct (decide (target = uid)) as [|Hne]; [by exists l|].
  unfold insert_or_replace.
  destruct (decide (targetUid l = target)) as [E|E].
  - eexists. split; [apply elem_of_app; right; by apply list_elem_of_singleton|].
    by cbn.
  - exists l. split; [|done]. apply elem_of_app. left.
    apply list_elem_of_filter. split; [|done].
    unfold link_key. cbn. intros [= _ ? _]. contradiction.
Qed.

Lemma foldl_insert_present table targets target :
  target <> uid ->
  (exists l, l ∈ table /\ sourceUid l = uid /\ targetUid l = target /\
             linkType l = "internal") \/ target ∈ targets ->
  exists l, l ∈ foldl insert table targets /\ sourceUid l = uid /\
            targetUid l = target.
Proof.
  intros Hne. revert table. induction targets as [|t targets IH]; intros table.
  - intros [(l & ? & ? & ? & _)|H%elem_of_nil]; [by exists l | done].
  - cbn [foldl]. intros H. apply IH.
    destruct H as [(l & Hl & Hs & Ht & Hty)|[->|H]%elem_of_cons].
    + left. destruct (insert_link_keeps table t l Hl Hs Hty) as (l' & ? & ? & ? & ?).
      exists l'. repeat split; try done. congruence.
    + left. unfold insert_link. destruct (decide (t = uid)); [done|].
      eexists. split; [apply elem_of_app; right; by apply list_elem_of_singleton|].
      by cbn.
    + by right.
Qed.

Lemma insert_link_length table target :
  (length (filter (fun l => sourceUid l = uid) (insert table target))
   <= length (filter (fun l => sourceUid l = uid) table) + 1)%nat.
Proof.
  unfold insert_link. destruct (decide (target = uid)); [lia|].
  unfold insert_or_replace. rewrite filter_app, length_app.
  pose proof (length_filter_filter (fun l => sourceUid l = uid)
                (fun l => link_key l <> link_key
                   (mkLink uid target "internal"
                      (calculateLinkStrength mentions (Note.content note) target)
                      currentTime currentTime)) table).
  rewrite filter_cons. case_decide; cbn [length filter]; cbn; lia.
Qed.

Lemma foldl_insert_length table targets :
  (length (filter (fun l => sourceUid l = uid) (foldl insert table targets))
   <= length (filter (fun l => sourceUid l = uid) table) + length targets)%nat.
Proof.
  revert table. induction targets as [|t targets IH]; intros table; [cbn; lia|].
  cbn [foldl length]. specialize (IH (insert table t)).
  pose proof (insert_link_length table t). lia.
Qed.

Lemma insert_link_other source table target :
  source <> uid ->
  filter (fun l => sourceUid l = source) (insert table target)
  = filter (fun l => sourceUid l = source) table.
Proof.
  intros Hne. unfold insert_link. destruct (decide (target = uid)); [done|].
  unfold insert_or_replace. rewrite filter_app, filter_cons.
  case_decide as E; [cbn in E; congruence|].
  rewrite app_nil_r. apply filter_filter_implied.
  intros l <-. unfold link_key. cbn. intros [= ? _ _]. congruence.
Qed.

Lemma foldl_insert_other source table targets :
  source <> uid ->
  filter (fun l => sourceUid l = source) (foldl insert table targets)
  = filter (fun l => sourceUid l = source) table.
Proof.
  intros Hne. revert table. induction targets as [|t targets IH]; intros table; [done|].
  cbn [foldl]. by rewrite IH, insert_link_other.
Qed.

Lemma delete_outbound_own table :
  filter (fun l => sourceUid l = uid) (delete_outbound uid table) = [].
Proof.
  apply filter_none, Forall_forall. intros l Hl.
  by apply list_elem_of_filter in Hl as [? _].
Qed.

Lemma findOutboundLinks_all db source limit :
  NoDup (map n_uid (notes db)) ->
  (length (filter (fun l => sourceUid l = source) (links db)) <= limit)%nat ->
  forall l, l ∈ findOutboundLinks db source limit <->
    l ∈ links db /\ sourceUid l = source /\
    exists row, row ∈ notes db /\ n_uid row = targetUid l.
Proof.
  intros Hn Hlen l. unfold findOutboundLinks.
  rewrite take_ge.
  - rewrite stable_sort_elem_of, list_elem_of_filter, join_notes_iff. tauto.
  - rewrite stable_sort_length, filter_join_notes.
    etrans; [by apply join_notes_length | exact Hlen].
Qed.

(** After [updateNoteLinks(note, targets)] the outbound links of the note
    are exactly the targets that are not the note itself and are rows of
    [notes] (the uniqueness of [notes.uid] and a limit that covers the
    targets assumed). *)
Theorem updateNoteLinks_outbound db targets limit target :
  NoDup (map n_uid (notes db)) ->
  (length targets <= limit)%nat ->
  target ∈ map targetUid
             (findOutboundLinks (updateNoteLinks mentions db note targets currentTime)
                uid limit)
  <-> target ∈ targets /\ target <> uid /\
      exists row, row ∈ notes db /\ n_uid row = target.
Proof.
  intros Hn Hlimit.
  set (db' := updateNoteLinks mentions db note targets currentTime).
  assert (Hall : forall l, l ∈ findOutboundLinks db' uid limit <->
            l ∈ links db' /\ sourceUid l = uid /\
            exists row, row ∈ notes db /\ n_uid row = targetUid l).
  { apply (findOutboundLinks_all db' uid limit Hn). unfold db'. cbn [links updateNoteLinks].
    pose proof (foldl_insert_length (delete_outbound uid (links db)) targets) as H.
    rewrite delete_outbound_own in H. cbn [length] in H. lia. }
  split.
  - intros (l & -> & Hl)%list_elem_of_fmap. apply Hall in Hl as (Hl & Hs & Hrow).
    unfold db' in Hl. cbn [links updateNoteLinks] in Hl.
    apply foldl_insert_elem_of in Hl as [Hl|(_ & Ht & Hw & _)].
    + by apply list_elem_of_filter in Hl as [? _].
    + done.
  - intros (Ht & Hne & Hrow).
    destruct (foldl_insert_present (delete_outbound uid (links db)) targets target Hne)
      as (l & Hl & Hs & <-); [by right|].
    apply list_elem_of_fmap_2. apply Hall. done.
Qed.

(** Every outbound link of the note after [updateNoteLinks] was written by
    this call: it is internal, leads to another note, has a strength from
    1 to 10 and carries the time of the call both as its creation time and
    as the time it was last seen. *)
Theorem updateNoteLinks_rows db targets :
  Forall (fun l => sourceUid l = uid -> written l)
         (links (updateNoteLinks mentions db note targets currentTime)).
Proof.
  apply Forall_forall. intros l Hl Hs. cbn [links updateNoteLinks] in Hl.
  apply foldl_insert_elem_of in Hl as [Hl|(_ & _ & Hw)]; [|exact Hw].
  by apply list_elem_of_filter in Hl as [? _].
Qed.

(** [updateNoteLinks] leaves the outbound links of every other note as
    they were. *)
Theorem updateNoteLinks_others db targets source limit :
  source <> uid ->
  findOutboundLinks (updateNoteLinks mentions db note targets currentTime) source limit
  = findOutboundLinks db source limit.
Proof.
  intros Hne. unfold findOutboundLinks. do 2 f_equal.
  rewrite !filter_join_notes. cbn [links updateNoteLinks notes].
  unfold join_notes at 1. cbn [notes]. fold (join_notes db targetUid).
  f_equal. rewrite foldl_insert_other by done.
  unfold delete_outbound. apply filter_filter_implied. by intros l <-.
Qed.

Lemma NoDup_filter_keys {A K} (key : A -> K) (P : A -> Prop)
    `{!forall x, Decision (P x)} (l : list A) :
  NoDup (map key l) -> NoDup (map key (filter P l)).
Proof.
  intros Hnd. eapply sublist_NoDup; [exact Hnd|].
  apply fmap_sublist, sublist_filter.
Qed.

Lemma insert_or_replace_unique row table :
  NoDup (map link_key table) -> NoDup (map link_key (insert_or_replace row table)).
Proof.
  intros H. unfold insert_or_replace. rewrite map_app. apply NoDup_app.
  split; [by apply NoDup_filter_keys|]. split; [|apply NoDup_singleton].
  intros k Hk Hrow. cbn in Hrow. apply list_elem_of_singleton in Hrow as ->.
  apply list_elem_of_fmap in Hk as (l & E & Hl).
  apply list_elem_of_filter in Hl as [Hne _]. by apply Hne.
Qed.

Lemma updateNoteLinks_unique db targets :
  NoDup (map link_key (links db)) ->
  NoDup (map link_key (links (updateNoteLinks mentions db note targets currentTime))).
Proof.
  intros H. cbn [links updateNoteLinks].
  assert (NoDup (map link_key (delete_outbound uid (links db)))) as H0
    by (by apply NoDup_filter_keys).
  revert H0. generalize (delete_outbound uid (links db)).
  induction targets as [|t targets IH]; intros table Ht; [exact Ht|].
  cbn [foldl]. apply IH. unfold insert_link.
  destruct (decide (t = uid)); [exact Ht | by apply insert_or_replace_unique].
Qed.

End StoreFacts.

Lemma removeNoteLinks_links db noteUid l :
  l ∈ links (removeNoteLinks db noteUid) <->
  l ∈ links db /\ sourceUid l <> noteUid /\ targetUid l <> noteUid.
Proof.
  cbn [links removeNoteLinks]. unfold delete_inbound, delete_outbound.
  rewrite !list_elem_of_filter. tauto.
Qed.

Lemma edge_ends db direction u v :
  edge db direction u v ->
  exists l, l ∈ links db /\
    ((sourceUid l = u /\ targetUid l = v) \/ (targetUid l = u /\ sourceUid l = v)).
Proof. intros (l & Hl & [(_ & ? & ?)|(_ & ? & ?)]); exists l; tauto. Qed.

(** After [removeNoteLinks(u)] the note [u] has no neighbour and is no
    neighbour of any note, in any direction, while every link between two
    other notes is still there. *)
Theorem removeNoteLinks_isolates db noteUid direction :
  getConnectedUids (removeNoteLinks db noteUid) noteUid direction = [] /\
  (forall uid, noteUid ∉ getConnectedUids (removeNoteLinks db noteUid) uid direction) /\
  (forall u v, u <> noteUid -> v <> noteUid ->
     edge db direction u v -> edge (removeNoteLinks db noteUid) direction u v).
Proof.
  assert (Hno : forall u v, edge (removeNoteLinks db noteUid) direction u v ->
                  u <> noteUid /\ v <> noteUid).
  { intros u v (l & Hl & H)%edge_ends.
    apply removeNoteLinks_links in Hl as (_ & Hs & Ht).
    destruct H as [[<- <-]|[<- <-]]; done. }
  split; [|split].
  - destruct (getConnectedUids _ noteUid direction) as [|x t] eqn:E; [done|].
    assert (x ∈ getConnectedUids (removeNoteLinks db noteUid) noteUid direction) as Hx
      by (rewrite E; apply elem_of_cons; by left).
    apply getConnectedUids_edge, Hno in Hx as [? _]. done.
  - intros uid Hx. apply getConnectedUids_edge, Hno in Hx as [_ ?]. done.
  - intros u v Hu Hv (l & Hl & H). exists l. split; [|exact H].
    apply removeNoteLinks_links. split; [exact Hl|].
    destruct H as [(_ & <- & <-)|(_ & <- & <-)]; done.
Qed.

Lemma updateNoteLinks_outbound_witness :
  "chain-c" ∈ map targetUid
    (findOutboundLinks
       (updateNoteLinks sample_mentions sample_db note_a
          ["chain-c"; "chain-a"; "ghost"] "2023-01-02T00:00:00Z")
       "chain-a" 50)
  <-> "chain-c" ∈ ["chain-c"; "chain-a"; "ghost"] /\ "chain-c" <> "chain-a" /\
      exists row, row ∈ notes sample_db /\ n_uid row = "chain-c".
Proof.
  apply (updateNoteLinks_outbound sample_mentions note_a "2023-01-02T00:00:00Z"
           sample_db ["chain-c"; "chain-a"; "ghost"] 50 "chain-c").
  - apply (bool_decide_unpack _). vm_compute. exact I.
  - cbn. lia.
Defined.

Lemma updateNoteLinks_others_witness :
  findOutboundLinks
    (updateNoteLinks sample_mentions sample_db note_a
       ["chain-c"; "chain-a"; "ghost"] "2023-01-02T00:00:00Z")
    "chain-b" 50
  = findOutboundLinks sample_db "chain-b" 50.
Proof.
  apply (updateNoteLinks_others sample_mentions note_a "2023-01-02T00:00:00Z"
           sample_db ["chain-c"; "chain-a"; "ghost"] "chain-b" 50).
  discriminate.
Defined.

Example updateNoteLinks_sample :
  map (fun l => (sourceUid l, targetUid l, strength l))
    (links (updateNoteLinks sample_mentions sample_db note_a
              ["chain-c"; "chain-a"; "ghost"] "2023-01-02T00:00:00Z"))
  = [("chain-b", "chain-c", 1); ("chain-c", "chain-d", 1);
     ("chain-a", "chain-c", 1); ("chain-a", "ghost", 1)].
Proof. vm_compute. reflexivity. Qed.

Section OrphanFacts.

Variable n_created_at : NoteRow -> string.
Variable n_updated_at : NoteRow -> string.

Lemma findBacklinks_none db target limit :
  Forall (fun l => targetUid l <> target) (links db) ->
  findBacklinks db target limit = [].
Proof.
  intros H. unfold findBacklinks. rewrite filter_none; [by destruct limit|].
  apply Forall_forall. intros l Hl%join_notes_elem_of.
  by apply (proj1 (Forall_forall _ _) H).
Qed.

(** [findOrphanNotes] returns at most [limit] notes; each is a row of
    [notes] that no link leads to, so it has no backlinks and is no
    outbound link of any note.  With a limit that covers the table it
    returns every such row. *)
Theorem findOrphanNotes_orphans db limit :
  (length (findOrphanNotes n_created_at n_updated_at db limit) <= limit)%nat /\
  Forall (fun o =>
            (exists row, row ∈ notes db /\ o_uid o = n_uid row /\
               o_title o = n_title row /\ o_filePath o = n_file_path row) /\
            (forall k, findBacklinks db (o_uid o) k = []) /\
            (forall source k,
               o_uid o ∉ map targetUid (findOutboundLinks db source k)))
         (findOrphanNotes n_created_at n_updated_at db limit) /\
  ((length (notes db) <= limit)%nat ->
   forall row, row ∈ notes db ->
     Forall (fun l => targetUid l <> n_uid row) (links db) ->
     n_uid row ∈ map o_uid (findOrphanNotes n_created_at n_updated_at db limit)).
Proof.
  unfold findOrphanNotes. split; [|split].
  - rewrite length_map, length_take. lia.
  - apply Forall_forall. intros o Ho.
    apply list_elem_of_fmap in Ho as (row & -> & Hrow).
    apply take_elem_of, stable_sort_elem_of, list_elem_of_filter in Hrow as [Hno Hrow].
    cbn. split; [by exists row|]. split.
    + intros k. by apply findBacklinks_none.
    + intros source k (l & E & Hl)%list_elem_of_fmap.
      apply findOutboundLinks_elem_of in Hl as [Hl _].
      by apply (proj1 (Forall_forall _ _) Hno l Hl).
  - intros Hlimit row Hrow Hno.
    rewrite take_ge.
    + apply list_elem_of_fmap.
      exists (mkOrphan (n_uid row) (n_title row) (n_file_path row)
                (n_created_at row) (n_updated_at row)).
      split; [reflexivity|]. apply list_elem_of_fmap. exists row.
      split; [reflexivity|].
      apply stable_sort_elem_of, list_elem_of_filter. by split.
    + rewrite stable_sort_length.
      etrans; [apply length_filter | exact Hlimit].
Qed.

End OrphanFacts.

End LinkStore.

(** ** The slicing loop of the batch operations *)

Module Batches.

(** The slicing loop
    [for (let i = 0; i < l.length; i += size) out.push(l.slice(i, i + size))],
    from index [i] on; [fuel] bounds the number of iterations. *)
Fixpoint chunks_from {A} (fuel size i : nat) (l : list A) : list (list A) :=
  match fuel with
  | O => []
  | S fuel' =>
      if (i <? length l)%nat
      then take size (drop i l) :: chunks_from fuel' size (i + size) l
      else []
  end.

(** The loop from index 0: for a positive [size], [length l] iterations
    are enough. *)
Definition chunks {A} (size : nat) (l : list A) : list (list A) :=
  chunks_from (length l) size 0 l.

(* ---------- facts ---------- *)

Lemma chunks_from_concat {A} fuel size i (l : list A) :
  (0 < size)%nat -> (length l <= i + fuel)%nat ->
  concat (chunks_from fuel size i l) = drop i l.
Proof.
  intros Hsize. revert i. induction fuel as [|fuel IH]; intros i Hfuel; cbn [chunks_from].
  - rewrite drop_ge by lia. reflexivity.
  - destruct (Nat.ltb_spec i (length l)) as [Hlt|Hge].
    + cbn [concat]. rewrite IH by lia.
      rewrite <- drop_drop. apply take_drop.
    + rewrite drop_ge by lia. reflexivity.
Qed.

Lemma chunks_from_sizes {A} fuel size i (l : list A) :
  (0 < size)%nat ->
  Forall (fun c => (1 <= length c <= size)%nat) (chunks_from fuel size i l).
Proof.
  intros Hsize. revert i. induction fuel as [|fuel IH]; intros i; cbn [chunks_from].
  - constructor.
  - destruct (Nat.ltb_spec i (length l)) as [Hlt|Hge]; [|constructor].
    constructor; [|apply IH]. rewrite length_take, length_drop. lia.
Qed.

Lemma chunks_from_fuel {A} fuel fuel' size i (l : list A) :
  (0 < size)%nat -> (length l <= i + fuel)%nat -> (length l <= i + fuel')%nat ->
  chunks_from fuel size i l = chunks_from fuel' size i l.
Proof.
  intros Hsize. revert fuel' i.
  induction fuel as [|fuel IH]; intros [|fuel'] i H1 H2; cbn [chunks_from]; try done.
  - destruct (Nat.ltb_spec i (length l)); [lia | done].
  - destruct (Nat.ltb_spec i (length l)); [lia | done].
  - destruct (Nat.ltb_spec i (length l)); [|done]. f_equal. apply IH; lia.
Qed.

Lemma chunks_concat {A} size (l : list A) :
  (0 < size)%nat -> concat (chunks size l) = l.
Proof.
  intros Hsize. unfold chunks. rewrite chunks_from_concat by lia. apply drop_0.
Qed.

(** The slicing loop cuts a list into consecutive pieces: put together
    they give the list back, none is empty or longer than [size], and the
    loop has stopped by itself after [length l] iterations. *)
Theorem chunks_partition {A} size (l : list A) :
  (0 < size)%nat ->
  concat (chunks size l) = l /\
  Forall (fun c => (1 <= length c <= size)%nat) (chunks size l) /\
  forall fuel, (length l <= fuel)%nat -> chunks_from fuel size 0 l = chunks size l.
Proof.
  intros Hsize. unfold chunks. split; [|split].
  - rewrite chunks_from_concat by lia. apply drop_0.
  - by apply chunks_from_sizes.
  - intros fuel Hfuel. apply chunks_from_fuel; lia.
Qed.

Lemma chunks_partition_witness :
  concat (chunks 2 ["a"; "b"; "c"; "d"; "e"]) = ["a"; "b"; "c"; "d"; "e"] /\
  Forall (fun c => (1 <= length c <= 2)%nat) (chunks 2 ["a"; "b"; "c"; "d"; "e"]) /\
  forall fuel, (length ["a"; "b"; "c"; "d"; "e"] <= fuel)%nat ->
    chunks_from fuel 2 0 ["a"; "b"; "c"; "d"; "e"] = chunks 2 ["a"; "b"; "c"; "d"; "e"].
Proof. apply (chunks_partition 2 ["a"; "b"; "c"; "d"; "e"]). lia. Defined.

End Batches.

(** ** search-engine: indexing and removing notes *)

Module Indexing.
Import JsArray LinkGraph Reachability LinkStore Batches.

(** The state of a [SearchEngine]: its flag, the tables [notes] and
    [links], and the full-text index. *)
Record EngineState (Fts : Type) := mkEngine {
  isInitialized : bool;
  database : Database;
  ftsIndex : Fts
}.
Arguments mkEngine {Fts}.
Arguments isInitialized {Fts}.
Arguments database {Fts}.
Arguments ftsIndex {Fts}.

(** [BatchIndexResult]; a failure is [{ noteUid, error }]. *)
Record BatchIndexResult := mkBatch {
  successful : nat;
  failed : nat;
  totalTimeMs : Z;
  failures : list (string * string)
}.

Definition not_initialized : Search.SearchError :=
  Search.mkSearchError "검색 엔진이 초기화되지 않았습니다".

(** [upsertNoteMetadata]: [INSERT OR REPLACE INTO notes].  The rows that
    clash with the new one on the primary key [uid] or on the unique
    [file_path] are deleted, and the new row is added. *)
Definition upsertNoteMetadata (db : Database) (note : Note.MarkdownNote) : Database :=
  let fm := Note.frontMatter note in
  mkDb
    (filter (fun n => n_uid n <> Note.id fm /\ n_file_path n <> Note.filePath note)
            (notes db)
     ++ [mkNoteRow (Note.id fm) (Note.title fm) (Note.category fm) (Note.filePath note)])
    (links db).

(** [DELETE FROM notes WHERE uid = ?] *)
Definition deleteNote (db : Database) (noteUid : string) : Database :=
  mkDb (filter (fun n => n_uid n <> noteUid) (notes db)) (links db).

Section Engine.

Context {Fts : Type}.

(** The full-text engine (fts-index.ts is not among the sources): the
    index after the call and, when the call throws, the message of the
    error. *)
Variable fts_updateNote : Note.MarkdownNote -> Fts -> Fts * option string.
Variable fts_removeNote : string -> Fts -> Fts * option string.

(** The regular-expression engine of [calculateLinkStrength]. *)
Variable mentions : string -> string -> nat.

(** [indexNote(note)]: one transaction; when the full-text update throws
    it is rolled back.  The statements on the two tables do not fail on
    this store, where [INSERT OR REPLACE] settles every clash of keys.
    [currentTime] is the clock reading. *)
Definition indexNote (note : Note.MarkdownNote) (currentTime : string)
    (st : EngineState Fts) : Search.SearchError + EngineState Fts :=
  if negb (isInitialized st) then inl not_initialized
  else
    let db1 := upsertNoteMetadata (database st) note in
    match fts_updateNote note (ftsIndex st) with
    | (_, Some _) =>
        inl (Search.mkSearchError
               ("노트 인덱싱 실패: " ++ Note.id (Note.frontMatter note)))
    | (fts', None) =>
        inr (mkEngine true
               (updateNoteLinks mentions db1 note
                  (Note.links (Note.frontMatter note)) currentTime)
               fts')
    end.

(** [removeNote(noteUid)] *)
Definition removeNote (noteUid : string) (st : EngineState Fts)
    : Search.SearchError + EngineState Fts :=
  if negb (isInitialized st) then inl not_initialized
  else
    let db1 := deleteNote (database st) noteUid in
    match fts_removeNote noteUid (ftsIndex st) with
    | (_, Some _) => inl (Search.mkSearchError ("노트 삭제 실패: " ++ noteUid))
    | (fts', None) => inr (mkEngine true (removeNoteLinks db1 noteUid) fts')
    end.

(** The body of the inner loop of [indexNotes], with its [try]/[catch]:
    a note whose full-text update throws is counted as failed, and what
    was written for it before stays in the transaction.  [clock] gives
    the clock reading for the i-th note of the call. *)
Definition indexOne (clock : nat -> string)
    (acc : EngineState Fts * BatchIndexResult) (note : Note.MarkdownNote)
    : EngineState Fts * BatchIndexResult :=
  let '(st, r) := acc in
  let db1 := upsertNoteMetadata (database st) note in
  match fts_updateNote note (ftsIndex st) with
  | (fts', Some message) =>
      (mkEngine (isInitialized st) db1 fts',
       mkBatch (successful r) (S (failed r)) (totalTimeMs r)
         (failures r ++ [(Note.id (Note.frontMatter note), message)]))
  | (fts', None) =>
      (mkEngine (isInitialized st)
         (updateNoteLinks mentions db1 note (Note.links (Note.frontMatter note))
            (clock (successful r + failed r)%nat))
         fts',
       mkBatch (S (successful r)) (failed r) (totalTimeMs r) (failures r))
  end.

(** [indexNotes(notes)]: batches of 100, one transaction each;
    [elapsed] is the time the call measures. *)
Definition indexNotes (notes : list Note.MarkdownNote) (clock : nat -> string)
    (elapsed : Z) (st : EngineState Fts)
    : Search.SearchError + EngineState Fts * BatchIndexResult :=
  if negb (isInitialized st) then inl not_initialized
  else
    let batchSize := 100%nat in
    let '(st', r) :=
      foldl (fun acc batch => foldl (indexOne clock) acc batch)
            (st, mkBatch 0 0 0 []) (chunks batchSize notes) in
    inr (st', mkBatch (successful r) (failed r) elapsed (failures r)).

End Engine.

(** A full-text engine without content that rejects the note "bad". *)
Definition sample_fts_update (note : Note.MarkdownNote) (index : unit)
    : unit * option string :=
  (tt, if String.eqb (Note.id (Note.frontMatter note)) "bad"
       then Some "FTS failed" else None).

Definition sample_fts_remove (noteUid : string) (index : unit) : unit * option string :=
  (tt, None).

Definition sample_engine : EngineState unit := mkEngine true sample_db tt.

(** A new note e at the path of chain-d. *)
Definition note_e : Note.MarkdownNote :=
  Note.mkNote "/test/chain-d.md"
    (Note.mkFrontMatter "chain-e" "Chain E" "Areas" [] None
       "2023-01-03T00:00:00Z" (Some "2023-01-03T00:00:00Z") ["chain-a"])
    "see chain-a".

Definition note_bad : Note.MarkdownNote :=
  Note.mkNote "/test/bad.md"
    (Note.mkFrontMatter "bad" "Bad" "Areas" [] None
       "2023-01-03T00:00:00Z" (Some "2023-01-03T00:00:00Z") [])
    "".

Definition engine_with_e : EngineState unit :=
  mkEngine true
    (updateNoteLinks sample_mentions (upsertNoteMetadata sample_db note_e) note_e
       ["chain-a"] "2023-01-03T00:00:00Z")
    tt.

Definition engine_without_b : EngineState unit :=
  mkEngine true (removeNoteLinks (deleteNote sample_db "chain-b") "chain-b") tt.

Definition sample_clock_of (i : nat) : string := "2023-01-03T00:00:00Z".

(** What indexing e, bad and a reports after 7 ms. *)
Definition sample_batch : BatchIndexResult := mkBatch 2 1 7 [("bad", "FTS failed")].

(* ---------- facts ---------- *)

Lemma foldl_concat {A B} (f : A -> B -> A) (a : A) (bs : list (list B)) :
  foldl (fun acc b => foldl f acc b) a bs = foldl f a (concat bs).
Proof.
  revert a. induction bs as [|b bs IH]; intros a; [done|].
  cbn [foldl concat]. by rewrite foldl_app, IH.
Qed.

Lemma chain_first db direction n u w :
  chain db direction (S n) u w -> exists v, edge db direction u v.
Proof.
  revert w. induction n as [|n IH]; intros w H; inversion H as [|? ? v ? Hc He]; subst.
  - inversion Hc; subst. by exists w.
  - by apply IH in Hc.
Qed.

Lemma removeNoteLinks_no_edge db noteUid direction u v :
  edge (removeNoteLinks db noteUid) direction u v -> u <> noteUid /\ v <> noteUid.
Proof.
  intros (l & Hl & H)%edge_ends.
  apply removeNoteLinks_links in Hl as (_ & Hs & Ht).
  destruct H as [[<- <-]|[<- <-]]; done.
Qed.

Lemma getNodeInfo_None db uid :
  Forall (fun n => n_uid n <> uid) (notes db) -> getNodeInfo db uid = None.
Proof. intros H. unfold getNodeInfo. by rewrite filter_none. Qed.

Section EngineFacts.

Context {Fts : Type}.
Variable fts_updateNote : Note.MarkdownNote -> Fts -> Fts * option string.
Variable fts_removeNote : string -> Fts -> Fts * option string.
Variable mentions : string -> string -> nat.

(** After [indexNote(note)] the note is looked up under its uid with its
    title, category and path, and no row of another note keeps that path:
    a note indexed earlier under the same path has been replaced. *)
Theorem indexNote_lookup note currentTime (st st' : EngineState Fts) :
  indexNote fts_updateNote mentions note currentTime st = inr st' ->
  let fm := Note.frontMatter note in
  getNodeInfo (database st') (Note.id fm)
  = Some (mkNoteRow (Note.id fm) (Note.title fm) (Note.category fm)
            (Note.filePath note)) /\
  Forall (fun n => n_file_path n = Note.filePath note -> n_uid n = Note.id fm)
         (notes (database st')).
Proof.
  unfold indexNote. destruct (negb (isInitialized st)); [discriminate|].
  destruct (fts_updateNote note (ftsIndex st)) as [fts' [message|]]; [discriminate|].
  intros [= <-]. unfold updateNoteLinks, upsertNoteMetadata.
  cbn [database notes]. split.
  - unfold getNodeInfo. cbn [notes]. rewrite filter_app, filter_none.
    + rewrite filter_cons. by case_decide.
    + apply Forall_forall. intros n Hn. by apply list_elem_of_filter in Hn as [[? _] _].
  - apply Forall_app. split.
    + apply Forall_forall. intros n Hn. by apply list_elem_of_filter in Hn as [[_ ?] _].
    + by constructor.
Qed.

Lemma upsert_unique {K} (key : NoteRow -> K)
    (P : NoteRow -> Prop) `{!forall n, Decision (P n)} rows row :
  (forall n, P n -> key n <> key row) ->
  NoDup (map key rows) -> NoDup (map key (filter P rows ++ [row])).
Proof.
  intros HP Hnd. rewrite map_app. apply NoDup_app.
  split; [by apply NoDup_filter_keys|]. split; [|apply NoDup_singleton].
  intros k Hk Hrow. cbn in Hrow. apply list_elem_of_singleton in Hrow as ->.
  apply list_elem_of_fmap in Hk as (n & E & Hn).
  apply list_elem_of_filter in Hn as [Hn _]. by apply (HP n).
Qed.

(** [indexNote] keeps the uniqueness constraints of the schema. *)
Theorem indexNote_constraints note currentTime (st st' : EngineState Fts) :
  constraints (database st) ->
  indexNote fts_updateNote mentions note currentTime st = inr st' ->
  constraints (database st').
Proof.
  intros [Hu Hp Hl]. unfold indexNote.
  destruct (negb (isInitialized st)); [discriminate|].
  destruct (fts_updateNote note (ftsIndex st)) as [fts' [message|]]; [discriminate|].
  intros [= <-]. cbn [database]. split.
  - unfold updateNoteLinks, upsertNoteMetadata. cbn [notes].
    apply upsert_unique;
      first [exact Hu | intros n Hn; cbn in Hn; by destruct Hn].
  - unfold updateNoteLinks, upsertNoteMetadata. cbn [notes].
    apply upsert_unique;
      first [exact Hp | intros n Hn; cbn in Hn; by destruct Hn].
  - by apply updateNoteLinks_unique.
Qed.

(** After [removeNote(u)] the note is gone from the graph: it is not
    looked up any more, a traversal from it finds nothing, and no
    traversal returns it. *)
Theorem removeNote_forgets noteUid (st st' : EngineState Fts) startUid options :
  removeNote fts_removeNote noteUid st = inr st' ->
  getNodeInfo (database st') noteUid = None /\
  findConnectedNotes (database st') noteUid options = [] /\
  Forall (fun node => id node <> noteUid)
         (findConnectedNotes (database st') startUid options).
Proof.
  unfold removeNote. destruct (negb (isInitialized st)); [discriminate|].
  destruct (fts_removeNote noteUid (ftsIndex st)) as [fts' [message|]]; [discriminate|].
  intros [= <-]. cbn [database].
  set (db' := removeNoteLinks (deleteNote (database st) noteUid) noteUid).
  assert (Hrows : Forall (fun n => n_uid n <> noteUid) (notes db')).
  { apply Forall_forall. intros n Hn. cbn in Hn.
    by apply list_elem_of_filter in Hn as [? _]. }
  split; [by apply getNodeInfo_None|]. split.
  - destruct (findConnectedNotes_results db' noteUid options) as (Hs & _ & _).
    destruct (findConnectedNotes db' noteUid options) as [|node t]; [done|].
    apply Forall_cons in Hs as [[_ Hd _ Hc _] _].
    destruct (depth node) as [|n]; [lia|].
    apply chain_first in Hc as (v & Hv).
    apply removeNoteLinks_no_edge in Hv as [? _]. done.
  - destruct (findConnectedNotes_results db' startUid options) as (Hs & _ & _).
    eapply Forall_impl; [exact Hs|]. intros node [_ _ _ _ (row & Hrow & Hu & _)].
    rewrite <- Hu. by apply (proj1 (Forall_forall _ _) Hrows).
Qed.

Lemma indexOne_counts clock (acc : EngineState Fts * BatchIndexResult) note :
  let acc' := indexOne fts_updateNote mentions clock acc note in
  (successful acc'.2 + failed acc'.2 = S (successful acc.2 + failed acc.2))%nat /\
  (length (failures acc.2) = failed acc.2 ->
   length (failures acc'.2) = failed acc'.2) /\
  (forall f, f ∈ failures acc'.2 ->
     f ∈ failures acc.2 \/ f.1 = Note.id (Note.frontMatter note)).
Proof.
  destruct acc as [st r]. unfold indexOne.
  destruct (fts_updateNote note (ftsIndex st)) as [fts' [message|]]; cbn.
  - split; [lia|]. split.
    + intros H. rewrite length_app. cbn. lia.
    + intros f [Hf|Hf]%elem_of_app; [by left|].
      apply list_elem_of_singleton in Hf as ->. by right.
  - split; [lia|]. split; [done|]. intros f Hf. by left.
Qed.

Lemma foldl_indexOne_counts clock notes (acc : EngineState Fts * BatchIndexResult) :
  let acc' := foldl (indexOne fts_updateNote mentions clock) acc notes in
  (successful acc'.2 + failed acc'.2
   = successful acc.2 + failed acc.2 + length notes)%nat /\
  (length (failures acc.2) = failed acc.2 ->
   length (failures acc'.2) = failed acc'.2) /\
  (forall f, f ∈ failures acc'.2 ->
     f ∈ failures acc.2 \/
     f.1 ∈ map (fun note => Note.id (Note.frontMatter note)) notes).
Proof.
  revert acc. induction notes as [|note notes IH]; intros acc; cbn [foldl length].
  - split; [lia|]. split; [done|]. intros f Hf. by left.
  - destruct (IH (indexOne fts_updateNote mentions clock acc note)) as (H1 & H2 & H3).
    destruct (indexOne_counts clock acc note) as (G1 & G2 & G3).
    cbv zeta in *. split; [lia|]. split; [auto|].
    intros f Hf. apply H3 in Hf as [Hf|Hf].
    + apply G3 in Hf as [Hf|Hf]; [by left|]. right. cbn [map].
      apply elem_of_cons. by left.
    + right. cbn [map]. apply elem_of_cons. by right.
Qed.

(** [indexNotes] accounts for every note: the successes and the failures
    add up to the number of notes, there is one failure entry for each
    failed note, each naming a note of the call, and the elapsed time is
    reported. *)
Theorem indexNotes_counts notes clock elapsed (st st' : EngineState Fts) result :
  indexNotes fts_updateNote mentions notes clock elapsed st = inr (st', result) ->
  (successful result + failed result = length notes)%nat /\
  length (failures result) = failed result /\
  Forall (fun f => f.1 ∈ map (fun note => Note.id (Note.frontMatter note)) notes)
         (failures result) /\
  totalTimeMs result = elapsed.
Proof.
  unfold indexNotes. destruct (negb (isInitialized st)); [discriminate|].
  rewrite foldl_concat.
  rewrite (chunks_concat 100 notes) by lia.
  destruct (foldl_indexOne_counts clock notes (st, mkBatch 0 0 0 []))
    as (H1 & H2 & H3).
  destruct (foldl _ _ notes) as [st1 r]. cbn in *.
  intros [= <- <-]. cbn. split; [lia|]. split; [auto|]. split; [|done].
  apply Forall_forall. intros f Hf. apply H3 in Hf as [Hf%elem_of_nil|Hf]; done.
Qed.

End EngineFacts.

Lemma indexNote_lookup_witness :
  getNodeInfo (database engine_with_e) "chain-e"
  = Some (mkNoteRow "chain-e" "Chain E" "Areas" "/test/chain-d.md") /\
  Forall (fun n => n_file_path n = "/test/chain-d.md" -> n_uid n = "chain-e")
         (notes (database engine_with_e)).
Proof.
  apply (indexNote_lookup sample_fts_update sample_mentions note_e
           "2023-01-03T00:00:00Z" sample_engine engine_with_e).
  reflexivity.
Defined.

Lemma sample_db_constraints : constraints sample_db.
Proof. split; apply (bool_decide_unpack _); vm_compute; exact I. Qed.

Lemma indexNote_constraints_witness : constraints (database engine_with_e).
Proof.
  apply (indexNote_constraints sample_fts_update sample_mentions note_e
           "2023-01-03T00:00:00Z" sample_engine engine_with_e).
  - exact sample_db_constraints.
  - reflexivity.
Defined.

Lemma removeNote_forgets_witness :
  getNodeInfo (database engine_without_b) "chain-b" = None /\
  findConnectedNotes (database engine_without_b) "chain-b" (mkOptions None None None)
  = [] /\
  Forall (fun node => id node <> "chain-b")
    (findConnectedNotes (database engine_without_b) "chain-c"
       (mkOptions None None None)).
Proof.
  apply (removeNote_forgets sample_fts_remove "chain-b" sample_engine
           engine_without_b "chain-c" (mkOptions None None None)).
  reflexivity.
Defined.

Lemma indexNotes_counts_witness :
  (successful sample_batch + failed sample_batch
   = length [note_e; note_bad; note_a])%nat /\
  length (failures sample_batch) = failed sample_batch /\
  Forall (fun f => f.1 ∈ map (fun note => Note.id (Note.frontMatter note))
                          [note_e; note_bad; note_a])
         (failures sample_batch) /\
  totalTimeMs sample_batch = 7.
Proof.
  eapply (indexNotes_counts sample_fts_update sample_mentions
            [note_e; note_bad; note_a] sample_clock_of 7 sample_engine).
  vm_compute. reflexivity.
Defined.

End Indexing.

(** ** packages/storage-md/src/git-snapshot.ts *)

Module GitSnapshot.
Import Js JsString.

Inductive Mode := commit | tag | disabled.

#[global] Instance Mode_eq_dec : EqDecision Mode.
Proof. solve_decision. Defined.

Definition mode_name (m : Mode) : string :=
  match m with
  | commit => "commit"
  | tag => "tag"
  | disabled => "disabled"
  end.

(** [StorageMdError(message, code, filePath)]; the cause only contributes
    its message, which the callers put into [message]. *)
Record StorageMdError := mkError {
  message : string;
  code : string;
  error_path : option string
}.

(** [GitSnapshotOptions], and the options of a manager after the
    defaults of the constructor. *)
Record GitSnapshotOptions := mkGivenOptions {
  given_repositoryPath : option string;
  given_mode : option Mode;
  given_commitMessageTemplate : option string;
  given_tagTemplate : option string;
  given_retries : option Z;
  given_gitBinary : option string;
  given_metricsCollector : bool
}.

Record Options := mkOptions {
  opt_repositoryPath : string;
  mode : Mode;
  commitMessageTemplate : string;
  tagTemplate : string;
  retries : Z;
  gitBinary : string;
  metricsCollector : bool      (* whether a collector is installed *)
}.

(** The fields of a [GitSnapshotManager]. *)
Record Manager := mkManager {
  repositoryPath : string;
  options : Options;
  isInitialized : bool;
  repositoryRoot : option string;
  hasHead : bool
}.

(** The constructor. *)
Definition new_manager (repositoryPath : string) (given : GitSnapshotOptions)
    : Manager :=
  mkManager repositoryPath
    (mkOptions
       (default repositoryPath (given_repositoryPath given))
       (default commit (given_mode given))
       (default "chore(snapshot): {count} files updated @ {timestamp}"
          (given_commitMessageTemplate given))
       (default "snapshot-{timestamp}" (given_tagTemplate given))
       (default 2 (given_retries given))
       (default "git" (given_gitBinary given))
       (given_metricsCollector given))
    false None false.

Record GitSnapshotResult := mkResult {
  result_mode : Mode;
  success : bool;
  changedFiles : list string;
  durationMs : Z;
  result_message : option string;
  commitSha : option string;
  tagName : option string;
  errorCode : option string
}.

(** What [execFile] reports: the process ended with status 0, or the
    promise is rejected with an error that may carry a message, a numeric
    code and the two outputs. *)
Inductive ExecOutcome :=
| Exited (stdout stderr : string)
| Rejected (error_message : string) (error_code : option Z) (stdout stderr : string).

Record ExecResult := mkExec {
  stdout : string;
  stderr : string;
  exitCode : Z
}.

(** The exit status and the standard output that [runGit] reads off an
    outcome when failures are allowed. *)
Definition exit_status (outcome : ExecOutcome) : Z :=
  match outcome with
  | Exited _ _ => 0
  | Rejected _ c _ _ => default 1 c
  end.

Definition output (outcome : ExecOutcome) : string :=
  match outcome with
  | Exited out _ => out
  | Rejected _ _ out _ => out
  end.

(** What a manager does to the outside: the git processes it starts, the
    pauses between retries, and the results it hands to the collector. *)
Inductive Effect :=
| Exec (args : list string) (cwd : string)
| Sleep (ms : Z)
| Metrics (result : GitSnapshotResult).

(** [acc.split(token).join(value)] for a token that is not empty: every
    occurrence of the token, found from the left without overlap, becomes
    the value ([skip] characters of the current occurrence are still to be
    passed). *)
Fixpoint replace_all (token value : string) (skip : nat) (s : string) : string :=
  match s with
  | "" => ""
  | String c s' =>
      match skip with
      | S k => replace_all token value k s'
      | O =>
          if String.prefix token s
          then value ++ replace_all token value (String.length token - 1) s'
          else String c (replace_all token value 0 s')
      end
  end.

(** [s.split(sep)] for a separator of one character. *)
Fixpoint split (sep : ascii) (s : string) : list string :=
  match s with
  | "" => [""]
  | String c s' =>
      if (c =? sep)%char then "" :: split sep s'
      else
        match split sep s' with
        | [] => [String c ""]
        | first :: others => String c first :: others
        end
  end.

(** [args.join(' ')] *)
Fixpoint join (sep : string) (l : list string) : string :=
  match l with
  | [] => ""
  | [x] => x
  | x :: rest => x ++ sep ++ join sep rest
  end.

Definition newline : ascii := ascii_of_nat 10.

(** The lines of [git status --porcelain] that [countStagedChanges]
    counts: not blank, and the first column neither [?] nor a space. *)
Definition staged_line (line : string) : bool :=
  match line with
  | "" => false
  | String c _ => negb (c =? "?")%char && negb (c =? " ")%char
  end.

(** The counting of [countStagedChanges] on the output of the command. *)
Definition count_staged (stdout : string) : nat :=
  length
    (filter (fun line => staged_line line = true)
       (filter (fun line => line <> "")
          (map Js.trimEnd (split newline stdout)))).

(** [error.message.length > 0 ? `: ${error.message}` : ''] *)
Definition cause_message (m : string) : string :=
  if (m =? "")%string then "" else ": " ++ m.

Section Manager.

(** The outside world: the file system, the git processes and the clock. *)
Variable World : Type.
Variable execFile : string -> list string -> string -> World -> ExecOutcome * World.
Variable realpathSync : string -> World -> option string.
Variable Date_now : World -> Z.
Variable toISOString : World -> string.
Variable wait : Z -> World -> World.

(** [path.relative] of Node, and [normalizePath] of file-operations.ts,
    which is not among the sources. *)
Variable path_relative : string -> string -> string.
Variable normalizePath : string -> string.

(** A run: the world and what has been done to it so far. *)
Record Run := mkRun {
  world : World;
  effects : list Effect
}.

(** A step that may throw. *)
Definition Step (A : Type) : Type := Run -> (StorageMdError + A) * Run.

(** [runGit(args, { allowFailure }, cwdOverride)] *)
Definition runGit (mgr : Manager) (args : list string) (allowFailure : bool)
    (cwdOverride : option string) : Step ExecResult :=
  fun run =>
    let cwd :=
      match cwdOverride with
      | Some cwd => cwd
      | None => default (opt_repositoryPath (options mgr)) (repositoryRoot mgr)
      end in
    let '(outcome, w) := execFile (gitBinary (options mgr)) args cwd (world run) in
    let run' := mkRun w (effects run ++ [Exec args cwd]) in
    match outcome with
    | Exited out err => (inr (mkExec out err 0), run')
    | Rejected m c out err =>
        if allowFailure then (inr (mkExec out err (default 1 c)), run')
        else
          (inl (mkError
                  ("Git 명령 실패: " ++ gitBinary (options mgr) ++ " "
                   ++ join " " args ++ cause_message m)
                  "GIT_COMMAND_ERROR" (Some cwd)),
           run')
    end.

(** The [for] loop of [executeWithRetry], from [attempt] on; [fuel]
    bounds the number of iterations. *)
Fixpoint retry_loop (fuel : nat) (mgr : Manager) (fn : Step unit)
    (errorCode : string) (maxRetries attempt : Z) : Step unit :=
  fun run =>
    match fuel with
    | O => (inr tt, run)
    | S fuel' =>
        if attempt <=? maxRetries
        then
          match fn run with
          | (inr _, run') => (inr tt, run')
          | (inl error, run') =>
              if attempt =? maxRetries
              then
                (inl (mkError ("Git 스냅샷 작업 실패" ++ cause_message (message error))
                        errorCode (Some (repositoryPath mgr))),
                 run')
              else
                let ms := (attempt + 1) * 50 in
                retry_loop fuel' mgr fn errorCode maxRetries (attempt + 1)
                  (mkRun (wait ms (world run')) (effects run' ++ [Sleep ms]))
          end
        else (inr tt, run)
    end.

(** [executeWithRetry(fn, errorCode, maxRetries)]: the loop runs at most
    [maxRetries + 1] times. *)
Definition executeWithRetry (mgr : Manager) (fn : Step unit) (errorCode : string)
    (maxRetries : Z) : Step unit :=
  retry_loop (Z.to_nat (maxRetries + 1)) mgr fn errorCode maxRetries 0.

(** The run after [failed] attempts of [fn] that all throw, each followed
    by its pause, counting the attempts from [attempt]; [None] when one of
    them returns normally. *)
Fixpoint after_failures (fn : Step unit) (failed : nat) (attempt : Z) (run : Run)
    : option Run :=
  match failed with
  | O => Some run
  | S n =>
      match fn run with
      | (inl _, run') =>
          let ms := (attempt + 1) * 50 in
          after_failures fn n (attempt + 1)
            (mkRun (wait ms (world run')) (effects run' ++ [Sleep ms]))
      | (inr _, _) => None
      end
  end.

(** The thunk [async () => { await this.runGit(args) }]. *)
Definition git (mgr : Manager) (args : list string) : Step unit :=
  fun run =>
    match runGit mgr args false None run with
    | (inr _, run') => (inr tt, run')
    | (inl error, run') => (inl error, run')
    end.

(** [renderTemplate(template, count, commitSha)] *)
Definition renderTemplate (mgr : Manager) (template : string) (count : option Z)
    (commitSha : option string) (w : World) : string :=
  let replacements :=
    ([("{timestamp}", toISOString w);
      ("{count}", match count with Some n => Js.toString n | None => "0" end);
      ("{mode}", mode_name (mode (options mgr)))]
     ++ match commitSha with
        | Some sha => if (sha =? "")%string then [] else [("{commit}", sha)]
        | None => []
        end)%list in
  foldl (fun acc '(token, value) => replace_all token value 0 acc) template replacements.

(** [ensureRelativeToRepo(filePath)] *)
Definition ensureRelativeToRepo (mgr : Manager) (filePath : string) (w : World)
    : option string :=
  let repoBasePath := default (opt_repositoryPath (options mgr)) (repositoryRoot mgr) in
  if (repoBasePath =? "")%string then None
  else
    let inside relative := if startsWith relative ".." then None else Some relative in
    match realpathSync filePath w, realpathSync repoBasePath w with
    | Some realFile, Some realRepo =>
        inside (normalizePath
                  (path_relative (normalizePath realRepo) (normalizePath realFile)))
    | _, _ =>
        let realRepoRoot := normalizePath repoBasePath in
        let normalizedFilePath :=
          if startsWith filePath "/var/" && negb (startsWith filePath "/private/var/")
          then "/private" ++ filePath
          else filePath in
        inside (normalizePath
                  (path_relative realRepoRoot (normalizePath normalizedFilePath)))
    end.

(** [collectUniqueFiles(events)]; an event is given by its [filePath]. *)
Definition collectUniqueFiles (mgr : Manager) (events : list string) (w : World)
    : list string :=
  array_from_set
    (omap (fun filePath =>
             match ensureRelativeToRepo mgr (normalizePath filePath) w with
             | Some relative => if (relative =? "")%string then None else Some relative
             | None => None
             end)
          events).

(** [rollback(files)] *)
Definition rollback (mgr : Manager) (files : list string) (run : Run) : Run :=
  match repositoryRoot mgr with
  | None => run
  | Some root =>
      if (root =? "")%string then run
      else if hasHead mgr
      then (runGit mgr ["reset"; "--mixed"; "HEAD"] true None run).2
      else
        foldl (fun run file =>
                 (runGit mgr ["rm"; "--cached"; "--ignore-unmatch"; "--"; file]
                    true None run).2)
              run files
  end.

(** The root that [git rev-parse --show-toplevel] reports for the
    configured path: its output, trimmed and normalised. *)
Definition found_root (mgr : Manager) (run : Run) : string :=
  normalizePath
    (Js.trim
       (output
          (execFile (gitBinary (options mgr)) ["rev-parse"; "--show-toplevel"]
             (opt_repositoryPath (options mgr)) (world run)).1)).

(** [initialize()] *)
Definition initialize (mgr : Manager) (run : Run)
    : (StorageMdError + unit) * Manager * Run :=
  if isInitialized mgr then (inr tt, mgr, run)
  else
    let resolvedPath := opt_repositoryPath (options mgr) in
    match runGit mgr ["rev-parse"; "--show-toplevel"] true (Some resolvedPath) run with
    | (inl error, run1) => (inl error, mgr, run1)
    | (inr rootResult, run1) =>
        if negb (exitCode rootResult =? 0)
        then
          (inl (mkError ("Git 저장소가 아님: " ++ resolvedPath)
                  "GIT_SNAPSHOT_INIT_ERROR" (Some resolvedPath)),
           mgr, run1)
        else
          let mgr1 :=
            mkManager (repositoryPath mgr) (options mgr) false
              (Some (normalizePath (Js.trim (stdout rootResult)))) (hasHead mgr) in
          match runGit mgr1 ["rev-parse"; "--verify"; "HEAD"] true None run1 with
          | (inl error, run2) => (inl error, mgr1, run2)
          | (inr headResult, run2) =>
              (inr tt,
               mkManager (repositoryPath mgr) (options mgr) true
                 (repositoryRoot mgr1) (exitCode headResult =? 0),
               run2)
          end
    end.

(** The [try] block of [createSnapshot]: the error thrown, if any, the
    result object as the block leaves it, and the manager. *)
Definition snapshot_steps (mgr : Manager) (uniqueFiles : list string)
    (result : GitSnapshotResult) (run : Run)
    : option StorageMdError * GitSnapshotResult * Manager * Run :=
  let opts := options mgr in
  (* stageFiles *)
  match executeWithRetry mgr (git mgr ("add" :: "--" :: uniqueFiles))
          "GIT_STAGE_ERROR" (retries opts) run with
  | (inl error, run1) => (Some error, result, mgr, run1)
  | (inr _, run1) =>
      (* countStagedChanges *)
      match runGit mgr ["status"; "--porcelain"] false None run1 with
      | (inl error, run2) => (Some error, result, mgr, run2)
      | (inr status, run2) =>
          if (count_staged (stdout status) =? 0)%nat
          then
            (None,
             mkResult (result_mode result) true (changedFiles result)
               (durationMs result) (Some "No staged changes to snapshot")
               (commitSha result) (tagName result) (errorCode result),
             mgr, run2)
          else if decide (mode opts = disabled)
          then
            (* createCommit returns '' for any other mode *)
            (None,
             mkResult (result_mode result) true (changedFiles result)
               (durationMs result) (result_message result) (Some "")
               (tagName result) (errorCode result),
             mgr, run2)
          else
            (* createCommit *)
            let commitMessage :=
              renderTemplate mgr (commitMessageTemplate opts)
                (Some (Z.of_nat (length uniqueFiles))) None (world run2) in
            match executeWithRetry mgr (git mgr ["commit"; "-m"; commitMessage])
                    "GIT_COMMIT_ERROR" 0 run2 with
            | (inl error, run3) => (Some error, result, mgr, run3)
            | (inr _, run3) =>
                match runGit mgr ["rev-parse"; "HEAD"] false None run3 with
                | (inl error, run4) => (Some error, result, mgr, run4)
                | (inr head, run4) =>
                    let mgr' :=
                      mkManager (repositoryPath mgr) opts (isInitialized mgr)
                        (repositoryRoot mgr) true in
                    let sha := Js.trim (stdout head) in
                    let result1 :=
                      mkResult (result_mode result) (success result)
                        (changedFiles result) (durationMs result)
                        (result_message result) (Some sha) (tagName result)
                        (errorCode result) in
                    match mode opts with
                    | tag =>
                        (* createTag *)
                        let name :=
                          renderTemplate mgr' (tagTemplate opts) None (Some sha)
                            (world run4) in
                        match executeWithRetry mgr' (git mgr' ["tag"; name; sha])
                                "GIT_TAG_ERROR" (retries opts) run4 with
                        | (inl error, run5) => (Some error, result1, mgr', run5)
                        | (inr _, run5) =>
                            (None,
                             mkResult (result_mode result) true
                               (changedFiles result) (durationMs result)
                               (result_message result) (Some sha) (Some name)
                               (errorCode result),
                             mgr', run5)
                        end
                    | _ =>
                        (None,
                         mkResult (result_mode result) true (changedFiles result)
                           (durationMs result) (result_message result) (Some sha)
                           (tagName result) (errorCode result),
                         mgr', run4)
                    end
                end
            end
      end
  end.

(** [createSnapshot(events)]: the value returned or the error thrown, the
    manager and the run afterwards. *)
Definition createSnapshot (mgr : Manager) (events : list string) (run : Run)
    : (StorageMdError + option GitSnapshotResult) * Manager * Run :=
  if negb (isInitialized mgr)
  then
    (inl (mkError "GitSnapshotManager가 초기화되지 않았습니다"
            "GIT_SNAPSHOT_NOT_INITIALIZED" (Some (repositoryPath mgr))),
     mgr, run)
  else
    match mode (options mgr) with
    | disabled => (inr None, mgr, run)
    | _ =>
        match collectUniqueFiles mgr events (world run) with
        | [] => (inr None, mgr, run)
        | uniqueFiles =>
            let startedAt := Date_now (world run) in
            let result0 :=
              mkResult (mode (options mgr)) false uniqueFiles 0 None None None None in
            let '(thrown, result1, mgr1, run1) :=
              snapshot_steps mgr uniqueFiles result0 run in
            (* catch *)
            let '(result2, run2) :=
              match thrown with
              | Some error =>
                  (mkResult (result_mode result1) (success result1)
                     (changedFiles result1) (durationMs result1)
                     (result_message result1) (commitSha result1) (tagName result1)
                     (Some (code error)),
                   rollback mgr1 uniqueFiles run1)
              | None => (result1, run1)
              end in
            (* finally *)
            let result3 :=
              mkResult (result_mode result2) (success result2) (changedFiles result2)
                (Date_now (world run2) - startedAt)
                (result_message result2) (commitSha result2) (tagName result2)
                (errorCode result2) in
            let run3 :=
              if metricsCollector (options mgr)
              then mkRun (world run2) (effects run2 ++ [Metrics result3])
              else run2 in
            (match thrown with
             | Some error => inl error
             | None => inr (Some result3)
             end,
             mgr1, run3)
        end
    end.

End Manager.

(** The effects of an operation that is retried: [failed] failed attempts,
    each followed by its pause, and the last attempt. *)
Fixpoint retry_trace (e : Effect) (failed : nat) (attempt : Z) : list Effect :=
  match failed with
  | O => [e]
  | S n => e :: Sleep ((attempt + 1) * 50) :: retry_trace e n (attempt + 1)
  end.

(** The effect is a git process with the given subcommand. *)
Definition is_git (command : string) (e : Effect) : bool :=
  match e with
  | Exec (c :: _) _ => String.eqb c command
  | _ => false
  end.

(** How many git processes with the subcommand the effects hold. *)
Definition git_count (command : string) (t : list Effect) : nat :=
  length (filter (fun e => is_git command e = true) t).

Definition is_metrics (e : Effect) : bool :=
  match e with
  | Metrics _ => true
  | _ => false
  end.

(** The git subcommands that a snapshot may run. *)
Definition snapshot_commands : list string :=
  ["add"; "status"; "commit"; "rev-parse"; "tag"; "reset"; "rm"].

(** The effect is a pause, a report, or a git process of the list. *)
Definition known (e : Effect) : Prop :=
  match e with
  | Exec (c :: _) _ => c ∈ snapshot_commands
  | Exec [] _ => False
  | _ => True
  end.

(** The error codes that a snapshot may throw once it has started. *)
Definition snapshot_codes : list string :=
  ["GIT_STAGE_ERROR"; "GIT_COMMAND_ERROR"; "GIT_COMMIT_ERROR"; "GIT_TAG_ERROR"].

(** The working directory of a git process of the manager. *)
Definition cwd_of (mgr : Manager) : string :=
  default (opt_repositoryPath (options mgr)) (repositoryRoot mgr).

(** The facts on the effects [t] of the [try] block. *)
Record steps_ok (m : Mode) (t : list Effect) : Prop := mkStepsOk {
  ok_calm : Forall (fun e => is_metrics e = false) t;
  ok_known : Forall known t;
  ok_commit : (git_count "commit" t <= 1)%nat;
  ok_tag : m <> tag -> git_count "tag" t = 0%nat
}.

(** A world for examples: the outcomes of the git processes still to
    come, in order; a process beyond them succeeds without output. *)
Definition Script : Type := list ExecOutcome.

Definition script_execFile (binary : string) (args : list string) (cwd : string)
    (w : Script) : ExecOutcome * Script :=
  match w with
  | [] => (Exited "" "", [])
  | outcome :: w' => (outcome, w')
  end.

(** No path exists any more, so that the paths are compared as given. *)
Definition script_realpathSync (p : string) (w : Script) : option string := None.

Definition script_now (w : Script) : Z := 1000 - Z.of_nat (length w).
Definition script_toISOString (w : Script) : string := "2024-01-01T00:00:00.000Z".
Definition script_wait (ms : Z) (w : Script) : Script := w.

(** [path.relative] on the paths of the examples: below the directory
    the rest of the path, and a path that leaves the directory otherwise. *)
Definition sample_relative (from to : string) : string :=
  if String.prefix (from ++ "/") to
  then String.substring (String.length from + 1) (String.length to) to
  else "../" ++ to.

Definition sample_normalize (p : string) : string := p.

Definition sample_manager (m : Mode) : Manager :=
  mkManager "/repo"
    (mkOptions "/repo" m "chore(snapshot): {count} files updated @ {timestamp}"
       "snapshot-{timestamp}" 2 "git" true)
    true (Some "/repo") true.

Definition sample_events : list string :=
  ["/repo/a.md"; "/repo/notes/b.md"; "/repo/a.md"; "/elsewhere/c.md"].

(** The first [git add] fails, the second succeeds; one line is staged. *)
Definition sample_script : Script :=
  [Rejected "index.lock exists" (Some 128) "" "";
   Exited "" "";
   Exited ("M  a.md" ++ String newline "?? c.md") "";
   Exited "" "";
   Exited ("abc123" ++ String newline "") ""].

Definition sample_files : list string :=
  collectUniqueFiles Script script_realpathSync sample_relative sample_normalize
    (sample_manager tag) sample_events sample_script.

Definition sample_snapshot :=
  createSnapshot Script script_execFile script_realpathSync script_now
    script_toISOString script_wait sample_relative sample_normalize
    (sample_manager tag) sample_events (mkRun Script sample_script []).

(** Every attempt fails. *)
Definition failing_script : Script :=
  [Rejected "a" None "" ""; Rejected "b" None "" ""; Rejected "c" None "" ""].

Definition sample_git : Step Script unit :=
  git Script script_execFile (sample_manager commit) ["add"; "--"; "a.md"].

Definition sample_retry :=
  executeWithRetry Script script_wait (sample_manager commit) sample_git
    "GIT_STAGE_ERROR" 2 (mkRun Script failing_script []).

(** A manager as the constructor leaves it, in a repository without a
    commit. *)
Definition fresh_manager : Manager :=
  new_manager "/repo/vault" (mkGivenOptions None None None None None None false).

Definition fresh_script : Script :=
  [Exited ("/repo" ++ String newline "") "";
   Rejected "unknown revision" (Some 128) "" ""].

Definition sample_initialize :=
  initialize Script script_execFile sample_normalize fresh_manager
    (mkRun Script fresh_script []).

(* ---------- facts ---------- *)

Section ManagerFacts.

Variable World : Type.
Variable execFile : string -> list string -> string -> World -> ExecOutcome * World.
Variable realpathSync : string -> World -> option string.
Variable Date_now : World -> Z.
Variable toISOString : World -> string.
Variable wait : Z -> World -> World.
Variable path_relative : string -> string -> string.
Variable normalizePath : string -> string.

Local Abbreviation Run := (Run World).
Local Abbreviation runGit := (runGit World execFile).
Local Abbreviation git := (git World execFile).
Local Abbreviation retry_loop := (retry_loop World wait).
Local Abbreviation executeWithRetry := (executeWithRetry World wait).

Lemma runGit_effects mgr args allowFailure (run run' : Run) outcome :
  runGit mgr args allowFailure None run = (outcome, run') ->
  effects World run' = (effects World run ++ [Exec args (cwd_of mgr)])%list.
Proof.
  unfold GitSnapshot.runGit. fold (cwd_of mgr).
  destruct (execFile _ args (cwd_of mgr) (world World run)) as [[out err|m c out err] w].
  - by intros [= _ <-].
  - destruct allowFailure; by intros [= _ <-].
Qed.

Lemma runGit_allowFailure mgr args cwdOverride (run : Run) :
  exists result, (runGit mgr args true cwdOverride run).1 = inr result.
Proof.
  unfold GitSnapshot.runGit.
  destruct (execFile _ _ _ _) as [[out err|m c out err] w]; by eexists.
Qed.

Lemma git_effects mgr args (run run' : Run) outcome :
  git mgr args run = (outcome, run') ->
  effects World run' = (effects World run ++ [Exec args (cwd_of mgr)])%list /\
  forall e, outcome = inl e -> code e = "GIT_COMMAND_ERROR".
Proof.
  unfold GitSnapshot.git.
  destruct (runGit mgr args false None run) as [[e|r] run1] eqn:E.
  - intros [= <- <-]. split; [by eapply runGit_effects|].
    intros e' [= <-]. revert E. unfold GitSnapshot.runGit.
    destruct (execFile _ _ _ _) as [[out err|m c out err] w]; [discriminate|].
    by intros [= <- _].
  - intros [= <- <-]. split; [by eapply runGit_effects | discriminate].
Qed.

Lemma retry_loop_git mgr args errorCode maxRetries fuel attempt
    (run run' : Run) outcome :
  0 <= attempt <= maxRetries ->
  fuel = Z.to_nat (maxRetries + 1 - attempt) ->
  retry_loop fuel mgr (git mgr args) errorCode maxRetries attempt run
  = (outcome, run') ->
  exists failed : nat,
    attempt + Z.of_nat failed <= maxRetries /\
    effects World run'
    = (effects World run ++ retry_trace (Exec args (cwd_of mgr)) failed attempt)%list /\
    (outcome = inr tt \/
     (attempt + Z.of_nat failed = maxRetries /\
      exists e, outcome = inl e /\ code e = errorCode)).
Proof.
  revert attempt run. induction fuel as [|fuel IH]; intros attempt run Ha Hfuel; [lia|].
  cbn [GitSnapshot.retry_loop].
  destruct (Z.leb_spec attempt maxRetries) as [_|?]; [|lia].
  destruct (git mgr args run) as [[e|[]] run1] eqn:E;
    apply git_effects in E as [E _].
  - destruct (Z.eqb_spec attempt maxRetries) as [->|Hne].
    + intros [= <- <-]. exists 0%nat. split; [lia|]. split; [exact E|].
      right. split; [lia|]. by eexists.
    + intros H. apply IH in H as (failed & Hle & Ht & Ho); [|lia..].
      exists (S failed). split; [lia|]. split.
      * rewrite Ht. cbn [effects retry_trace]. rewrite E, <- !app_assoc.
        reflexivity.
      * destruct Ho as [->|(Hk & Ho)]; [by left|]. right. split; [lia | exact Ho].
  - intros [= <- <-]. exists 0%nat. split; [lia|]. split; [exact E|]. by left.
Qed.

Lemma retry_loop_attempts mgr (fn : Step World unit) errorCode maxRetries fuel attempt
    (run run' : Run) outcome :
  0 <= attempt <= maxRetries ->
  fuel = Z.to_nat (maxRetries + 1 - attempt) ->
  retry_loop fuel mgr fn errorCode maxRetries attempt run = (outcome, run') ->
  exists (failed : nat) (before : Run),
    attempt + Z.of_nat failed <= maxRetries /\
    after_failures World wait fn failed attempt run = Some before /\
    match fn before with
    | (inr _, after) => outcome = inr tt /\ run' = after
    | (inl error, after) =>
        attempt + Z.of_nat failed = maxRetries /\
        outcome = inl (mkError ("Git 스냅샷 작업 실패" ++ cause_message (message error))
                         errorCode (Some (repositoryPath mgr))) /\
        run' = after
    end.
Proof.
  revert attempt run. induction fuel as [|fuel IH]; intros attempt run Ha Hfuel; [lia|].
  cbn [GitSnapshot.retry_loop].
  destruct (Z.leb_spec attempt maxRetries) as [_|?]; [|lia].
  destruct (fn run) as [[e|[]] run1] eqn:E.
  - destruct (Z.eqb_spec attempt maxRetries) as [->|Hne].
    + intros [= <- <-]. exists 0%nat, run. split; [lia|]. split; [reflexivity|].
      rewrite E. split; [lia | done].
    + intros H. apply IH in H as (failed & before & Hle & Hb & Ho); [|lia..].
      exists (S failed), before. split; [lia|]. split.
      * cbn [after_failures]. by rewrite E.
      * destruct (fn before) as [[e'|u] after]; [|done].
        destruct Ho as (Hk & Ho & Hr). split; [lia | done].
  - intros [= <- <-]. exists 0%nat, run. split; [lia|]. split; [reflexivity|].
    by rewrite E.
Qed.

(** [executeWithRetry(fn, errorCode, maxRetries)]: with a negative
    [maxRetries] the step is never run and the call returns normally.
    Otherwise the step is run until it returns normally, at most
    [maxRetries + 1] times, with a pause of 50, 100, 150, ... milliseconds
    after each attempt that throws but the last.  The call returns
    normally exactly when one of these attempts does, right after it; when
    all [maxRetries + 1] attempts throw, it throws an error with the given
    code, whose message ends with the message of the last error. *)
Theorem executeWithRetry_attempts mgr (fn : Step World unit) errorCode maxRetries
    (run run' : Run) outcome :
  executeWithRetry mgr fn errorCode maxRetries run = (outcome, run') ->
  if maxRetries <? 0 then outcome = inr tt /\ run' = run
  else
    exists (failed : nat) (before : Run),
      Z.of_nat failed <= maxRetries /\
      after_failures World wait fn failed 0 run = Some before /\
      match fn before with
      | (inr _, after) => outcome = inr tt /\ run' = after
      | (inl error, after) =>
          Z.of_nat failed = maxRetries /\
          outcome = inl (mkError ("Git 스냅샷 작업 실패" ++ cause_message (message error))
                           errorCode (Some (repositoryPath mgr))) /\
          run' = after
      end.
Proof.
  unfold GitSnapshot.executeWithRetry. intros H.
  destruct (Z.ltb_spec maxRetries 0) as [Hneg|Hpos].
  - replace (Z.to_nat (maxRetries + 1)) with 0%nat in H by lia.
    cbn in H. by injection H as <- <-.
  - apply retry_loop_attempts in H as (failed & before & Hle & Hb & Ho); [|lia..].
    exists failed, before. split; [lia|]. split; [done|].
    destruct (fn before) as [[e|u] after]; [|done].
    destruct Ho as (Hk & Ho & Hr). split; [lia | done].
Qed.

Lemma git_count_app command (t1 t2 : list Effect) :
  git_count command (t1 ++ t2) = (git_count command t1 + git_count command t2)%nat.
Proof. unfold git_count. by rewrite filter_app, length_app. Qed.

Lemma retry_trace_facts c args cwd failed attempt :
  let t := retry_trace (Exec (c :: args) cwd) failed attempt in
  Forall (fun e => is_metrics e = false) t /\
  Forall (fun e => e = Exec (c :: args) cwd \/ exists ms, e = Sleep ms) t /\
  git_count c t = S failed /\
  forall command, command <> c -> git_count command t = 0%nat.
Proof.
  cbv zeta. revert attempt. induction failed as [|n IH]; intros attempt.
  - cbn [retry_trace]. split; [by repeat constructor|].
    split; [repeat constructor; by left|]. unfold git_count.
    split.
    + rewrite filter_cons. cbn [is_git]. rewrite String.eqb_refl.
      by case_decide.
    + intros command Hne. rewrite filter_cons. cbn [is_git].
      destruct (String.eqb_spec c command); [congruence|]. by case_decide.
  - cbn [retry_trace]. destruct (IH (attempt + 1)) as (H1 & H2 & H3 & H4).
    split; [by repeat constructor|].
    split; [constructor; [by left|]; constructor; [right; by eexists | done]|].
    change (Exec (c :: args) cwd :: Sleep ((attempt + 1) * 50) :: ?t)
      with ([Exec (c :: args) cwd; Sleep ((attempt + 1) * 50)] ++ t)%list.
    split.
    + rewrite git_count_app, H3. unfold git_count. rewrite !filter_cons.
      cbn [is_git]. rewrite String.eqb_refl. repeat case_decide; done.
    + intros command Hne. rewrite git_count_app, (H4 command Hne).
      unfold git_count. rewrite !filter_cons. cbn [is_git].
      destruct (String.eqb_spec c command); [congruence|]. repeat case_decide; done.
Qed.

(** What a retried git command adds to the effects. *)
Lemma retried_trace mgr c args errorCode maxRetries (run run' : Run) outcome :
  executeWithRetry mgr (git mgr (c :: args)) errorCode maxRetries run = (outcome, run') ->
  exists t,
    effects World run' = (effects World run ++ t)%list /\
    Forall (fun e => is_metrics e = false) t /\
    Forall (fun e => e = Exec (c :: args) (cwd_of mgr) \/ exists ms, e = Sleep ms) t /\
    (git_count c t <= Z.to_nat (maxRetries + 1))%nat /\
    (forall command, command <> c -> git_count command t = 0%nat) /\
    (forall e, outcome = inl e -> code e = errorCode).
Proof.
  unfold GitSnapshot.executeWithRetry. intros H.
  destruct (Z.lt_ge_cases maxRetries 0) as [Hneg|Hpos].
  - replace (Z.to_nat (maxRetries + 1)) with 0%nat in * by lia.
    cbn in H. injection H as <- <-. exists []. rewrite app_nil_r.
    repeat split; try done; constructor.
  - apply retry_loop_git in H as (failed & Hle & Ht & Ho); [|lia..].
    destruct (retry_trace_facts c args (cwd_of mgr) failed 0) as (H1 & H2 & H3 & H4).
    eexists. split; [exact Ht|]. split; [exact H1|]. split; [exact H2|].
    split; [rewrite H3; lia|]. split; [exact H4|].
    intros e ->. destruct Ho as [?|(_ & e' & [= <-] & ?)]; done.
Qed.

Lemma known_retried c args cwd t :
  c ∈ snapshot_commands ->
  Forall (fun e => e = Exec (c :: args) cwd \/ exists ms, e = Sleep ms) t ->
  Forall known t.
Proof.
  intros Hc Ht. eapply Forall_impl; [exact Ht|].
  intros e [->|[ms ->]]; cbn; done.
Qed.

Lemma rollback_trace mgr files (run : Run) :
  exists t,
    effects World (rollback World execFile mgr files run)
    = (effects World run ++ t)%list /\
    Forall (fun e => is_metrics e = false) t /\
    Forall known t /\
    git_count "commit" t = 0%nat /\ git_count "tag" t = 0%nat.
Proof.
  assert (Hnil : exists t,
    effects World run = (effects World run ++ t)%list /\
    Forall (fun e => is_metrics e = false) t /\
    Forall known t /\
    git_count "commit" t = 0%nat /\ git_count "tag" t = 0%nat).
  { exists []. rewrite app_nil_r. repeat split; constructor. }
  unfold rollback. destruct (repositoryRoot mgr) as [root|] eqn:Hroot; [|exact Hnil].
  destruct (root =? "")%string; [exact Hnil|].
  destruct (hasHead mgr).
  - destruct (runGit mgr ["reset"; "--mixed"; "HEAD"] true None run) as [o run'] eqn:E.
    apply runGit_effects in E. cbn [snd]. eexists. split; [exact E|].
    split; [by repeat constructor|]. split; [|done].
    constructor; [|constructor]. cbn. by apply (bool_decide_unpack _).
  - clear Hnil. revert run. induction files as [|file files IH]; intros run.
    + exists []. rewrite app_nil_r. repeat split; constructor.
    + cbn [foldl].
      destruct (runGit mgr ["rm"; "--cached"; "--ignore-unmatch"; "--"; file]
                  true None run) as [o run'] eqn:E.
      apply runGit_effects in E. cbn [snd].
      destruct (IH run') as (t & Ht & H1 & H2 & H3 & H4).
      eexists. split; [rewrite Ht, E, <- app_assoc; reflexivity|].
      split; [by constructor|]. split.
      * constructor; [|done]. cbn. by apply (bool_decide_unpack _).
      * change (?e :: t) with ([e] ++ t)%list.
        rewrite !git_count_app, H3, H4. done.
Qed.

Local Abbreviation snapshot_steps :=
  (snapshot_steps World execFile toISOString wait).
Local Abbreviation createSnapshot :=
  (createSnapshot World execFile realpathSync Date_now toISOString wait
     path_relative normalizePath).
Local Abbreviation collectUniqueFiles :=
  (collectUniqueFiles World realpathSync path_relative normalizePath).

Lemma steps_ok_app m t1 t2 :
  steps_ok m t1 -> steps_ok m t2 ->
  (git_count "commit" t1 = 0 \/ git_count "commit" t2 = 0)%nat ->
  steps_ok m (t1 ++ t2).
Proof.
  intros [A1 A2 A3 A4] [B1 B2 B3 B4] Hc. split.
  - by apply Forall_app.
  - by apply Forall_app.
  - rewrite git_count_app. lia.
  - intros Hm. rewrite git_count_app, A4, B4; done.
Qed.

Lemma steps_ok_retried m mgr c args t :
  c ∈ snapshot_commands ->
  (c = "tag" -> m = tag) ->
  Forall (fun e => is_metrics e = false) t ->
  Forall (fun e => e = Exec (c :: args) (cwd_of mgr) \/ exists ms, e = Sleep ms) t ->
  (c = "commit" -> git_count c t <= 1)%nat ->
  (forall command, command <> c -> git_count command t = 0%nat) ->
  steps_ok m t.
Proof.
  intros Hc Htag H1 H2 H3 H4. split; [done | by eapply known_retried | |].
  - destruct (decide (c = "commit")) as [->|Hne]; [by apply H3|].
    rewrite H4; [lia | done].
  - intros Hm. apply H4. intros <-. by apply Hm, Htag.
Qed.

Lemma steps_ok_exec m mgr c args :
  c ∈ snapshot_commands -> c <> "commit" -> c <> "tag" ->
  steps_ok m [Exec (c :: args) (cwd_of mgr)].
Proof.
  intros Hc H1 H2. split.
  - by repeat constructor.
  - constructor; [exact Hc | constructor].
  - unfold git_count. rewrite filter_cons. cbn [is_git].
    destruct (String.eqb_spec c "commit"); [done|]. case_decide; [done | cbn; lia].
  - intros _. unfold git_count. rewrite filter_cons. cbn [is_git].
    destruct (String.eqb_spec c "tag"); [done|]. case_decide; [done | reflexivity].
Qed.

Lemma in_commands c : bool_decide (c ∈ snapshot_commands) -> c ∈ snapshot_commands.
Proof. apply bool_decide_unpack. Qed.

Lemma in_codes c : bool_decide (c ∈ snapshot_codes) -> c ∈ snapshot_codes.
Proof. apply bool_decide_unpack. Qed.

(** What the [try] block of [createSnapshot] does. *)
Lemma snapshot_steps_trace mgr files result (run run1 : Run) thrown result1 mgr1 :
  snapshot_steps mgr files result run = (thrown, result1, mgr1, run1) ->
  exists t,
    effects World run1 = (effects World run ++ t)%list /\
    steps_ok (mode (options mgr)) t /\
    changedFiles result1 = changedFiles result /\
    result_mode result1 = result_mode result /\
    errorCode result1 = errorCode result /\
    match thrown with
    | None => success result1 = true
    | Some e => success result1 = success result /\ code e ∈ snapshot_codes
    end /\
    options mgr1 = options mgr /\ repositoryRoot mgr1 = repositoryRoot mgr /\
    isInitialized mgr1 = isInitialized mgr.
Proof.
  unfold GitSnapshot.snapshot_steps.
  set (status_cmd := Exec ["status"; "--porcelain"] (cwd_of mgr)).
  set (head_cmd := Exec ["rev-parse"; "HEAD"] (cwd_of mgr)).
  assert (Hstatus : steps_ok (mode (options mgr)) [status_cmd])
    by (by apply steps_ok_exec; [apply in_commands|..]).
  assert (Hhead : steps_ok (mode (options mgr)) [head_cmd])
    by (by apply steps_ok_exec; [apply in_commands|..]).
  (* stageFiles *)
  destruct (executeWithRetry mgr (git mgr ("add" :: "--" :: files)) _ _ run)
    as [[e1|[]] r1] eqn:E1;
    apply retried_trace in E1 as (t1 & Ht1 & A1 & A2 & A3 & A4 & A5);
    assert (steps_ok (mode (options mgr)) t1) as S1
      by (eapply (steps_ok_retried _ mgr "add"); try done; by apply in_commands).
  { intros [= <- <- <- <-]. exists t1. rewrite (A5 e1 eq_refl).
    split_and!; try done. by apply in_codes. }
  (* countStagedChanges *)
  assert (S2 : steps_ok (mode (options mgr)) (t1 ++ [status_cmd]))
    by (apply steps_ok_app; [done | done | by right]).
  assert (C2 : git_count "commit" (t1 ++ [status_cmd]) = 0%nat)
    by (rewrite git_count_app, A4; done).
  destruct (runGit mgr ["status"; "--porcelain"] false None r1) as [[e2|status] r2] eqn:E2.
  { pose proof (git_effects mgr ["status"; "--porcelain"] r1 r2 (inl e2)) as G.
    unfold GitSnapshot.git in G. rewrite E2 in G. destruct (G eq_refl) as [Ht2 Hc2].
    intros [= <- <- <- <-]. exists (t1 ++ [status_cmd])%list.
    rewrite (Hc2 e2 eq_refl). split_and!; try done; [|by apply in_codes].
    rewrite Ht2, Ht1. by rewrite <- app_assoc. }
  apply runGit_effects in E2 as Ht2.
  assert (Ht2' : effects World r2 = (effects World run ++ (t1 ++ [status_cmd]))%list)
    by (rewrite Ht2, Ht1; by rewrite <- app_assoc).
  clear Ht2.
  destruct (count_staged (stdout status) =? 0)%nat.
  { intros [= <- <- <- <-]. exists (t1 ++ [status_cmd])%list. by split_and!. }
  destruct (decide (mode (options mgr) = disabled)).
  { intros [= <- <- <- <-]. exists (t1 ++ [status_cmd])%list. by split_and!. }
  (* createCommit *)
  set (commitMessage := renderTemplate _ _ _ _ _ _ _).
  destruct (executeWithRetry mgr (git mgr ["commit"; "-m"; commitMessage]) _ 0 r2)
    as [[e3|[]] r3] eqn:E3;
    apply retried_trace in E3 as (t3 & Ht3 & B1 & B2 & B3 & B4 & B5);
    assert (steps_ok (mode (options mgr)) t3) as S3
      by (eapply (steps_ok_retried _ mgr "commit"); try done;
          first [by apply in_commands | intros _; exact B3]);
    assert (S3' : steps_ok (mode (options mgr)) ((t1 ++ [status_cmd]) ++ t3))
      by (apply steps_ok_app; [done | done | by left]);
    assert (Ht3' : effects World r3
                   = (effects World run ++ ((t1 ++ [status_cmd]) ++ t3))%list)
      by (rewrite Ht3, Ht2'; by rewrite <- app_assoc).
  { intros [= <- <- <- <-]. exists ((t1 ++ [status_cmd]) ++ t3)%list.
    rewrite (B5 e3 eq_refl). split_and!; try done. by apply in_codes. }
  assert (S4 : steps_ok (mode (options mgr))
                 (((t1 ++ [status_cmd]) ++ t3) ++ [head_cmd]))
    by (apply steps_ok_app; [done | done | by right]).
  destruct (runGit mgr ["rev-parse"; "HEAD"] false None r3) as [[e4|head] r4] eqn:E4.
  { pose proof (git_effects mgr ["rev-parse"; "HEAD"] r3 r4 (inl e4)) as G.
    unfold GitSnapshot.git in G. rewrite E4 in G. destruct (G eq_refl) as [Ht4 Hc4].
    intros [= <- <- <- <-]. exists (((t1 ++ [status_cmd]) ++ t3) ++ [head_cmd])%list.
    rewrite (Hc4 e4 eq_refl). split_and!; try done; [|by apply in_codes].
    rewrite Ht4, Ht3'. by rewrite <- app_assoc. }
  apply runGit_effects in E4 as Ht4.
  assert (Ht4' : effects World r4
          = (effects World run
             ++ (((t1 ++ [status_cmd]) ++ t3) ++ [head_cmd]))%list)
    by (rewrite Ht4, Ht3'; by rewrite <- app_assoc).
  set (mgr' := mkManager _ _ _ _ true).
  destruct (mode (options mgr)) eqn:Hmode.
  - intros [= <- <- <- <-].
    exists (((t1 ++ [status_cmd]) ++ t3) ++ [head_cmd])%list. by split_and!.
  - set (name := renderTemplate _ _ _ _ _ _ _).
    destruct (executeWithRetry mgr' (git mgr' ["tag"; name; _]) _ _ r4)
      as [[e5|[]] r5] eqn:E5;
      apply retried_trace in E5 as (t5 & Ht5 & D1 & D2 & D3 & D4 & D5);
      assert (steps_ok tag t5) as S5
        by (eapply (steps_ok_retried _ mgr' "tag"); try done; by apply in_commands);
      assert (S5' : steps_ok tag
                ((((t1 ++ [status_cmd]) ++ t3) ++ [head_cmd]) ++ t5))
        by (apply steps_ok_app; [done | done | right; by apply D4]);
      assert (Ht5' : effects World r5
                = (effects World run
                   ++ ((((t1 ++ [status_cmd]) ++ t3) ++ [head_cmd]) ++ t5))%list)
        by (rewrite Ht5, Ht4'; by rewrite <- app_assoc).
    + intros [= <- <- <- <-]. eexists. split; [exact Ht5'|].
      rewrite (D5 e5 eq_refl). split_and!; try done. by apply in_codes.
    + intros [= <- <- <- <-]. eexists. split; [exact Ht5'|]. by split_and!.
  - done.
Qed.

Lemma git_count_metrics command report : git_count command [Metrics report] = 0%nat.
Proof. reflexivity. Qed.

Lemma mode_enabled {A} (m : Mode) (X Y : A) :
  m <> disabled ->
  match m with commit => X | tag => X | disabled => Y end = X.
Proof. by destruct m. Qed.

(** What [createSnapshot] does once the three early exits are passed. *)
Lemma createSnapshot_active mgr events (run run' : Run) outcome mgr' files :
  isInitialized mgr = true -> mode (options mgr) <> disabled ->
  collectUniqueFiles mgr events (world World run) = files -> files <> [] ->
  createSnapshot mgr events run = (outcome, mgr', run') ->
  exists t report,
    effects World run'
    = (effects World run ++ t
       ++ (if metricsCollector (options mgr) then [Metrics report] else []))%list /\
    steps_ok (mode (options mgr)) t /\
    changedFiles report = files /\
    result_mode report = mode (options mgr) /\
    match outcome with
    | inr (Some result) =>
        result = report /\ success report = true /\ errorCode report = None
    | inr None => False
    | inl e =>
        success report = false /\ errorCode report = Some (code e) /\
        code e ∈ snapshot_codes
    end.
Proof.
  intros Hinit Hmode Hfiles Hne. unfold GitSnapshot.createSnapshot.
  rewrite Hinit. cbn [negb]. fold collectUniqueFiles. rewrite Hfiles.
  destruct files as [|f fs]; [done|]. set (files := f :: fs) in *.
  rewrite mode_enabled by done. cbv zeta.
  set (result0 := mkResult _ false files 0 None None None None).
  set (startedAt := Date_now (world World run)).
  destruct (snapshot_steps mgr files result0 run) as [[[thrown result1] mgr1] run1] eqn:E.
  apply snapshot_steps_trace in E
    as (t & Ht & St & Hc & Hm & He & Hs & Ho & Hr & Hi).
  destruct thrown as [error|].
  - destruct Hs as [Hs Hcode].
    destruct (rollback_trace mgr1 files run1) as (tr & Htr & R1 & R2 & R3 & R4).
    set (report := mkResult _ _ _ _ _ _ _ _).
    intros [= <- <- <-]. exists (t ++ tr)%list, report. split_and!; try done.
    + destruct (metricsCollector (options mgr)); cbn [effects];
        rewrite Htr, Ht; by rewrite ?app_nil_r, <- ?app_assoc.
    + destruct St. split.
      * by apply Forall_app.
      * by apply Forall_app.
      * rewrite git_count_app. lia.
      * intros Htag. rewrite git_count_app, R4. by rewrite ok_tag0.
  - set (report := mkResult _ _ _ _ _ _ _ _).
    intros [= <- <- <-]. exists t, report. split_and!; try done.
    destruct (metricsCollector (options mgr)); cbn [effects];
      rewrite Ht; by rewrite ?app_nil_r, <- ?app_assoc.
Qed.

(** [createSnapshot] reports every attempt exactly once.  Not
    initialised it throws, and in mode [disabled] or without a changed
    file inside the repository it returns [null], in each case without
    doing anything.  Otherwise the collector, when one is installed,
    gets one report, as the last effect of the call: the result
    returned, with [success] set, or the report of the failure with the
    code of the error thrown, which is one of four. *)
Theorem createSnapshot_report mgr events (run run' : Run) outcome mgr' :
  createSnapshot mgr events run = (outcome, mgr', run') ->
  (run' = run /\ mgr' = mgr /\
   ((isInitialized mgr = false /\
     exists e, outcome = inl e /\ code e = "GIT_SNAPSHOT_NOT_INITIALIZED") \/
    (isInitialized mgr = true /\ outcome = inr None /\
     (mode (options mgr) = disabled \/
      collectUniqueFiles mgr events (world World run) = [])))) \/
  (isInitialized mgr = true /\ mode (options mgr) <> disabled /\
   collectUniqueFiles mgr events (world World run) <> [] /\
   exists t report,
     effects World run'
     = (effects World run ++ t
        ++ (if metricsCollector (options mgr) then [Metrics report] else []))%list /\
     Forall (fun e => is_metrics e = false) t /\
     changedFiles report = collectUniqueFiles mgr events (world World run) /\
     match outcome with
     | inr (Some result) =>
         result = report /\ success report = true /\ errorCode report = None
     | inr None => False
     | inl e =>
         success report = false /\ errorCode report = Some (code e) /\
         code e ∈ snapshot_codes
     end).
Proof.
  intros H.
  destruct (isInitialized mgr) eqn:Hinit.
  2:{ left. unfold GitSnapshot.createSnapshot in H. rewrite Hinit in H.
      cbn [negb] in H. injection H as <- <- <-. split_and!; try done.
      left. split; [done|]. by eexists. }
  destruct (decide (mode (options mgr) = disabled)) as [Hmode|Hmode].
  { left. unfold GitSnapshot.createSnapshot in H. rewrite Hinit, Hmode in H.
    cbn [negb] in H. injection H as <- <- <-. split_and!; try done.
    right. split_and!; try done. by left. }
  destruct (collectUniqueFiles mgr events (world World run)) as [|f files] eqn:Hfiles.
  { left. unfold GitSnapshot.createSnapshot in H. fold collectUniqueFiles in H.
    rewrite Hinit, Hfiles in H. cbn [negb] in H.
    destruct (mode (options mgr)); injection H as <- <- <-; split_and!; try done;
      right; split_and!; try done; by right. }
  right. split_and!; try done.
  eapply createSnapshot_active in H as (t & report & Ht & [St _ _ _] & Hc & _ & Ho);
    try done.
  by exists t, report.
Qed.

(** The git processes of a snapshot: each is one of add, status, commit,
    rev-parse, tag, reset and rm; commit is run at most once (it is not
    retried), and tag only in mode [tag]. *)
Theorem createSnapshot_commands mgr events (run run' : Run) outcome mgr' :
  createSnapshot mgr events run = (outcome, mgr', run') ->
  exists t,
    effects World run' = (effects World run ++ t)%list /\
    Forall known t /\
    (git_count "commit" t <= 1)%nat /\
    (mode (options mgr) <> tag -> git_count "tag" t = 0%nat).
Proof.
  intros H.
  assert (Hidle : run' = run -> exists t,
    effects World run' = (effects World run ++ t)%list /\
    Forall known t /\ (git_count "commit" t <= 1)%nat /\
    (mode (options mgr) <> tag -> git_count "tag" t = 0%nat)).
  { intros ->. exists []. rewrite app_nil_r. split_and!; try done. cbn. lia. }
  destruct (isInitialized mgr) eqn:Hinit.
  2:{ apply Hidle. unfold GitSnapshot.createSnapshot in H. rewrite Hinit in H.
      cbn [negb] in H. by injection H as _ _ <-. }
  destruct (decide (mode (options mgr) = disabled)) as [Hmode|Hmode].
  { apply Hidle. unfold GitSnapshot.createSnapshot in H. rewrite Hinit, Hmode in H.
    cbn [negb] in H. by injection H as _ _ <-. }
  destruct (collectUniqueFiles mgr events (world World run)) as [|f files] eqn:Hfiles.
  { apply Hidle. unfold GitSnapshot.createSnapshot in H. fold collectUniqueFiles in H.
    rewrite Hinit, Hfiles in H. cbn [negb] in H.
    destruct (mode (options mgr)); by injection H as _ _ <-. }
  clear Hidle.
  eapply createSnapshot_active in H as (t & report & Ht & [St1 St2 St3 St4] & _);
    try done.
  exists (t ++ (if metricsCollector (options mgr) then [Metrics report] else []))%list.
  split; [exact Ht|]. destruct (metricsCollector (options mgr)).
  - split_and!.
    + apply Forall_app. split; [done|]. by repeat constructor.
    + rewrite git_count_app, git_count_metrics. lia.
    + intros Hm. rewrite git_count_app, git_count_metrics, St4; done.
  - rewrite app_nil_r. by split_and!.
Qed.

End ManagerFacts.

Section SetupFacts.

Variable World : Type.
Variable execFile : string -> list string -> string -> World -> ExecOutcome * World.
Variable realpathSync : string -> World -> option string.
Variable Date_now : World -> Z.
Variable toISOString : World -> string.
Variable wait : Z -> World -> World.
Variable path_relative : string -> string -> string.
Variable normalizePath : string -> string.

Local Abbreviation Run := (Run World).
Local Abbreviation collectUniqueFiles :=
  (collectUniqueFiles World realpathSync path_relative normalizePath).
Local Abbreviation ensureRelativeToRepo :=
  (ensureRelativeToRepo World realpathSync path_relative normalizePath).
Local Abbreviation initialize := (initialize World execFile normalizePath).

Lemma ensureRelativeToRepo_inside mgr filePath w relative :
  ensureRelativeToRepo mgr filePath w = Some relative ->
  startsWith relative ".." = false.
Proof.
  unfold GitSnapshot.ensureRelativeToRepo.
  destruct (_ =? "")%string; [discriminate|].
  repeat case_match; try discriminate; by intros [= <-].
Qed.

(** [collectUniqueFiles]: the files of a snapshot are distinct, none is
    the empty path, none leaves the repository by starting with two
    dots, and each is the relative path of an event; the relative path of
    every event that has one which is not empty is among them. *)
Theorem collectUniqueFiles_inside mgr events w :
  NoDup (collectUniqueFiles mgr events w) /\
  forall relative,
    relative ∈ collectUniqueFiles mgr events w <->
    relative <> "" /\
    exists filePath,
      filePath ∈ events /\
      ensureRelativeToRepo mgr (normalizePath filePath) w = Some relative /\
      startsWith relative ".." = false.
Proof.
  split; [apply array_from_set_NoDup|].
  intros relative. unfold GitSnapshot.collectUniqueFiles.
  rewrite array_from_set_elem_of, list_elem_of_omap. split.
  - intros (filePath & Hin & H).
    destruct (ensureRelativeToRepo mgr (normalizePath filePath) w) as [r|] eqn:E;
      [|discriminate].
    destruct (String.eqb_spec r ""); [discriminate|]. injection H as <-.
    split; [done|]. exists filePath. split_and!; try done.
    by eapply ensureRelativeToRepo_inside.
  - intros (Hne & filePath & Hin & E & _). exists filePath. split; [done|].
    fold ensureRelativeToRepo. rewrite E.
    by destruct (String.eqb_spec relative "").
Qed.

(** [initialize]: an initialised manager is left alone and no process
    is started.  Otherwise [git rev-parse --show-toplevel] runs in the
    configured path.  When its exit status is not 0 the call throws
    GIT_SNAPSHOT_INIT_ERROR, naming the path, and the manager stays as it
    was, not initialised.  When it is 0 the root of the repository is the
    trimmed, normalised output of the process,
    [git rev-parse --verify HEAD] runs in that root, the call returns
    normally and the manager is initialised, [hasHead] telling whether the
    exit status of the second process is 0. *)
Theorem initialize_outcome mgr (run run' : Run) outcome mgr' :
  initialize mgr run = (outcome, mgr', run') ->
  if isInitialized mgr
  then outcome = inr tt /\ mgr' = mgr /\ run' = run
  else
    if exit_status
         (execFile (gitBinary (options mgr)) ["rev-parse"; "--show-toplevel"]
            (opt_repositoryPath (options mgr)) (world World run)).1 =? 0
    then
      outcome = inr tt /\
      mgr' = mkManager (repositoryPath mgr) (options mgr) true
               (Some (found_root World execFile normalizePath mgr run))
               (exit_status
                  (execFile (gitBinary (options mgr)) ["rev-parse"; "--verify"; "HEAD"]
                     (found_root World execFile normalizePath mgr run)
                     (execFile (gitBinary (options mgr)) ["rev-parse"; "--show-toplevel"]
                        (opt_repositoryPath (options mgr)) (world World run)).2).1 =? 0) /\
      run' = mkRun World
               (execFile (gitBinary (options mgr)) ["rev-parse"; "--verify"; "HEAD"]
                  (found_root World execFile normalizePath mgr run)
                  (execFile (gitBinary (options mgr)) ["rev-parse"; "--show-toplevel"]
                     (opt_repositoryPath (options mgr)) (world World run)).2).2
               (effects World run
                ++ [Exec ["rev-parse"; "--show-toplevel"] (opt_repositoryPath (options mgr));
                    Exec ["rev-parse"; "--verify"; "HEAD"]
                      (found_root World execFile normalizePath mgr run)])
    else
      outcome = inl (mkError ("Git 저장소가 아님: " ++ opt_repositoryPath (options mgr))
                       "GIT_SNAPSHOT_INIT_ERROR"
                       (Some (opt_repositoryPath (options mgr)))) /\
      mgr' = mgr /\
      run' = mkRun World
               (execFile (gitBinary (options mgr)) ["rev-parse"; "--show-toplevel"]
                  (opt_repositoryPath (options mgr)) (world World run)).2
               (effects World run
                ++ [Exec ["rev-parse"; "--show-toplevel"]
                      (opt_repositoryPath (options mgr))]).
Proof.
  unfold GitSnapshot.initialize, found_root. destruct (isInitialized mgr).
  { by intros [= <- <- <-]. }
  cbv zeta. unfold runGit.
  destruct (execFile _ ["rev-parse"; "--show-toplevel"] _ _) as [[out err|m c out err] w].
  - cbn [exitCode negb Z.eqb repositoryRoot options default world effects stdout
         exit_status output fst snd].
    destruct (execFile _ ["rev-parse"; "--verify"; "HEAD"] _ _)
      as [[out2 err2|m2 c2 out2 err2] w2];
      intros [= <- <- <-]; cbn [exit_status fst snd effects];
        by rewrite <- app_assoc.
  - cbn [exitCode exit_status output fst snd].
    destruct (Z.eqb_spec (default 1 c) 0) as [E|E]; cbn [negb].
    + cbn [repositoryRoot options default world effects stdout].
      destruct (execFile _ ["rev-parse"; "--verify"; "HEAD"] _ _)
        as [[out2 err2|m2 c2 out2 err2] w2];
        intros [= <- <- <-]; cbn [exit_status fst snd effects];
          by rewrite <- app_assoc.
    + by intros [= <- <- <-].
Qed.

End SetupFacts.

Example collectUniqueFiles_sample :
  collectUniqueFiles Script script_realpathSync sample_relative sample_normalize
    (sample_manager commit) sample_events sample_script
  = ["a.md"; "notes/b.md"].
Proof. vm_compute. reflexivity. Qed.

Lemma executeWithRetry_attempts_witness :
  exists (failed : nat) (before : Run Script),
    Z.of_nat failed <= 2 /\
    after_failures Script script_wait sample_git failed 0
      (mkRun Script failing_script []) = Some before /\
    match sample_git before with
    | (inr _, after) => sample_retry.1 = inr tt /\ sample_retry.2 = after
    | (inl error, after) =>
        Z.of_nat failed = 2 /\
        sample_retry.1
        = inl (mkError ("Git 스냅샷 작업 실패" ++ cause_message (message error))
                 "GIT_STAGE_ERROR" (Some (repositoryPath (sample_manager commit)))) /\
        sample_retry.2 = after
    end.
Proof.
  apply (executeWithRetry_attempts Script script_wait (sample_manager commit)
           sample_git "GIT_STAGE_ERROR" 2
           (mkRun Script failing_script []) sample_retry.2 sample_retry.1).
  vm_compute. reflexivity.
Defined.

(** All three attempts fail: the call throws, with the message of the
    third failure. *)
Example executeWithRetry_sample_outcome :
  sample_retry.1
  = inl (mkError "Git 스냅샷 작업 실패: Git 명령 실패: git add -- a.md: c"
           "GIT_STAGE_ERROR" (Some "/repo")).
Proof. vm_compute. reflexivity. Qed.

Example executeWithRetry_sample :
  effects Script sample_retry.2
  = [Exec ["add"; "--"; "a.md"] "/repo"; Sleep 50;
     Exec ["add"; "--"; "a.md"] "/repo"; Sleep 100;
     Exec ["add"; "--"; "a.md"] "/repo"].
Proof. vm_compute. reflexivity. Qed.

Lemma initialize_outcome_witness :
  sample_initialize.1.1 = inr tt /\
  sample_initialize.1.2
  = mkManager "/repo/vault" (options fresh_manager) true (Some "/repo") false /\
  sample_initialize.2
  = mkRun Script []
      [Exec ["rev-parse"; "--show-toplevel"] "/repo/vault";
       Exec ["rev-parse"; "--verify"; "HEAD"] "/repo"].
Proof.
  apply (initialize_outcome Script script_execFile sample_normalize fresh_manager
           (mkRun Script fresh_script []) sample_initialize.2
           sample_initialize.1.1 sample_initialize.1.2).
  vm_compute. reflexivity.
Defined.

(** Outside a repository the first process fails and the call throws. *)
Example initialize_outside_repository :
  (initialize Script script_execFile sample_normalize fresh_manager
     (mkRun Script [Rejected "not a git repository" (Some 128) "" "fatal"] [])).1
  = (inl (mkError "Git 저장소가 아님: /repo/vault" "GIT_SNAPSHOT_INIT_ERROR"
            (Some "/repo/vault")),
     fresh_manager).
Proof. vm_compute. reflexivity. Qed.

Example initialize_sample :
  repositoryRoot sample_initialize.1.2 = Some "/repo" /\
  hasHead sample_initialize.1.2 = false.
Proof. vm_compute. by split. Qed.

Lemma createSnapshot_commands_witness :
  exists t,
    effects Script sample_snapshot.2 = ([] ++ t)%list /\
    Forall known t /\
    (git_count "commit" t <= 1)%nat /\
    (mode (options (sample_manager tag)) <> tag -> git_count "tag" t = 0%nat).
Proof.
  apply (createSnapshot_commands Script script_execFile script_realpathSync
           script_now script_toISOString script_wait sample_relative sample_normalize
           (sample_manager tag) sample_events (mkRun Script sample_script [])
           sample_snapshot.2 sample_snapshot.1.1 sample_snapshot.1.2).
  vm_compute. reflexivity.
Defined.

Example createSnapshot_sample :
  effects Script sample_snapshot.2
  = [Exec ["add"; "--"; "a.md"; "notes/b.md"] "/repo"; Sleep 50;
     Exec ["add"; "--"; "a.md"; "notes/b.md"] "/repo";
     Exec ["status"; "--porcelain"] "/repo";
     Exec ["commit"; "-m";
           "chore(snapshot): 2 files updated @ 2024-01-01T00:00:00.000Z"] "/repo";
     Exec ["rev-parse"; "HEAD"] "/repo";
     Exec ["tag"; "snapshot-2024-01-01T00:00:00.000Z"; "abc123"] "/repo";
     Metrics (mkResult tag true ["a.md"; "notes/b.md"] 5 None (Some "abc123")
                (Some "snapshot-2024-01-01T00:00:00.000Z") None)].
Proof. vm_compute. reflexivity. Qed.

Lemma createSnapshot_report_witness :
  (sample_snapshot.2 = mkRun Script sample_script [] /\
   sample_snapshot.1.2 = sample_manager tag /\
   ((isInitialized (sample_manager tag) = false /\
     exists e, sample_snapshot.1.1 = inl e /\ code e = "GIT_SNAPSHOT_NOT_INITIALIZED") \/
    (isInitialized (sample_manager tag) = true /\ sample_snapshot.1.1 = inr None /\
     (mode (options (sample_manager tag)) = disabled \/ sample_files = [])))) \/
  (isInitialized (sample_manager tag) = true /\
   mode (options (sample_manager tag)) <> disabled /\ sample_files <> [] /\
   exists t report,
     effects Script sample_snapshot.2
     = ([] ++ t
        ++ (if metricsCollector (options (sample_manager tag))
            then [Metrics report] else []))%list /\
     Forall (fun e => is_metrics e = false) t /\
     changedFiles report = sample_files /\
     match sample_snapshot.1.1 with
     | inr (Some result) =>
         result = report /\ success report = true /\ errorCode report = None
     | inr None => False
     | inl e =>
         success report = false /\ errorCode report = Some (code e) /\
         code e ∈ snapshot_codes
     end).
Proof.
  apply (createSnapshot_report Script script_execFile script_realpathSync
           script_now script_toISOString script_wait sample_relative sample_normalize
           (sample_manager tag) sample_events (mkRun Script sample_script [])
           sample_snapshot.2 sample_snapshot.1.1 sample_snapshot.1.2).
  vm_compute. reflexivity.
Defined.

End GitSnapshot.
